(** * PolyglotUI plugin core (src/code.ts): a shallow embedding

    The plugin runs inside a design-tool host.  The host owns the scene graph;
    the plugin reads node attributes, walks [parent]/[children] links and
    mutates two things per node: the visible [characters] of a text node and
    the string-keyed plugin data attached to a node.

    How the source is rendered here.

    - Strings are sequences of UTF-16 code units in the source.  Here a
      string is a Rocq [string] whose characters stand for the code units
      0..255; on that range the character classes [\w], [\s], [trim] and
      [toLowerCase] below are exactly the JavaScript ones.  So is
      [toUpperCase], but for the two code units whose upper case lies
      above 255, the micro sign and y with diaeresis; [upperInRange] tells
      the strings without them.
    - The attributes of a node that no handler changes ([id], [type],
      [name], [visible], [fontName], [children]) form a tree.  The two
      mutable attributes live in stores keyed by the node identifier, which
      stands for the identity of the node object: [node.characters = t] and
      [node.setPluginData(k, v)] update the store at [node.id].
    - A handler is a computation in a state-and-exception monad over the
      session state.  Every [await] of the source is one step of it, and a
      message is handled to completion before the next one; interleavings of
      two handlers are outside the model.
    - The one host call that can fail is [figma.loadFontAsync], which the
      source itself guards in [scanSelection]: it rejects for a font the
      machine does not have and for the mixed-font marker.
    - Console output, node positions and the viewport are not part of the
      state. *)

From Stdlib Require Import Ascii String List Bool Arith Lia.
From stdpp Require Import base option list gmap strings.

Set Default Proof Using "Type".

(* ===================================================================== *)
(** ** Text primitives of the JavaScript runtime *)
(* ===================================================================== *)

Module Js.

Definition code (c : ascii) : nat := nat_of_ascii c.

Definition between (lo hi : nat) (c : ascii) : bool :=
  (lo <=? code c) && (code c <=? hi).

(** [\w] : ASCII letters, digits and the underscore. *)
Definition isWord (c : ascii) : bool :=
  between 97 122 c || between 65 90 c || between 48 57 c || (code c =? 95).

(** [\s] restricted to code units below 256: TAB, LF, VT, FF, CR, SPACE
    and NO-BREAK SPACE. *)
Definition isSpace (c : ascii) : bool :=
  between 9 13 c || (code c =? 32) || (code c =? 160).

Definition isHyphen (c : ascii) : bool := code c =? 45.
Definition isDot (c : ascii) : bool := code c =? 46.

(** [String.prototype.toLowerCase], one code unit at a time: A-Z and the
    Latin-1 capitals (all of 0xC0..0xDE but the multiplication sign). *)
Definition lowerChar (c : ascii) : ascii :=
  if between 65 90 c || (between 192 222 c && negb (code c =? 215))
  then ascii_of_nat (code c + 32) else c.

(** [String.prototype.toUpperCase], one code unit at a time: a-z and the
    Latin-1 small letters (all of 0xE0..0xFE but the division sign) lose
    32, and the sharp s (0xDF) becomes the two letters SS.  The upper case
    of the micro sign (0xB5) and of y with diaeresis (0xFF) is a code unit
    above 255; they are left as they are here, and [upperInRange] excludes
    them. *)
Definition upperChar (c : ascii) : string :=
  if between 97 122 c || (between 224 254 c && negb (code c =? 247))
  then String (ascii_of_nat (code c - 32)) EmptyString
  else if code c =? 223 then "SS"
  else String c EmptyString.

Fixpoint mapChars (f : ascii -> ascii) (s : string) : string :=
  match s with
  | EmptyString => EmptyString
  | String c r => String (f c) (mapChars f r)
  end.

Definition toLowerCase : string -> string := mapChars lowerChar.

Fixpoint toUpperCase (s : string) : string :=
  match s with
  | EmptyString => EmptyString
  | String c r => upperChar c +:+ toUpperCase r
  end.

(** [s.replace(/[cls]/g, '')] for a character class [cls]. *)
Fixpoint removeAll (cls : ascii -> bool) (s : string) : string :=
  match s with
  | EmptyString => EmptyString
  | String c r => if cls c then removeAll cls r else String c (removeAll cls r)
  end.

(** [s.replace(/[cls]+/g, by)]: every maximal run of class characters is
    replaced by one copy of [by].  [inRun] records that the previous
    character already belonged to the run being replaced. *)
Fixpoint replaceRunsFrom (cls : ascii -> bool) (by_ : ascii) (inRun : bool)
  (s : string) : string :=
  match s with
  | EmptyString => EmptyString
  | String c r =>
      if cls c
      then (if inRun then replaceRunsFrom cls by_ true r
            else String by_ (replaceRunsFrom cls by_ true r))
      else String c (replaceRunsFrom cls by_ false r)
  end.

Definition replaceRuns (cls : ascii -> bool) (by_ : ascii) : string -> string :=
  replaceRunsFrom cls by_ false.

Fixpoint dropWhile (cls : ascii -> bool) (s : string) : string :=
  match s with
  | EmptyString => EmptyString
  | String c r => if cls c then dropWhile cls r else s
  end.

Fixpoint allChars (cls : ascii -> bool) (s : string) : bool :=
  match s with
  | EmptyString => true
  | String c r => cls c && allChars cls r
  end.

(** The strings on which [toUpperCase] above is the JavaScript one: those
    without the micro sign and without y with diaeresis. *)
Definition upperInRange (s : string) : bool :=
  allChars (fun c => negb ((code c =? 181) || (code c =? 255))) s.

(** Removes the run of class characters that ends the string. *)
Fixpoint dropWhileEnd (cls : ascii -> bool) (s : string) : string :=
  match s with
  | EmptyString => EmptyString
  | String c r => if allChars cls s then EmptyString else String c (dropWhileEnd cls r)
  end.

(** [s.replace(/^[cls]+|[cls]+$/g, '')]. *)
Definition stripEnds (cls : ascii -> bool) (s : string) : string :=
  dropWhileEnd cls (dropWhile cls s).

(** [s.split(sep)] for a one-character separator; [cur] is the segment
    being read, in reverse.  The empty string splits into one empty
    segment. *)
Fixpoint revString (acc s : string) : string :=
  match s with
  | EmptyString => acc
  | String c r => revString (String c acc) r
  end.

Fixpoint splitFrom (sep : ascii -> bool) (cur : string) (s : string) : list string :=
  match s with
  | EmptyString => [revString EmptyString cur]
  | String c r =>
      if sep c then revString EmptyString cur :: splitFrom sep EmptyString r
      else splitFrom sep (String c cur) r
  end.

Definition split (sep : ascii -> bool) : string -> list string :=
  splitFrom sep EmptyString.

(** [xs.join(sep)]. *)
Fixpoint join (sep : string) (xs : list string) : string :=
  match xs with
  | [] => EmptyString
  | [x] => x
  | x :: rest => x +:+ sep +:+ join sep rest
  end.

(** [xs.slice(0, n)]. *)
Definition slice0 {A} (n : nat) (xs : list A) : list A := firstn n xs.

(** [s.trim()] is empty, i.e. the string is blank. *)
Definition isBlank (s : string) : bool := allChars isSpace s.

(** [s.includes(sub)]. *)
Fixpoint startsWith (sub s : string) : bool :=
  match sub, s with
  | EmptyString, _ => true
  | String _ _, EmptyString => false
  | String a sub', String b s' => (code a =? code b) && startsWith sub' s'
  end.

Fixpoint includes (sub s : string) : bool :=
  startsWith sub s ||
  match s with
  | EmptyString => false
  | String _ r => includes sub r
  end.

(** Truthiness of a string: the empty string is falsy. *)
Definition truthy (s : string) : bool :=
  match s with EmptyString => false | _ => true end.

End Js.

(* ===================================================================== *)
(** ** [slugify], [getContext], [getScreenName] *)
(* ===================================================================== *)

(** [text.toLowerCase().replace(/[^\w\s-]/g, '').replace(/[\s_-]+/g, '.')
       .replace(/^-+|-+$/g, '').split('.').slice(0, 3).join('.')] *)
Definition keepsInSlug (c : ascii) : bool :=
  Js.isWord c || Js.isSpace c || Js.isHyphen c.

Definition separatesSlug (c : ascii) : bool :=
  Js.isSpace c || (Js.code c =? 95) || Js.isHyphen c.

Definition slugify (text : string) : string :=
  let s1 := Js.toLowerCase text in
  let s2 := Js.removeAll (fun c => negb (keepsInSlug c)) s1 in
  let s3 := Js.replaceRuns separatesSlug "."%char s2 in
  let s4 := Js.stripEnds Js.isHyphen s3 in
  Js.join "." (Js.slice0 3 (Js.split Js.isDot s4)).

(* ===================================================================== *)
(** ** The host's scene graph *)
(* ===================================================================== *)

Abbreviation NodeId := nat (only parsing).

Module Node.

Record FontName := mkFont { family : string; style : string }.

(** The node types of the host that can occur below a page. *)
Inductive NodeType :=
| FRAME | GROUP | COMPONENT | COMPONENT_SET | INSTANCE | SECTION
| BOOLEAN_OPERATION | TEXT | RECTANGLE | ELLIPSE | LINE | VECTOR.

(** A scene node.  [fontName = None] stands for the host's [figma.mixed]
    marker of a text node that uses several fonts.  [characters] and the
    plugin data of a node are mutable and live in the stores of the
    session state below, keyed by [id]. *)
Inductive SceneNode := mk {
  id : NodeId;
  type : NodeType;
  name : string;
  visible : bool;
  fontName : option FontName;
  children : list SceneNode
}.

Record PageNode := mkPage {
  pageId : NodeId;
  pageName : string;
  pageChildren : list SceneNode
}.

(** [node.type === 'TEXT'] *)
Definition isText (ty : NodeType) : bool :=
  match ty with TEXT => true | _ => false end.

(** [type === 'FRAME' || type === 'COMPONENT' || type === 'INSTANCE'] *)
Definition isBoundary (ty : NodeType) : bool :=
  match ty with FRAME | COMPONENT | INSTANCE => true | _ => false end.

(** ['children' in node]: the node types that carry a child list (and
    with it [findAll]). *)
Definition hasChildren (ty : NodeType) : bool :=
  match ty with
  | FRAME | GROUP | COMPONENT | COMPONENT_SET | INSTANCE | SECTION
  | BOOLEAN_OPERATION => true
  | _ => false
  end.

(** The node and everything below it, in document order.  Only a node
    with a child list has nodes below it. *)
Fixpoint nodes (n : SceneNode) : list SceneNode :=
  match n with
  | mk _ ty _ _ _ cs => n :: (if hasChildren ty then flat_map nodes cs else [])
  end.

(** [node.findAll(() => true)]: everything strictly below the node. *)
Definition descendants (n : SceneNode) : list SceneNode :=
  if hasChildren (type n) then flat_map nodes (children n) else [].

Definition pageNodes (p : PageNode) : list SceneNode :=
  flat_map nodes (pageChildren p).

(** The chain of [parent] links from the node with identifier [target] up
    to [n]: nearest ancestor first, [n] last. *)
Fixpoint pathIn (target : NodeId) (n : SceneNode) : option (list SceneNode) :=
  match n with
  | mk i ty _ _ _ cs =>
      if i =? target then Some []
      else if hasChildren ty then
        (fix first (l : list SceneNode) : option (list SceneNode) :=
           match l with
           | [] => None
           | c :: r =>
               match pathIn target c with
               | Some p => Some (p ++ [n])
               | None => first r
               end
           end) cs
      else None
  end.

Fixpoint firstPath (target : NodeId) (l : list SceneNode) : option (list SceneNode) :=
  match l with
  | [] => None
  | c :: r =>
      match pathIn target c with
      | Some p => Some p
      | None => firstPath target r
      end
  end.

(** The ancestors of a node of the page, from [node.parent] up to (and
    excluding) the page itself.  An identifier that is not on the page has
    no ancestors. *)
Definition ancestors (p : PageNode) (target : NodeId) : list SceneNode :=
  default [] (firstPath target (pageChildren p)).

(** Appending [c] to the child list of every node that holds a child
    with identifier [target]: [target.parent.appendChild(c)]. *)
Definition holds (target : NodeId) (cs : list SceneNode) : bool :=
  existsb (fun c => id c =? target) cs.

Fixpoint appendToParentOf (target : NodeId) (c : SceneNode) (n : SceneNode) : SceneNode :=
  match n with
  | mk i ty nm v f cs =>
      if hasChildren ty then
        mk i ty nm v f
          (map (appendToParentOf target c) cs ++ (if holds target cs then [c] else []))
      else n
  end.

Definition appendToParentOnPage (target : NodeId) (c : SceneNode) (p : PageNode) : PageNode :=
  mkPage (pageId p) (pageName p)
    (map (appendToParentOf target c) (pageChildren p)
       ++ (if holds target (pageChildren p) then [c] else [])).

(** A deep copy with the identifiers [next], [next + 1], ... handed out in
    document order; returns the copy and the first unused identifier. *)
Fixpoint relabel (n : SceneNode) (next : NodeId) : SceneNode * NodeId :=
  match n with
  | mk _ ty nm v f cs =>
      let '(cs', next') :=
        (fix go (l : list SceneNode) (k : NodeId) : list SceneNode * NodeId :=
           match l with
           | [] => ([], k)
           | c :: r =>
               let '(c', k1) := relabel c k in
               let '(r', k2) := go r k1 in
               (c' :: r', k2)
           end) cs (S next) in
      (mk next ty nm v f cs', next')
  end.

(** The inner loop of [relabel] over a child list. *)
Fixpoint relabelList (l : list SceneNode) (k : NodeId) : list SceneNode * NodeId :=
  match l with
  | [] => ([], k)
  | c :: r =>
      let '(c', k1) := relabel c k in
      let '(r', k2) := relabelList r k1 in
      (c' :: r', k2)
  end.

Definition rename (nm : string) (n : SceneNode) : SceneNode :=
  mk (id n) (type n) nm (visible n) (fontName n) (children n).

End Node.

Import Node.

(* ===================================================================== *)
(** ** Classifiers *)
(* ===================================================================== *)

(** The [while] loop of [getContext]: the first boundary container on the
    chain of parents, [None] when the chain runs out ([parent] is null). *)
Fixpoint nearestBoundary (chain : list SceneNode) : option SceneNode :=
  match chain with
  | [] => None
  | parent :: up =>
      if isBoundary (type parent) then Some parent else nearestBoundary up
  end.

Definition classify (parentName : string) : string :=
  if Js.includes "button" parentName then "button"
  else if Js.includes "header" parentName || Js.includes "title" parentName then "heading"
  else if Js.includes "label" parentName then "label"
  else if Js.includes "input" parentName || Js.includes "text field" parentName then "input"
  else if Js.includes "helper" parentName || Js.includes "hint" parentName then "helper"
  else "text".

Definition getContext (page : PageNode) (node : SceneNode) : string :=
  let parent := nearestBoundary (ancestors page (id node)) in
  let parentName :=
    match parent with
    | Some p => Js.toLowerCase (name p)
    | None => "global"
    end in
  classify parentName.

(** The [while] loop of [getScreenName]: [lastFrame] is overwritten by every
    boundary container met on the way up; the loop ends when the parent is
    the page, which is where [ancestors] ends. *)
Fixpoint lastFrameLoop (lastFrame : string) (chain : list SceneNode) : string :=
  match chain with
  | [] => lastFrame
  | parent :: up =>
      lastFrameLoop (if isBoundary (type parent) then name parent else lastFrame) up
  end.

(** [s.toLowerCase().replace(/\s+/g, '.')] *)
Definition dotted (s : string) : string :=
  Js.replaceRuns Js.isSpace "."%char (Js.toLowerCase s).

Definition getScreenName (page : PageNode) (node : SceneNode) : string :=
  dotted (lastFrameLoop "general" (ancestors page (id node))).

(* ===================================================================== *)
(** ** Session state and the handler monad *)
(* ===================================================================== *)

Record Translation := mkTranslation { t_id : NodeId; translatedText : string }.

Record ScanResult := mkScanResult {
  r_id : NodeId;
  r_text : string;
  r_key : string;
  r_context : string;
  r_translations : list (string * string);
  r_manualFlags : list string
}.

(** What the plugin sends to its panel with [figma.ui.postMessage]. *)
Inductive UiMessage :=
| ScanResults (data : list ScanResult)
| ApplyComplete
| ApplyError (message : string).

(** Observable output: toasts ([figma.notify]) and panel messages. *)
Inductive Event :=
| Notify (message : string) (error : bool)
| PostMessage (m : UiMessage).

(** The host session.  [chars] holds [node.characters] and [pdata] the
    plugin data of each node; a missing entry reads as the empty string.
    [fonts] are the fonts [figma.loadFontAsync] can load, [nextId] the next
    identifier the host hands out, [outbox] the events so far, oldest
    first. *)
Record Figma := mkFigma {
  currentPage : PageNode;
  otherPages : list PageNode;
  selection : list NodeId;
  chars : gmap nat string;
  pdata : gmap nat (gmap string string);
  fonts : list FontName;
  nextId : NodeId;
  outbox : list Event
}.

Definition withPage (p : PageNode) (st : Figma) : Figma :=
  mkFigma p (otherPages st) (selection st) (chars st) (pdata st) (fonts st) (nextId st) (outbox st).
Definition withSelection (sel : list NodeId) (st : Figma) : Figma :=
  mkFigma (currentPage st) (otherPages st) sel (chars st) (pdata st) (fonts st) (nextId st) (outbox st).
Definition withChars (c : gmap nat string) (st : Figma) : Figma :=
  mkFigma (currentPage st) (otherPages st) (selection st) c (pdata st) (fonts st) (nextId st) (outbox st).
Definition withPdata (d : gmap nat (gmap string string)) (st : Figma) : Figma :=
  mkFigma (currentPage st) (otherPages st) (selection st) (chars st) d (fonts st) (nextId st) (outbox st).
Definition withNextId (k : NodeId) (st : Figma) : Figma :=
  mkFigma (currentPage st) (otherPages st) (selection st) (chars st) (pdata st) (fonts st) k (outbox st).
Definition emit (e : Event) (st : Figma) : Figma :=
  mkFigma (currentPage st) (otherPages st) (selection st) (chars st) (pdata st) (fonts st) (nextId st)
    (outbox st ++ [e]).

(** [node.characters] *)
Definition characters (st : Figma) (i : NodeId) : string :=
  default EmptyString (chars st !! i).

(** [node.characters = text] *)
Definition setCharacters (i : NodeId) (text : string) (st : Figma) : Figma :=
  withChars (<[i := text]> (chars st)) st.

(** [node.getPluginData(key)]: the empty string when nothing is stored. *)
Definition getPluginData (st : Figma) (i : NodeId) (key : string) : string :=
  default EmptyString (default ∅ (pdata st !! i) !! key).

(** [node.setPluginData(key, value)] *)
Definition setPluginData (i : NodeId) (key value : string) (st : Figma) : Figma :=
  withPdata (<[i := <[key := value]> (default ∅ (pdata st !! i))]> (pdata st)) st.

Definition pages (st : Figma) : list PageNode := currentPage st :: otherPages st.

(** What [figma.getNodeByIdAsync] can return: a page or a scene node. *)
Inductive BaseNode :=
| IsPage (p : PageNode)
| IsScene (n : SceneNode).

Definition baseId (b : BaseNode) : NodeId :=
  match b with IsPage p => pageId p | IsScene n => id n end.

Definition getNodeById (st : Figma) (i : NodeId) : option BaseNode :=
  match find (fun p => pageId p =? i) (pages st) with
  | Some p => Some (IsPage p)
  | None =>
      match find (fun n => id n =? i) (flat_map pageNodes (pages st)) with
      | Some n => Some (IsScene n)
      | None => None
      end
  end.

(** A selected node: the node of the current page with that identifier. *)
Definition findOnPage (p : PageNode) (i : NodeId) : option SceneNode :=
  find (fun n => id n =? i) (pageNodes p).

Definition sameFont (a b : FontName) : bool :=
  String.eqb (family a) (family b) && String.eqb (style a) (style b).

Definition canLoad (st : Figma) (f : option FontName) : bool :=
  match f with
  | Some fn => existsb (sameFont fn) (fonts st)
  | None => false
  end.

(** A handler either returns or throws; the state it reached is kept in
    both cases. *)
Inductive Outcome (A : Type) :=
| Returned (a : A)
| Thrown (message : string).
Arguments Returned {A} a.
Arguments Thrown {A} message.

Definition M (A : Type) : Type := Figma -> Outcome A * Figma.

Definition ret {A} (a : A) : M A := fun st => (Returned a, st).

Definition bind {A B} (m : M A) (k : A -> M B) : M B :=
  fun st =>
    match m st with
    | (Returned a, st') => k a st'
    | (Thrown e, st') => (Thrown e, st')
    end.

Definition throw {A} (e : string) : M A := fun st => (Thrown e, st).

(** [try { body } catch (err) { handler(err.message) }] *)
Definition tryCatch {A} (body : M A) (handler : string -> M A) : M A :=
  fun st =>
    match body st with
    | (Returned a, st') => (Returned a, st')
    | (Thrown e, st') => handler e st'
    end.

Definition get : M Figma := fun st => (Returned st, st).
Definition modify (f : Figma -> Figma) : M unit := fun st => (Returned tt, f st).

Notation "x <- m ;; k" := (bind m (fun x => k))
  (at level 100, m at next level, right associativity).
Notation "m ;;; k" := (bind m (fun _ => k))
  (at level 100, right associativity).

(** [for (const x of xs) body(x)] *)
Definition forEach {A} (body : A -> M unit) : list A -> M unit :=
  fix loop (xs : list A) : M unit :=
    match xs with
    | [] => ret tt
    | x :: rest => body x ;;; loop rest
    end.

Definition notify (message : string) (error : bool) : M unit :=
  modify (emit (Notify message error)).

Definition postMessage (m : UiMessage) : M unit :=
  modify (emit (PostMessage m)).

(** [await figma.loadFontAsync(font)]: rejects for a font the host cannot
    load and for the mixed-font marker. *)
Definition fontError : string := "font could not be loaded".

Definition loadFontAsync (f : option FontName) : M unit :=
  fun st => if canLoad st f then (Returned tt, st) else (Thrown fontError, st).

Definition getNodeByIdAsync (i : NodeId) : M (option BaseNode) :=
  st <- get ;; ret (getNodeById st i).

(* ===================================================================== *)
(** ** [scanSelection] *)
(* ===================================================================== *)

Fixpoint traverse (node : SceneNode) : list SceneNode :=
  match node with
  | mk _ ty _ v _ cs =>
      if negb v then []
      else if isText ty then [node]
      else if hasChildren ty then flat_map traverse cs
      else []
  end.

(** [uniqueFonts.set(key, font)] on a map that keeps insertion order. *)
Fixpoint mapSet (key : string) (font : FontName) (m : list (string * FontName))
  : list (string * FontName) :=
  match m with
  | [] => [(key, font)]
  | (k, f) :: rest =>
      if String.eqb k key then (k, font) :: rest else (k, f) :: mapSet key font rest
  end.

Definition collectFonts (textNodes : list SceneNode) : list (string * FontName) :=
  fold_left
    (fun m node =>
       match fontName node with
       | Some font =>
           if Js.truthy (family font)
           then mapSet (family font +:+ "_" +:+ style font) font m
           else m
       | None => m
       end)
    textNodes [].

(** [Promise.all(fonts.map(font => figma.loadFontAsync(font).catch(...)))] *)
Definition preloadFonts (textNodes : list SceneNode) : M unit :=
  tryCatch
    (forEach (fun kf => tryCatch (loadFontAsync (Some (snd kf))) (fun _ => ret tt))
       (collectFonts textNodes))
    (fun _ => ret tt).

Definition languages : list string := ["fr"; "de"; "hi"; "es"].

Definition storedTranslations (st : Figma) (i : NodeId) : list (string * string) :=
  flat_map
    (fun lang =>
       let trans := getPluginData st i ("translation-" +:+ lang) in
       if Js.truthy trans then [(lang, trans)] else [])
    languages.

Definition manualFlags (st : Figma) (i : NodeId) : list string :=
  filter (fun lang => getPluginData st i ("isManual-" +:+ lang) = "true") languages.

(** The body of [for (const node of textNodes)]; [results] is the array
    being filled. *)
Definition scanNode (node : SceneNode) (results : list ScanResult) : M (list ScanResult) :=
  st <- get ;;
  let originalText := characters st (id node) in
  if negb (Js.truthy originalText) || Js.isBlank originalText then ret results
  else
    let context := getContext (currentPage st) node in
    let screen := getScreenName (currentPage st) node in
    let slug := slugify originalText in
    let key := screen +:+ "." +:+ context +:+ "." +:+ slug in
    (if negb (Js.truthy (getPluginData st (id node) "originalText"))
     then modify (setPluginData (id node) "originalText" originalText)
     else ret tt) ;;;
    modify (setPluginData (id node) "nodeKey" key) ;;;
    st' <- get ;;
    ret (results ++
           [mkScanResult (id node) originalText key context
              (storedTranslations st' (id node)) (manualFlags st' (id node))]).

Fixpoint scanLoop (textNodes : list SceneNode) (results : list ScanResult)
  : M (list ScanResult) :=
  match textNodes with
  | [] => ret results
  | node :: rest => results' <- scanNode node results ;; scanLoop rest results'
  end.

Definition scanTargets (st : Figma) : list SceneNode :=
  match selection st with
  | [] => flat_map traverse (pageChildren (currentPage st))
  | sel =>
      flat_map
        (fun i =>
           match findOnPage (currentPage st) i with
           | Some node => traverse node
           | None => []
           end)
        sel
  end.

Definition scanSelection : M unit :=
  st <- get ;;
  let textNodes := scanTargets st in
  preloadFonts textNodes ;;;
  results <- scanLoop textNodes [] ;;
  postMessage (ScanResults results).

(* ===================================================================== *)
(** ** [handleApplyTranslation] *)
(* ===================================================================== *)

(** [node.clone()] copies the characters and the plugin data of every node
    of the subtree to its copy. *)
Definition copyNodeData (st : Figma) (oldNew : NodeId * NodeId) : Figma :=
  let '(old, new) := oldNew in
  let st1 :=
    withChars
      (match chars st !! old with
       | Some c => <[new := c]> (chars st)
       | None => delete new (chars st)
       end) st in
  withPdata
    (match pdata st1 !! old with
     | Some d => <[new := d]> (pdata st1)
     | None => delete new (pdata st1)
     end) st1.

Definition clone (node : SceneNode) : M SceneNode :=
  fun st =>
    let '(copy, next') := relabel node (nextId st) in
    let oldNew := combine (map id (nodes node)) (map id (nodes copy)) in
    (Returned copy, fold_left copyNodeData oldNew (withNextId next' st)).

(** The inner [for (const t of translations)] with its [break]. *)
Fixpoint matchLoop (textNode : SceneNode) (nodeKey language : string)
  (translations : list Translation) : M unit :=
  match translations with
  | [] => ret tt
  | t :: rest =>
      originalNode <- getNodeByIdAsync (t_id t) ;;
      st <- get ;;
      match originalNode with
      | Some o =>
          if String.eqb (getPluginData st (baseId o) "nodeKey") nodeKey then
            loadFontAsync (fontName textNode) ;;;
            modify (setCharacters (id textNode) (translatedText t)) ;;;
            modify (setPluginData (id textNode) ("translation-" +:+ language) (translatedText t))
          else matchLoop textNode nodeKey language rest
      | None => matchLoop textNode nodeKey language rest
      end
  end.

(** The body of [for (const textNode of cloneTextNodes)]. *)
Definition translateLeaf (translations : list Translation) (language : string)
  (textNode : SceneNode) : M unit :=
  st <- get ;;
  let nodeKey := getPluginData st (id textNode) "nodeKey" in
  if negb (Js.truthy nodeKey) then ret tt
  else matchLoop textNode nodeKey language translations.

Definition cloneTextNodes (copy : SceneNode) : list SceneNode :=
  if hasChildren (type copy)
  then filter (fun n => isText (type n) = true) (descendants copy)
  else if isText (type copy) then [copy] else [].

Definition copyName (nm language : string) : string :=
  nm +:+ " (" +:+ Js.toUpperCase language +:+ ")".

(** The body of [for (const nodeToClone of selection)]; returns the copy.
    Positions ([x], [y]) are not part of the model. *)
Definition cloneAndTranslate (translations : list Translation) (language : string)
  (nodeToClone : SceneNode) : M SceneNode :=
  copy0 <- clone nodeToClone ;;
  let copy := rename (copyName (name nodeToClone) language) copy0 in
  modify (fun st => withPage (appendToParentOnPage (id nodeToClone) copy (currentPage st)) st) ;;;
  forEach (translateLeaf translations language) (cloneTextNodes copy) ;;;
  ret copy.

Fixpoint cloneLoop (translations : list Translation) (language : string)
  (sel : list NodeId) (clones : list NodeId) : M (list NodeId) :=
  match sel with
  | [] => ret clones
  | i :: rest =>
      st <- get ;;
      match findOnPage (currentPage st) i with
      | Some nodeToClone =>
          copy <- cloneAndTranslate translations language nodeToClone ;;
          cloneLoop translations language rest (clones ++ [id copy])
      | None => cloneLoop translations language rest clones
      end
  end.

Definition handleApplyTranslation (translations : list Translation) (language : string)
  : M unit :=
  st <- get ;;
  match selection st with
  | [] => notify "Please select elements to duplicate." true
  | sel =>
      notify ("Creating " +:+ Js.toUpperCase language +:+ " copy...") false ;;;
      tryCatch
        (clones <- cloneLoop translations language sel [] ;;
         modify (withSelection clones) ;;;
         notify (Js.toUpperCase language +:+ " copies generated!") false ;;;
         postMessage ApplyComplete)
        (fun message =>
           notify ("Error: " +:+ message) true ;;;
           postMessage (ApplyError message))
  end.

(* ===================================================================== *)
(** ** The metadata handlers *)
(* ===================================================================== *)

Definition handleStoreTranslations (data : list (string * list (NodeId * string)))
  : M unit :=
  forEach
    (fun langEntries =>
       forEach
         (fun idText =>
            node <- getNodeByIdAsync (fst idText) ;;
            match node with
            | Some n =>
                modify (setPluginData (baseId n) ("translation-" +:+ fst langEntries)
                          (snd idText))
            | None => ret tt
            end)
         (snd langEntries))
    data.

Definition previewItem (item : Translation) : M unit :=
  node <- getNodeByIdAsync (t_id item) ;;
  match node with
  | Some (IsScene n) =>
      if isText (type n) then
        st <- get ;;
        (if negb (Js.truthy (getPluginData st (id n) "originalText"))
         then modify (setPluginData (id n) "originalText" (characters st (id n)))
         else ret tt) ;;;
        loadFontAsync (fontName n) ;;;
        modify (setCharacters (id n) (translatedText item))
      else ret tt
  | _ => ret tt
  end.

Definition handlePreviewTranslation (translations : list Translation) (language : string)
  : M unit :=
  notify ("Previewing " +:+ Js.toUpperCase language +:+ "...") false ;;;
  forEach previewItem translations.

Fixpoint findRevertible (st : Figma) (node : SceneNode) : list SceneNode :=
  match node with
  | mk i ty _ _ _ cs =>
      if isText ty && Js.truthy (getPluginData st i "originalText") then [node]
      else if hasChildren ty then flat_map (findRevertible st) cs
      else []
  end.

Definition revertNode (node : SceneNode) : M unit :=
  st <- get ;;
  let original := getPluginData st (id node) "originalText" in
  if Js.truthy original then
    loadFontAsync (fontName node) ;;;
    modify (setCharacters (id node) original)
  else ret tt.

Definition handleRevertPreview : M unit :=
  notify "Reverting design..." false ;;;
  st <- get ;;
  let nodesToRevert := flat_map (findRevertible st) (pageChildren (currentPage st)) in
  forEach revertNode nodesToRevert ;;;
  notify "Design reverted" false.

Definition handleUpdateManualTranslation (i : NodeId) (lang text : string) : M unit :=
  node <- getNodeByIdAsync i ;;
  match node with
  | Some n =>
      modify (setPluginData (baseId n) ("translation-" +:+ lang) text) ;;;
      modify (setPluginData (baseId n) ("isManual-" +:+ lang) "true")
  | None => ret tt
  end.

Definition clearLanguage (i : NodeId) (lang : string) : M unit :=
  modify (setPluginData i ("translation-" +:+ lang) "") ;;;
  modify (setPluginData i ("isManual-" +:+ lang) "").

Fixpoint clearNode (node : SceneNode) : M unit :=
  match node with
  | mk i ty _ _ _ cs =>
      modify (setPluginData i "originalText" "") ;;;
      modify (setPluginData i "nodeKey" "") ;;;
      forEach (clearLanguage i) languages ;;;
      if hasChildren ty then forEach clearNode cs else ret tt
  end.

Definition handleClearStorage : M unit :=
  notify "Cleaning up all design metadata..." false ;;;
  st <- get ;;
  forEach clearNode (pageChildren (currentPage st)) ;;;
  notify "All plugin data cleared from design!" false.

(* ===================================================================== *)
(** ** [figma.ui.onmessage] *)
(* ===================================================================== *)

Inductive Message :=
| Scan
| ApplyTranslationMsg (translations : list Translation) (language : string)
| StoreTranslations (data : list (string * list (NodeId * string)))
| PreviewTranslation (translations : list Translation) (language : string)
| RevertPreview
| UpdateManualTranslation (i : NodeId) (lang text : string)
| ClearStorage
| Close.

(** One message handled to completion.  [figma.closePlugin()] ends the
    session and changes nothing in the document. *)
Definition onmessage (msg : Message) : M unit :=
  match msg with
  | Scan => notify "Scanning design for text..." false ;;; scanSelection
  | ApplyTranslationMsg translations language => handleApplyTranslation translations language
  | StoreTranslations data => handleStoreTranslations data
  | PreviewTranslation translations language => handlePreviewTranslation translations language
  | RevertPreview => handleRevertPreview
  | UpdateManualTranslation i lang text => handleUpdateManualTranslation i lang text
  | ClearStorage => handleClearStorage
  | Close => ret tt
  end.

(** The state after a message; an exception that escapes a handler is an
    unhandled rejection and leaves the state where the handler stopped. *)
Definition step (st : Figma) (msg : Message) : Figma := snd (onmessage msg st).

Definition run (msgs : list Message) (st : Figma) : Figma := fold_left step msgs st.

(* ===================================================================== *)
(** ** Vocabulary of the specification *)
(* ===================================================================== *)

(** The persisted fields of an element. *)
Definition originalTextOf (st : Figma) (i : NodeId) : string :=
  getPluginData st i "originalText".
Definition nodeKeyOf (st : Figma) (i : NodeId) : string :=
  getPluginData st i "nodeKey".
Definition translationOf (st : Figma) (i : NodeId) (lang : string) : string :=
  getPluginData st i ("translation-" +:+ lang).
Definition manualOverrideOf (st : Figma) (i : NodeId) (lang : string) : string :=
  getPluginData st i ("isManual-" +:+ lang).

(** A computation never leaves the relation [R]: whatever state it starts
    in, the state it stops in (returning or throwing) is [R]-related. *)
Definition respects {A} (R : Figma -> Figma -> Prop) (m : M A) : Prop :=
  forall st, R st (snd (m st)).

(** The panel messages a handler posts when started in [st]. *)
Definition newEvents (before after : Figma) : list Event :=
  drop (length (outbox before)) (outbox after).

Definition posts (evs : list Event) : list UiMessage :=
  flat_map (fun e => match e with PostMessage m => [m] | Notify _ _ => [] end) evs.

Definition responses (handler : M unit) (st : Figma) : list UiMessage :=
  posts (newEvents st (snd (handler st))).

Definition isApplyResponse (m : UiMessage) : Prop :=
  m = ApplyComplete \/ exists message, m = ApplyError message.

(** Every identifier in use: the pages and all their nodes. *)
Definition allIds (st : Figma) : list NodeId :=
  map pageId (pages st) ++ map id (flat_map pageNodes (pages st)).

(** The host hands out fresh identifiers: the ones in use are below
    [nextId]. *)
Definition freshIds (st : Figma) : Prop :=
  forall i, In i (allIds st) -> i < nextId st.


(** The messages of the automated flows: scan and preview. *)
Definition isScanOrPreview (msg : Message) : Prop :=
  match msg with
  | Scan | PreviewTranslation _ _ => True
  | _ => False
  end.

Definition isClear (msg : Message) : Prop :=
  match msg with ClearStorage => True | _ => False end.

Definition isUpdateManual (msg : Message) : Prop :=
  match msg with UpdateManualTranslation _ _ _ => True | _ => False end.

(** The text leaves a scan of [st] records: collected and not blank. *)
Definition scanned (st : Figma) (i : NodeId) : Prop :=
  exists node, In node (scanTargets st) /\ id node = i
               /\ Js.isBlank (characters st i) = false.

(** The parent links of a chain: every node of the chain holds the previous
    one (at first the node [i] itself) as a child. *)
Fixpoint linked (i : NodeId) (chain : list SceneNode) : Prop :=
  match chain with
  | [] => True
  | parent :: up =>
      hasChildren (type parent) = true
      /\ (exists c, In c (children parent) /\ id c = i)
      /\ linked (id parent) up
  end.

(** *** A small document used in the examples

    One page with the screen frame "Home  Screen" (1), which holds the
    frame "Submit Button" (2) with the text "Submit" (3), the visible text
    (4) and a hidden text (5). *)
Module Demo.

Definition inter : FontName := mkFont "Inter" "Regular".
Definition submit : SceneNode := mk 3 TEXT "label" true (Some inter) [].
Definition welcome : SceneNode := mk 4 TEXT "welcome" true (Some inter) [].
Definition hidden : SceneNode := mk 5 TEXT "hidden" false None [].
Definition button : SceneNode := mk 2 FRAME "Submit Button" true None [submit].
Definition screen : SceneNode := mk 1 FRAME "Home  Screen" true None [button; welcome; hidden].
Definition page : PageNode := mkPage 0 "Page 1" [screen].

Definition texts : gmap nat string :=
  list_to_map [(3, "Submit"); (4, "Welcome back, user!"); (5, "secret")].

(** Nothing selected, nothing stored yet. *)
Definition fresh : Figma := mkFigma page [] [] texts ∅ [inter] 6 [].

(** After a first scan, with the button frame selected. *)
Definition scannedOnce : Figma := withSelection [2] (step fresh Scan).

(** The same session on a machine that has none of the fonts. *)
Definition withoutFonts : Figma :=
  mkFigma (currentPage scannedOnce) (otherPages scannedOnce) (selection scannedOnce)
    (chars scannedOnce) (pdata scannedOnce) [] (nextId scannedOnce) (outbox scannedOnce).

Definition french : list Translation :=
  [mkTranslation 3 "Envoyer"; mkTranslation 4 "Bon retour"; mkTranslation 3 "Soumettre"].

End Demo.

(** The fields [clearNode] resets. *)
Definition clearedKey (key : string) : Prop :=
  key = "originalText" \/ key = "nodeKey"
  \/ exists lang, In lang languages
       /\ (key = "translation-" +:+ lang \/ key = "isManual-" +:+ lang).

(** A step that only ever blanks plugin data. *)
Definition onlyBlanks (st st' : Figma) : Prop :=
  forall j k, getPluginData st j k = "" -> getPluginData st' j k = "".

(** A step that leaves everything but the plugin data alone. *)
Definition sameButPdata (st st' : Figma) : Prop :=
  currentPage st' = currentPage st /\ otherPages st' = otherPages st
  /\ selection st' = selection st /\ chars st' = chars st
  /\ fonts st' = fonts st /\ nextId st' = nextId st /\ outbox st' = outbox st.

(** The boolean test of [matchLoop] for one translation item. *)
Definition itemMatchesb (st : Figma) (key : string) (t : Translation) : bool :=
  match getNodeById st (t_id t) with
  | Some o => String.eqb (getPluginData st (baseId o) "nodeKey") key
  | None => false
  end.

(** A step of a session whose identifiers have reached [b] keeps what is
    stored for the identifiers below [b], the resolution of those
    identifiers, the fonts, the other pages and the outbox. *)
Definition keepsBelow (b : NodeId) (st st' : Figma) : Prop :=
  b <= nextId st ->
  nextId st <= nextId st'
  /\ outbox st' = outbox st /\ fonts st' = fonts st /\ otherPages st' = otherPages st
  /\ pageId (currentPage st') = pageId (currentPage st)
  /\ (forall i, i < b -> chars st' !! i = chars st !! i /\ pdata st' !! i = pdata st !! i)
  /\ (forall i, i < b -> In i (allIds st') <-> In i (allIds st)).

(** What [apply] leaves behind on a text leaf of a copy: the text of the
    first matching translation item, also stored as the translation for the
    language. *)
Definition translated (st0 : Figma) (translations : list Translation) (language : string)
  (st : Figma) (i : NodeId) : Prop :=
  nodeKeyOf st i <> "" ->
  forall t, find (itemMatchesb st0 (nodeKeyOf st i)) translations = Some t ->
    characters st i = translatedText t /\ translationOf st i language = translatedText t.

(** A step keeps every stored, non-empty [originalText]. *)
Definition keepsOriginal (st st' : Figma) : Prop :=
  forall i, originalTextOf st i <> "" -> originalTextOf st' i = originalTextOf st i.

(** A step changes no visible text, and an [originalText] only by
    capturing the visible text where none was stored. *)
Definition capturesOnly (st st' : Figma) : Prop :=
  chars st' = chars st
  /\ forall i, originalTextOf st' i = originalTextOf st i
               \/ (originalTextOf st i = "" /\ originalTextOf st' i = characters st i).

(** A step touches at most the visible texts and the outbox. *)
Definition sameButText (st st' : Figma) : Prop :=
  currentPage st' = currentPage st /\ otherPages st' = otherPages st
  /\ selection st' = selection st /\ pdata st' = pdata st
  /\ fonts st' = fonts st /\ nextId st' = nextId st.

(** The text store the loop of [handleRevertPreview] leaves when it runs
    over [nodesToRevert] in a session with the plugin data and fonts of
    [st], together with whether it ran to the end. *)
Fixpoint revertChars (st : Figma) (nodesToRevert : list SceneNode)
  (c : gmap nat string) : bool * gmap nat string :=
  match nodesToRevert with
  | [] => (true, c)
  | node :: rest =>
      let original := getPluginData st (id node) "originalText" in
      if Js.truthy original then
        if canLoad st (fontName node)
        then revertChars st rest (<[id node := original]> c)
        else (false, c)
      else revertChars st rest c
  end.

(** The text leaves [handleRevertPreview] restores. *)
Definition revertible (st : Figma) : list SceneNode :=
  flat_map (findRevertible st) (pageChildren (currentPage st)).

(** A step keeps the manual-override flags of every identifier in use. *)
Definition keepsManual (st st' : Figma) : Prop :=
  nextId st <= nextId st'
  /\ forall i lang, i < nextId st ->
       manualOverrideOf st' i lang = manualOverrideOf st i lang.

(** A step keeps every manual-override flag that is set. *)
Definition keepsManualSet (st st' : Figma) : Prop :=
  nextId st <= nextId st'
  /\ forall i lang, i < nextId st ->
       manualOverrideOf st i lang = "true" -> manualOverrideOf st' i lang = "true".

(** A step changes what is stored for the identifier [i] only, and nothing
    of the tree. *)
Definition onlyAt (i : NodeId) (st st' : Figma) : Prop :=
  currentPage st' = currentPage st /\ otherPages st' = otherPages st
  /\ nextId st' = nextId st
  /\ forall j, j <> i -> chars st' !! j = chars st !! j /\ pdata st' !! j = pdata st !! j.



(** What a copy keeps of a node. *)
Definition kind (n : SceneNode) : NodeType * option FontName := (type n, fontName n).

(* ===================================================================== *)
(** ** More vocabulary: scans, previews and the tree *)
(* ===================================================================== *)

(** The test of [scanSelection] for a text node it records:
    [!(!originalText || !originalText.trim())]. *)
Definition recordedNode (st : Figma) (node : SceneNode) : bool :=
  negb (negb (Js.truthy (characters st (id node))) || Js.isBlank (characters st (id node))).

(** The text nodes a scan records, in the order it visits them. *)
Definition recorded (st : Figma) : list SceneNode :=
  List.filter (recordedNode st) (scanTargets st).

(** The semantic key a scan computes for a node in [st]. *)
Definition keyFor (st : Figma) (node : SceneNode) : string :=
  getScreenName (currentPage st) node +:+ "." +:+ getContext (currentPage st) node
    +:+ "." +:+ slugify (characters st (id node)).

(** The record a scan of [st] posts for a node. *)
Definition scanRecord (st : Figma) (node : SceneNode) : ScanResult :=
  mkScanResult (id node) (characters st (id node)) (keyFor st node)
    (getContext (currentPage st) node)
    (storedTranslations st (id node)) (manualFlags st (id node)).

(** The plugin data one iteration of the scan loop writes. *)
Definition scanWrite (node : SceneNode) (st : Figma) : Figma :=
  if recordedNode st node then
    setPluginData (id node) "nodeKey" (keyFor st node)
      (if Js.truthy (originalTextOf st (id node)) then st
       else setPluginData (id node) "originalText" (characters st (id node)) st)
  else st.

(** The results of the [scan-results] messages among some events. *)
Definition scanResultsOf (evs : list Event) : list (list ScanResult) :=
  flat_map (fun e => match e with
                     | PostMessage (ScanResults data) => [data]
                     | _ => []
                     end) evs.

(** A step leaves the tree, the selection, the identifier supply and the
    fonts alone. *)
Definition keepsTree (st st' : Figma) : Prop :=
  currentPage st' = currentPage st /\ otherPages st' = otherPages st
  /\ selection st' = selection st /\ nextId st' = nextId st /\ fonts st' = fonts st.

(** The characters a slug is made of: lower-case ASCII letters, digits and
    the dot. *)
Definition slugChar (c : ascii) : bool :=
  Js.between 97 122 c || Js.between 48 57 c || Js.isDot c.

(** The labels [getContext] can return. *)
Definition contextLabels : list string :=
  ["button"; "heading"; "label"; "input"; "helper"; "text"].

(** One [setPluginData] call: node identifier, key and value. *)
Definition applyWrite (st : Figma) (w : NodeId * string * string) : Figma :=
  setPluginData (fst (fst w)) (snd (fst w)) (snd w) st.

(** The calls [handleStoreTranslations] makes, in order: one for every
    entry whose identifier resolves. *)
Definition storeWrites (st : Figma) (data : list (string * list (NodeId * string)))
  : list (NodeId * string * string) :=
  flat_map
    (fun langEntries =>
       flat_map
         (fun idText =>
            match getNodeById st (fst idText) with
            | Some n => [(baseId n, "translation-" +:+ fst langEntries, snd idText)]
            | None => []
            end)
         (snd langEntries))
    data.

(** The node [handlePreviewTranslation] changes for an item: a text node
    the item's identifier resolves to. *)
Definition previewTarget (st : Figma) (item : Translation) : option SceneNode :=
  match getNodeById st (t_id item) with
  | Some (IsScene n) => if isText (type n) then Some n else None
  | _ => None
  end.

(** [if (!node.getPluginData('originalText'))
       node.setPluginData('originalText', node.characters)] *)
Definition captureOriginal (i : NodeId) (st : Figma) : Figma :=
  if Js.truthy (originalTextOf st i) then st
  else setPluginData i "originalText" (characters st i) st.

(** The text a revert is to bring back for a node: the stored
    [originalText], or the visible text where none is stored. *)
Definition restorable (st : Figma) (i : NodeId) : string :=
  if Js.truthy (originalTextOf st i) then originalTextOf st i else characters st i.

(** A step keeps what a revert is to bring back: where that text is not
    empty, it is stored as [originalText] afterwards, or nothing is stored
    and the visible text is untouched. *)
Definition keepsRestorable (st s : Figma) : Prop :=
  forall i, restorable st i <> "" ->
    originalTextOf s i = restorable st i
    \/ (originalTextOf s i = "" /\ originalTextOf st i = ""
        /\ chars s !! i = chars st !! i).

(** A step leaves the visible text of [i] alone. *)
Definition keepsTextOf (i : NodeId) (st s : Figma) : Prop :=
  chars s !! i = chars st !! i.

Definition isApply (msg : Message) : Prop :=
  match msg with ApplyTranslationMsg _ _ => True | _ => False end.

(** The messages whose handlers assign [node.characters]. *)
Definition touchesText (msg : Message) : bool :=
  match msg with
  | ApplyTranslationMsg _ _ | PreviewTranslation _ _ | RevertPreview => true
  | _ => false
  end.

(** The messages whose handlers call [figma.ui.postMessage]. *)
Definition postsToPanel (msg : Message) : bool :=
  match msg with
  | Scan | ApplyTranslationMsg _ _ => true
  | _ => false
  end.

(** A step leaves the tree and every visible text alone. *)
Definition keepsTreeAndText (st st' : Figma) : Prop :=
  keepsTree st st' /\ chars st' = chars st.

(** A step only adds nodes to the current page, under identifiers the
    host had not handed out before, and leaves the selection alone. *)
Definition grows (st st' : Figma) : Prop :=
  selection st' = selection st
  /\ otherPages st' = otherPages st
  /\ nextId st <= nextId st'
  /\ (forall m0, In m0 (pageNodes (currentPage st)) ->
        exists m, In m (pageNodes (currentPage st'))
                  /\ id m = id m0 /\ type m = type m0 /\ fontName m = fontName m0)
  /\ (forall m, In m (pageNodes (currentPage st')) ->
        (exists m0, In m0 (pageNodes (currentPage st))
                    /\ id m0 = id m /\ type m0 = type m /\ fontName m0 = fontName m)
        \/ nextId st <= id m < nextId st').

(** How a node [m'] of a copy relates, in [st'], to the node [m] it was
    copied from in [st]: same type, a fresh identifier, the key and the
    original text of [m]; and a text leaf shows the first translation
    item matching the key of [m], or the text of [m] when it has no key or
    no item matches. *)
Definition follows (st : Figma) (translations : list Translation) (language : string)
  (st' : Figma) (m m' : SceneNode) : Prop :=
  type m' = type m /\ nextId st <= id m'
  /\ nodeKeyOf st' (id m') = nodeKeyOf st (id m)
  /\ originalTextOf st' (id m') = originalTextOf st (id m)
  /\ (isText (type m) = true ->
      match (if Js.truthy (nodeKeyOf st (id m))
             then find (itemMatchesb st (nodeKeyOf st (id m))) translations
             else None) with
      | Some t =>
          characters st' (id m') = translatedText t
          /\ translationOf st' (id m') language = translatedText t
      | None => characters st' (id m') = characters st (id m)
      end).

(** The characters a semantic key is free of: white space and upper-case
    ASCII letters. *)
Definition keyChar (c : ascii) : bool :=
  negb (Js.isSpace c) && negb (Js.between 65 90 c).

(** *** A document with a text in mixed fonts

    One page with two visible texts: a title (1) that uses several fonts,
    so that its [fontName] is the host's mixed marker, and a body (2) in a
    font the machine has. *)
Module Mixed.

Definition title : SceneNode := mk 1 TEXT "title" true None [].
Definition body : SceneNode := mk 2 TEXT "body" true (Some Demo.inter) [].
Definition page : PageNode := mkPage 0 "Page 1" [title; body].

Definition fresh : Figma :=
  mkFigma page [] [] (list_to_map [(1, "Title"); (2, "Body")]) ∅ [Demo.inter] 3 [].

(** After a scan of the page and a preview of the body. *)
Definition previewed : Figma :=
  run [Scan; PreviewTranslation [mkTranslation 2 "Corps"] "fr"] fresh.

End Mixed.

(** *** A document with two pages

    The current page (0) holds the text (1); another page (10) holds the
    text (11). *)
Module TwoPages.

Definition near : SceneNode := mk 1 TEXT "near" true (Some Demo.inter) [].
Definition far : SceneNode := mk 11 TEXT "far" true (Some Demo.inter) [].
Definition front : PageNode := mkPage 0 "Front" [near].
Definition back : PageNode := mkPage 10 "Back" [far].

Definition fresh : Figma :=
  mkFigma front [back] [] (list_to_map [(1, "Hello"); (11, "Hello")]) ∅ [Demo.inter] 12 [].

(** After translations were stored for the current page itself and for the
    text of each page, and the one of the other page was overridden by
    hand. *)
Definition stored : Figma :=
  run [StoreTranslations [("fr", [(0, "Accueil"); (1, "Bonjour"); (11, "Bonjour")])];
       UpdateManualTranslation 11 "fr" "Salut"] fresh.

End TwoPages.

(* ===================================================================== *)
(** ** The stores *)
(* ===================================================================== *)

Section Stores.

Lemma getPluginData_set_eq i k v st :
  getPluginData (setPluginData i k v st) i k = v.
Proof.
  unfold getPluginData, setPluginData. simpl.
  by rewrite lookup_insert_eq; simpl; rewrite lookup_insert_eq.
Qed.

Lemma getPluginData_set_ne i k v st j k' :
  i <> j \/ k <> k' ->
  getPluginData (setPluginData i k v st) j k' = getPluginData st j k'.
Proof.
  unfold getPluginData, setPluginData. simpl. intros H.
  destruct (decide (i = j)) as [->|Hij].
  - rewrite lookup_insert_eq. simpl.
    destruct H as [H|H]; [done|]. by rewrite lookup_insert_ne.
  - by rewrite lookup_insert_ne.
Qed.

Lemma getPluginData_set i k v st j k' :
  getPluginData (setPluginData i k v st) j k' =
  if decide (i = j /\ k = k') then v else getPluginData st j k'.
Proof.
  case_decide as H.
  - destruct H as [-> ->]. apply getPluginData_set_eq.
  - apply getPluginData_set_ne.
    destruct (decide (i = j)); destruct (decide (k = k')); tauto.
Qed.

Lemma characters_set i t st j :
  characters (setCharacters i t st) j = if decide (i = j) then t else characters st j.
Proof.
  unfold characters, setCharacters. simpl. case_decide as H.
  - subst. by rewrite lookup_insert_eq.
  - by rewrite lookup_insert_ne.
Qed.

Lemma truthy_spec s : Js.truthy s = true <-> s <> EmptyString.
Proof. destruct s; simpl; split; congruence. Qed.

Lemma truthy_false s : Js.truthy s = false <-> s = EmptyString.
Proof. destruct s; simpl; split; congruence. Qed.

End Stores.

(* ===================================================================== *)
(** ** Reasoning about handlers *)
(* ===================================================================== *)

Section Respects.

Variable R : Figma -> Figma -> Prop.
Hypothesis R_refl : forall st, R st st.
Hypothesis R_trans : forall a b c, R a b -> R b c -> R a c.

Lemma respects_ret {A} (a : A) : respects R (ret a).
Proof using R_refl. intros st. apply R_refl. Qed.

Lemma respects_throw {A} e : respects R (@throw A e).
Proof using R_refl. intros st. apply R_refl. Qed.

Lemma respects_get : respects R get.
Proof using R_refl. intros st. apply R_refl. Qed.

Lemma respects_modify f : (forall st, R st (f st)) -> respects R (modify f).
Proof. intros H st. apply H. Qed.

Lemma respects_loadFont f : respects R (loadFontAsync f).
Proof using R_refl.
  intros st. unfold loadFontAsync. destruct (canLoad st f); apply R_refl.
Qed.

Lemma bind_at {A B} (m : M A) (k : A -> M B) st :
  R st (snd (m st)) -> (forall a, respects R (k a)) -> R st (snd (bind m k st)).
Proof using R_trans.
  intros Hm Hk. unfold bind. destruct (m st) as [[a|e] st'] eqn:E; simpl in *.
  - eapply R_trans; [exact Hm|]. apply Hk.
  - exact Hm.
Qed.

Lemma respects_bind {A B} (m : M A) (k : A -> M B) :
  respects R m -> (forall a, respects R (k a)) -> respects R (bind m k).
Proof using R_trans. intros Hm Hk st. apply bind_at; auto. Qed.

(** The continuation of [get] runs in the state that was read. *)
Lemma respects_get_bind {A} (k : Figma -> M A) :
  (forall st, R st (snd (k st st))) -> respects R (bind get k).
Proof. intros H st. unfold bind, get. apply H. Qed.

Lemma respects_tryCatch {A} (body : M A) handler :
  respects R body -> (forall e, respects R (handler e)) -> respects R (tryCatch body handler).
Proof using R_trans.
  intros Hb Hh st. unfold tryCatch. specialize (Hb st).
  destruct (body st) as [[a|e] st'] eqn:E; simpl in *; [exact Hb|].
  eapply R_trans; [exact Hb|]. apply Hh.
Qed.

Lemma respects_forEach {A} (body : A -> M unit) xs :
  (forall x, In x xs -> respects R (body x)) -> respects R (forEach body xs).
Proof using R_refl R_trans.
  induction xs as [|x xs IH]; intros H; simpl.
  - apply respects_ret.
  - apply respects_bind.
    + apply H. by left.
    + intros _. apply IH. intros y Hy. apply H. by right.
Qed.

Lemma respects_getNodeById i : respects R (getNodeByIdAsync i).
Proof using R_refl. intros st. apply R_refl. Qed.

Lemma respects_notify msg e :
  (forall ev st, R st (emit ev st)) -> respects R (notify msg e).
Proof. intros H st. apply H. Qed.

Lemma respects_postMessage m :
  (forall ev st, R st (emit ev st)) -> respects R (postMessage m).
Proof. intros H st. apply H. Qed.

End Respects.

(* ===================================================================== *)
(** ** Trees *)
(* ===================================================================== *)

Section Trees.

(** Induction over a scene node with the induction hypothesis for every
    child. *)
Lemma SceneNode_forall_ind (P : SceneNode -> Prop) :
  (forall i ty nm v f cs, Forall P cs -> P (mk i ty nm v f cs)) ->
  forall n, P n.
Proof.
  intros Hstep. fix IH 1. intros [i ty nm v f cs]. apply Hstep.
  induction cs as [|c cs IHcs]; constructor; [apply IH | exact IHcs].
Qed.

Lemma nodes_self n : In n (nodes n).
Proof. destruct n. simpl. by left. Qed.

Lemma in_pageNodes_child p c n :
  In c (pageChildren p) -> In n (nodes c) -> In n (pageNodes p).
Proof. intros Hc Hn. unfold pageNodes. apply in_flat_map. eauto. Qed.

End Trees.

Section Loops.

Lemma forEach_returns {A} (body : A -> M unit) xs st :
  (forall x s, In x xs -> fst (body x s) = Returned tt) ->
  fst (forEach body xs st) = Returned tt.
Proof.
  revert st. induction xs as [|x xs IH]; intros st H; simpl; [done|].
  unfold bind. specialize (H x st (or_introl eq_refl)) as Hx.
  destruct (body x st) as [[[]|e] st']; simpl in Hx; [|done].
  apply IH. intros y s Hy. apply H. by right.
Qed.

(** A loop whose body always returns establishes, for every element, what
    the body establishes for it, provided the other iterations keep it. *)
Lemma forEach_establish {A} (Q : A -> Figma -> Prop) (body : A -> M unit) xs :
  (forall x s, In x xs -> fst (body x s) = Returned tt) ->
  (forall x s, In x xs -> Q x (snd (body x s))) ->
  (forall x y s, In x xs -> In y xs -> Q x s -> Q x (snd (body y s))) ->
  forall st x, In x xs -> Q x (snd (forEach body xs st)).
Proof.
  intros Hret Hest Hkeep.
  assert (Hpres : forall ys, (forall y, In y ys -> In y xs) ->
            forall x s, In x xs -> Q x s -> Q x (snd (forEach body ys s))).
  { induction ys as [|y ys IH]; intros Hsub x s Hx HQ; simpl; [done|].
    unfold bind.
    pose proof (Hret y s (Hsub y (or_introl eq_refl))) as Hy.
    pose proof (Hkeep x y s Hx (Hsub y (or_introl eq_refl)) HQ) as Hk.
    destruct (body y s) as [[[]|e] s']; simpl in *; [|done].
    apply IH; auto; intros z Hz; apply Hsub; by right. }
  assert (Hgo : forall ys, (forall y, In y ys -> In y xs) ->
            forall st x, In x ys -> Q x (snd (forEach body ys st))).
  { induction ys as [|y ys IH]; intros Hsub st x Hx; [destruct Hx|].
    simpl. unfold bind.
    pose proof (Hret y st (Hsub y (or_introl eq_refl))) as Hy.
    pose proof (Hest y st (Hsub y (or_introl eq_refl))) as He.
    destruct (body y st) as [[[]|e] s'] eqn:E; simpl in *; [|done].
    destruct Hx as [->|Hx].
    - apply Hpres; auto; intros z Hz; apply Hsub; by right.
    - apply IH; auto; intros z Hz; apply Hsub; by right. }
  intros st x Hx. apply Hgo; auto.
Qed.

End Loops.

(* ===================================================================== *)
(** ** [handleClearStorage] *)
(* ===================================================================== *)

Section Clear.

Lemma onlyBlanks_refl st : onlyBlanks st st.
Proof. by intros j k. Qed.

Lemma onlyBlanks_trans a b c : onlyBlanks a b -> onlyBlanks b c -> onlyBlanks a c.
Proof. intros H1 H2 j k H. apply H2, H1, H. Qed.

Lemma onlyBlanks_set i k st : onlyBlanks st (setPluginData i k "" st).
Proof. intros j k' H. rewrite getPluginData_set. by case_decide. Qed.

Lemma sameButPdata_refl st : sameButPdata st st.
Proof. by repeat split. Qed.

Lemma sameButPdata_trans a b c : sameButPdata a b -> sameButPdata b c -> sameButPdata a c.
Proof.
  intros (?&?&?&?&?&?&?) (?&?&?&?&?&?&?). repeat split; congruence.
Qed.

Lemma sameButPdata_set i k v st : sameButPdata st (setPluginData i k v st).
Proof. by repeat split. Qed.

Lemma clearLanguage_returns i lang st : fst (clearLanguage i lang st) = Returned tt.
Proof. reflexivity. Qed.

Lemma clearNode_returns n st : fst (clearNode n st) = Returned tt.
Proof.
  revert st. induction n as [i ty nm v f cs IH] using SceneNode_forall_ind.
  intros st. cbn. destruct (hasChildren ty); [|reflexivity].
  apply forEach_returns. intros c s Hc.
  rewrite Forall_forall in IH. apply IH. by apply list_elem_of_In.
Qed.

(** [clearNode] stays within any preorder that contains the blanking of a
    field. *)
Lemma clearNode_respects (R : Figma -> Figma -> Prop) :
  (forall st, R st st) ->
  (forall a b c, R a b -> R b c -> R a c) ->
  (forall i k st, R st (setPluginData i k "" st)) ->
  forall n, respects R (clearNode n).
Proof.
  intros Hr Ht Hset.
  induction n as [i ty nm v f cs IH] using SceneNode_forall_ind. cbn [clearNode].
  apply respects_bind; [done|by apply respects_modify|intros _].
  apply respects_bind; [done|by apply respects_modify|intros _].
  apply respects_bind; [done| |intros _].
  - apply respects_forEach; [done..|]. intros lang _. unfold clearLanguage.
    apply respects_bind; [done|by apply respects_modify|intros _].
    by apply respects_modify.
  - destruct (hasChildren ty); [|by apply respects_ret].
    apply respects_forEach; [done..|]. intros c Hc.
    rewrite Forall_forall in IH. apply IH. by apply list_elem_of_In.
Qed.

Lemma clearNode_onlyBlanks n : respects onlyBlanks (clearNode n).
Proof.
  apply clearNode_respects;
    [apply onlyBlanks_refl | apply onlyBlanks_trans | intros; apply onlyBlanks_set].
Qed.

Lemma clearNode_sameButPdata n : respects sameButPdata (clearNode n).
Proof.
  apply clearNode_respects;
    [apply sameButPdata_refl | apply sameButPdata_trans | intros; apply sameButPdata_set].
Qed.

(** The writes of [clearNode] to the node itself. *)
Lemma clearNode_own i ty nm v f cs st k :
  clearedKey k ->
  getPluginData (snd (clearNode (mk i ty nm v f cs) st)) i k = "".
Proof.
  intros Hk. cbn.
  match goal with
  | |- getPluginData (snd (?rest ?s)) _ _ = _ =>
      assert (Hown : getPluginData s i k = "")
  end.
  { destruct Hk as [->|[->|(lang & Hl & Hk)]].
    - rewrite !getPluginData_set. repeat case_decide; naive_solver.
    - rewrite !getPluginData_set. repeat case_decide; naive_solver.
    - simpl in Hl.
      destruct Hl as [<-|[<-|[<-|[<-|[]]]]]; destruct Hk as [->| ->];
        rewrite !getPluginData_set; repeat case_decide; naive_solver. }
  destruct (hasChildren ty); [|exact Hown].
  apply (respects_forEach onlyBlanks onlyBlanks_refl onlyBlanks_trans clearNode cs
           (fun c _ => clearNode_onlyBlanks c)).
  exact Hown.
Qed.

Lemma clearNode_clears n st m k :
  In m (nodes n) -> clearedKey k ->
  getPluginData (snd (clearNode n st)) (id m) k = "".
Proof.
  revert st m. induction n as [i ty nm v f cs IH] using SceneNode_forall_ind.
  intros st m Hm Hk. simpl in Hm. destruct Hm as [<-|Hm].
  { apply clearNode_own, Hk. }
  destruct (hasChildren ty) eqn:Hty; [|destruct Hm].
  apply in_flat_map in Hm as (c & Hc & Hm).
  cbn. rewrite Hty.
  match goal with |- getPluginData (snd (forEach _ _ ?s)) _ _ = _ => generalize s end.
  intros s.
  apply (forEach_establish
           (fun c s => forall m, In m (nodes c) -> getPluginData s (id m) k = "")
           clearNode cs) with (x := c); auto.
  - intros x s' _. apply clearNode_returns.
  - intros x s' Hx m' Hm'. rewrite Forall_forall in IH.
    apply IH; auto. by apply list_elem_of_In.
  - intros x y s' _ _ HQ m' Hm'. apply clearNode_onlyBlanks. by apply HQ.
Qed.

(** [clearNode] writes plugin data of the nodes of its subtree only. *)
Lemma clearNode_elsewhere j n :
  (forall m, In m (nodes n) -> id m <> j) ->
  respects (fun a b => pdata b !! j = pdata a !! j) (clearNode n).
Proof.
  assert (Hr : forall st : Figma, pdata st !! j = pdata st !! j) by done.
  assert (Ht : forall a b c : Figma,
             pdata b !! j = pdata a !! j -> pdata c !! j = pdata b !! j ->
             pdata c !! j = pdata a !! j) by (intros; congruence).
  induction n as [i ty nm v f cs IH] using SceneNode_forall_ind. intros Hn.
  assert (Hi : i <> j) by (apply (Hn (mk i ty nm v f cs)), nodes_self).
  assert (Hset : forall k st, pdata (setPluginData i k "" st) !! j = pdata st !! j).
  { intros k st. unfold setPluginData. cbn [pdata withPdata]. by rewrite lookup_insert_ne. }
  cbn [clearNode].
  apply (respects_bind (fun a b => pdata b !! j = pdata a !! j));
    [done|by apply respects_modify|intros _].
  apply (respects_bind (fun a b => pdata b !! j = pdata a !! j));
    [done|by apply respects_modify|intros _].
  apply (respects_bind (fun a b => pdata b !! j = pdata a !! j)); [done| |intros _].
  - apply (respects_forEach (fun a b => pdata b !! j = pdata a !! j)); [done..|].
    intros lang _. unfold clearLanguage.
    apply (respects_bind (fun a b => pdata b !! j = pdata a !! j));
      [done|by apply respects_modify|intros _].
    by apply respects_modify.
  - destruct (hasChildren ty) eqn:Hc; [|by apply respects_ret].
    apply (respects_forEach (fun a b => pdata b !! j = pdata a !! j)); [done..|].
    intros c Hin. rewrite Forall_forall in IH. apply IH; [by apply list_elem_of_In|].
    intros m Hm. apply Hn. cbn [nodes]. rewrite Hc. right. apply in_flat_map. eauto.
Qed.

End Clear.

(* ===================================================================== *)
(** ** Slugifier *)
(* ===================================================================== *)

Section Slugifier.

Lemma allChars_dropWhile cls s :
  Js.allChars (fun c => negb (cls c)) s = true -> Js.dropWhile cls s = s.
Proof.
  destruct s as [|c r]; simpl; [done|].
  intros H. apply andb_true_iff in H as [Hc _].
  by destruct (cls c).
Qed.

Lemma allChars_dropWhileEnd cls s :
  Js.allChars (fun c => negb (cls c)) s = true -> Js.dropWhileEnd cls s = s.
Proof.
  induction s as [|c r IH]; simpl; [done|].
  intros H. apply andb_true_iff in H as [Hc Hr].
  destruct (cls c); [done|]. simpl. by rewrite IH.
Qed.

(** Once the separator runs are dots, no hyphen is left in the string. *)
Lemma replaceRuns_no_hyphen b s :
  Js.allChars (fun c => negb (Js.isHyphen c))
    (Js.replaceRunsFrom separatesSlug "."%char b s) = true.
Proof.
  revert b. induction s as [|c r IH]; intros b; simpl; [done|].
  destruct (separatesSlug c) eqn:Hsep.
  - destruct b; simpl; by rewrite ?IH.
  - simpl. rewrite IH, andb_true_r.
    unfold separatesSlug in Hsep.
    apply orb_false_iff in Hsep as [_ Hh]. by rewrite Hh.
Qed.

Example slugify_spec_example :
  slugify "Hello, World! This is a test" = "hello.world.this".
Proof. vm_compute. reflexivity. Qed.

Example slugify_empty : slugify "" = "".
Proof. vm_compute. reflexivity. Qed.

(** C5 (the code departs from the claim).  The trimming step of [slugify]
    removes hyphens, and it runs after every hyphen has become a dot: it
    never removes anything.  A text that starts or ends with a separator
    therefore keeps a leading or trailing dot, and with it an empty
    segment: [" Hello"] gives [".hello"] and ["Save - now "] gives
    ["save.now."], while the example of the specification,
    ["Hello, World! This is a test"], does give ["hello.world.this"]. *)
Theorem slugify_keeps_edge_dots :
  (forall text,
      slugify text =
      Js.join "." (Js.slice0 3 (Js.split Js.isDot
        (Js.replaceRuns separatesSlug "."%char
           (Js.removeAll (fun c => negb (keepsInSlug c)) (Js.toLowerCase text))))))
  /\ slugify " Hello" = ".hello"
  /\ slugify "Save - now " = "save.now."
  /\ Js.split Js.isDot (slugify " Hello") = [""; "hello"]
  /\ slugify "Hello, World! This is a test" = "hello.world.this".
Proof.
  split; [|by vm_compute].
  intros text. unfold slugify, Js.stripEnds, Js.replaceRuns.
  rewrite allChars_dropWhile by apply replaceRuns_no_hyphen.
  rewrite allChars_dropWhileEnd by apply replaceRuns_no_hyphen.
  done.
Qed.

End Slugifier.

(* ===================================================================== *)
(** ** Screen classifier *)
(* ===================================================================== *)

Section Screen.

Lemma lastFrameLoop_app d xs ys :
  lastFrameLoop d (xs ++ ys) = lastFrameLoop (lastFrameLoop d xs) ys.
Proof. revert d. induction xs as [|x xs IH]; intros d; simpl; [done|]. apply IH. Qed.

Lemma lastFrameLoop_none d xs :
  (forall x, In x xs -> isBoundary (type x) = false) -> lastFrameLoop d xs = d.
Proof.
  revert d. induction xs as [|x xs IH]; intros d H; simpl; [done|].
  rewrite (H x) by (left; done). apply IH. intros y Hy. apply H. by right.
Qed.

Lemma linked_snoc i p n :
  linked i p ->
  hasChildren (type n) = true ->
  (exists c, In c (children n) /\ id c = match last p with Some x => id x | None => i end) ->
  linked i (p ++ [n]).
Proof.
  revert i. induction p as [|x p IH]; intros i Hl Hn Hc; simpl in *.
  - repeat split; auto.
  - destruct Hl as (Hx & Hcx & Hl). repeat split; auto.
    apply IH; auto. destruct Hc as (c & Hc & Hid). exists c. split; [done|].
    rewrite Hid, last_cons. by destruct (last p).
Qed.

(** [pathIn] follows parent links, and the chain it returns ends in the
    node it started from. *)
Lemma pathIn_linked target n p :
  pathIn target n = Some p ->
  linked target p
  /\ match last p with Some x => id x | None => target end = id n.
Proof.
  revert p. induction n as [i ty nm v f cs IH] using SceneNode_forall_ind.
  intros p. cbn [pathIn].
  destruct (i =? target) eqn:Hi.
  { intros [= <-]. apply Nat.eqb_eq in Hi. simpl. done. }
  destruct (hasChildren ty) eqn:Hty; [|done].
  set (n := mk i ty nm v f cs).
  assert (Hgo : forall l, (forall c, In c l -> In c cs) ->
    (fix first (l : list SceneNode) : option (list SceneNode) :=
       match l with
       | [] => None
       | c :: r => match pathIn target c with
                   | Some p => Some (p ++ [n])
                   | None => first r
                   end
       end) l = Some p ->
    linked target p /\ match last p with Some x => id x | None => target end = i).
  { induction l as [|c r IHr]; intros Hsub; [done|].
    destruct (pathIn target c) as [q|] eqn:Hq.
    - intros [= <-]. rewrite Forall_forall in IH.
      destruct (IH c) with (p := q) as [Hl Hlast]; auto.
      { apply list_elem_of_In, Hsub. by left. }
      split.
      + apply linked_snoc; auto. exists c. split; [|done].
        apply Hsub. by left.
      + rewrite last_snoc. done.
    - apply IHr. intros c' Hc'. apply Hsub. by right. }
  apply Hgo. auto.
Qed.

Lemma ancestors_linked page i : linked i (ancestors page i).
Proof.
  unfold ancestors.
  induction (pageChildren page) as [|c r IH]; simpl; [done|].
  destruct (pathIn i c) as [p|] eqn:Hp; [|exact IH].
  simpl. by apply pathIn_linked in Hp as [Hl _].
Qed.

Example nested_screen_name :
  ancestors Demo.page 3 = [Demo.button; Demo.screen]
  /\ getScreenName Demo.page Demo.submit = "home.screen".
Proof. by vm_compute. Qed.

(** C6.  The screen name of a node is taken from the outermost boundary
    container (frame, component or instance) on its chain of parents up to
    the page, whatever boundary containers lie nearer to the node; it is
    that container's name in lower case with every run of whitespace
    replaced by one dot, and it is ["general"] when no boundary container is
    on the chain.  The chain itself follows the parent links. *)
Theorem getScreenName_outermost page node :
  linked (id node) (ancestors page (id node))
  /\ (forall inner b outer,
        ancestors page (id node) = inner ++ b :: outer ->
        isBoundary (type b) = true ->
        (forall x, In x outer -> isBoundary (type x) = false) ->
        getScreenName page node = dotted (name b))
  /\ ((forall x, In x (ancestors page (id node)) -> isBoundary (type x) = false) ->
      getScreenName page node = "general").
Proof.
  split; [apply ancestors_linked|]. split.
  - intros inner b outer Hanc Hb Hout. unfold getScreenName.
    rewrite Hanc, lastFrameLoop_app. simpl. rewrite Hb.
    by rewrite lastFrameLoop_none.
  - intros H. unfold getScreenName. by rewrite lastFrameLoop_none.
Qed.

(** Nested boundary containers: the outer frame names the screen. *)
Lemma getScreenName_outermost_witness :
  getScreenName Demo.page Demo.submit = dotted (name Demo.screen)
  /\ dotted (name Demo.screen) = "home.screen"
  /\ getScreenName Demo.page Demo.screen = "general".
Proof.
  destruct (getScreenName_outermost Demo.page Demo.submit) as (_ & Hout & _).
  destruct (getScreenName_outermost Demo.page Demo.screen) as (_ & _ & Hnone).
  split; [|split].
  - apply (Hout [Demo.button] Demo.screen []).
    + reflexivity.
    + reflexivity.
    + intros x [].
  - reflexivity.
  - apply Hnone. intros x [].
Defined.

End Screen.

(* ===================================================================== *)
(** ** [handleClearStorage]: the claim *)
(* ===================================================================== *)

Section ClearClaim.

(** What [handleClearStorage] does to a node of the current page. *)
Lemma clearStorage_spec st n :
  In n (pageNodes (currentPage st)) ->
  fst (handleClearStorage st) = Returned tt
  /\ (forall k, clearedKey k -> getPluginData (snd (handleClearStorage st)) (id n) k = "")
  /\ chars (snd (handleClearStorage st)) = chars st
  /\ currentPage (snd (handleClearStorage st)) = currentPage st
  /\ selection (snd (handleClearStorage st)) = selection st.
Proof.
  intros Hn. unfold handleClearStorage, bind, notify, modify, get. simpl.
  set (st1 := emit _ st).
  pose proof (forEach_returns clearNode (pageChildren (currentPage st)) st1
                (fun x s _ => clearNode_returns x s)) as Hret.
  assert (Hclr : forall k, clearedKey k ->
            getPluginData (snd (forEach clearNode (pageChildren (currentPage st)) st1)) (id n) k = "").
  { intros k Hk. apply in_flat_map in Hn as (c & Hc & Hn).
    apply (forEach_establish
             (fun c s => forall m, In m (nodes c) -> getPluginData s (id m) k = "")
             clearNode (pageChildren (currentPage st))) with (x := c); auto.
    - intros x s _. apply clearNode_returns.
    - intros x s _ m Hm. by apply clearNode_clears.
    - intros x y s _ _ HQ m Hm. apply clearNode_onlyBlanks. by apply HQ. }
  pose proof (respects_forEach sameButPdata sameButPdata_refl sameButPdata_trans
                clearNode (pageChildren (currentPage st))
                (fun c _ => clearNode_sameButPdata c) st1) as Hsame.
  destruct (forEach clearNode (pageChildren (currentPage st)) st1) as [[[]|e] st2];
    simpl in *; [|done].
  destruct Hsame as (Hpage & _ & Hsel & Hchars & _).
  split; [done|]. split; [exact Hclr|]. by repeat split.
Qed.

(** [handleClearStorage] writes no plugin data outside the current page's
    nodes, and nothing of the other pages. *)
Lemma clearStorage_elsewhere st i :
  (forall n, In n (pageNodes (currentPage st)) -> id n <> i) ->
  pdata (snd (handleClearStorage st)) !! i = pdata st !! i
  /\ otherPages (snd (handleClearStorage st)) = otherPages st.
Proof.
  intros Hi. unfold handleClearStorage, bind, notify, modify, get. simpl.
  set (st1 := emit _ st).
  pose proof (forEach_returns clearNode (pageChildren (currentPage st)) st1
                (fun x s _ => clearNode_returns x s)) as Hret.
  assert (Hkeep : pdata (snd (forEach clearNode (pageChildren (currentPage st)) st1)) !! i
                  = pdata st1 !! i).
  { apply (respects_forEach (fun a b => pdata b !! i = pdata a !! i)); [done|congruence|].
    intros c Hc. apply clearNode_elsewhere. intros m Hm. apply Hi.
    by eapply in_pageNodes_child. }
  pose proof (respects_forEach sameButPdata sameButPdata_refl sameButPdata_trans
                clearNode (pageChildren (currentPage st))
                (fun c _ => clearNode_sameButPdata c) st1) as Hsame.
  destruct (forEach clearNode (pageChildren (currentPage st)) st1) as [[[]|e] st2];
    simpl in *; [|done].
  destruct Hsame as (_ & Hoth & _). by split.
Qed.

(** C4 as stated fails: the clean-up walks the children of the current
    page only.  In a document with two pages, the translation and the
    manual flag of the text on the other page (11) survive it, and so does
    a translation stored on the current page itself (0), the root the walk
    starts below; only the text of the current page (1) is wiped. *)
Lemma clear_spares_other_pages :
  let st := TwoPages.stored in
  let st' := step st ClearStorage in
  getNodeById st 11 = Some (IsScene TwoPages.far)
  /\ getNodeById st 0 = Some (IsPage TwoPages.front)
  /\ translationOf st 1 "fr" = "Bonjour" /\ translationOf st' 1 "fr" = ""
  /\ translationOf st' 11 "fr" = "Salut" /\ manualOverrideOf st' 11 "fr" = "true"
  /\ translationOf st' 0 "fr" = "Accueil"
  /\ ~ (forall i, getNodeById st i <> None -> translationOf st' i "fr" = "").
Proof.
  cbv zeta. do 7 (split; [vm_compute; reflexivity|]).
  intros H. specialize (H 11). vm_compute in H.
  assert (E : "Salut" = "") by (apply H; discriminate). discriminate E.
Qed.

(** C4, amended.  [clearStorage] runs to completion and, whatever is
    selected, for every node below the root of the current page, visible
    or not, the stored [originalText], [nodeKey] and, for each of the
    languages fr, de, hi and es, the stored translation and manual-override
    flag read as the empty string afterwards.  The plugin data of anything
    else (the page itself, the nodes of other pages) is left as it was;
    no visible text changes, nor the tree or the selection. *)
Theorem clearStorage_wipes st :
  let st' := snd (handleClearStorage st) in
  fst (handleClearStorage st) = Returned tt
  /\ (forall n, In n (pageNodes (currentPage st)) ->
        originalTextOf st' (id n) = ""
        /\ nodeKeyOf st' (id n) = ""
        /\ (forall lang, In lang languages ->
              translationOf st' (id n) lang = ""
              /\ manualOverrideOf st' (id n) lang = ""))
  /\ (forall i, (forall n, In n (pageNodes (currentPage st)) -> id n <> i) ->
        pdata st' !! i = pdata st !! i)
  /\ (forall i, characters st' i = characters st i)
  /\ currentPage st' = currentPage st
  /\ otherPages st' = otherPages st
  /\ selection st' = selection st.
Proof.
  intros st'.
  assert (Hrun : fst (handleClearStorage st) = Returned tt /\ chars st' = chars st
                 /\ currentPage st' = currentPage st /\ otherPages st' = otherPages st
                 /\ selection st' = selection st).
  { unfold st', handleClearStorage, bind, notify, modify, get. simpl.
    set (st1 := emit _ st).
    pose proof (forEach_returns clearNode (pageChildren (currentPage st)) st1
                  (fun x s _ => clearNode_returns x s)) as Hret.
    pose proof (respects_forEach sameButPdata sameButPdata_refl sameButPdata_trans
                  clearNode (pageChildren (currentPage st))
                  (fun c _ => clearNode_sameButPdata c) st1) as Hsame.
    destruct (forEach clearNode (pageChildren (currentPage st)) st1) as [[[]|e] st2];
      simpl in *; [|done].
    destruct Hsame as (Hpage & Hoth & Hsel & Hchars & _). by repeat split. }
  destruct Hrun as (Hret & Hchars & Hpage & Hoth & Hsel).
  split; [done|]. split; [|split; [|split; [|by repeat split]]].
  - intros n Hn. destruct (clearStorage_spec st n Hn) as (_ & Hclr & _).
    fold st' in Hclr. split; [|split].
    + apply Hclr. by left.
    + apply Hclr. right. by left.
    + intros lang Hl. split; apply Hclr; right; right; exists lang; auto.
  - intros i Hi. by destruct (clearStorage_elsewhere st i Hi).
  - intros i. unfold characters. by rewrite Hchars.
Qed.

(** The button text of the example document after a manual French
    translation: its fields are set before the clean-up and empty after
    it, and its visible text stays.  In the document with two pages, the
    plugin data of the text on the other page is what it was. *)
Lemma clearStorage_wipes_witness :
  (originalTextOf (step Demo.scannedOnce (UpdateManualTranslation 3 "fr" "Envoyer")) 3
     = "Submit"
   /\ manualOverrideOf (step Demo.scannedOnce (UpdateManualTranslation 3 "fr" "Envoyer")) 3 "fr"
      = "true")
  /\ (originalTextOf
        (snd (handleClearStorage
                (step Demo.scannedOnce (UpdateManualTranslation 3 "fr" "Envoyer")))) 3 = ""
      /\ nodeKeyOf
           (snd (handleClearStorage
                   (step Demo.scannedOnce (UpdateManualTranslation 3 "fr" "Envoyer")))) 3 = ""
      /\ translationOf
           (snd (handleClearStorage
                   (step Demo.scannedOnce (UpdateManualTranslation 3 "fr" "Envoyer")))) 3 "fr"
         = ""
      /\ manualOverrideOf
           (snd (handleClearStorage
                   (step Demo.scannedOnce (UpdateManualTranslation 3 "fr" "Envoyer")))) 3 "fr"
         = "")
  /\ characters
       (snd (handleClearStorage
               (step Demo.scannedOnce (UpdateManualTranslation 3 "fr" "Envoyer")))) 3
     = "Submit"
  /\ pdata (snd (handleClearStorage TwoPages.stored)) !! 11 = pdata TwoPages.stored !! 11.
Proof.
  destruct (clearStorage_wipes
              (step Demo.scannedOnce (UpdateManualTranslation 3 "fr" "Envoyer")))
    as (_ & Hwipe & _ & Hc & _).
  destruct (clearStorage_wipes TwoPages.stored) as (_ & _ & Hkeep & _).
  destruct (Hwipe Demo.submit) as (Ho & Hk & Hl).
  { vm_compute. auto 10. }
  destruct (Hl "fr") as (Ht & Hm).
  { left. reflexivity. }
  split; [split; vm_compute; reflexivity|].
  split; [by repeat split|]. split.
  - rewrite Hc. vm_compute. reflexivity.
  - apply Hkeep. intros n Hn. vm_compute in Hn. destruct Hn as [<-|[]].
    vm_compute. discriminate.
Defined.

End ClearClaim.

(* ===================================================================== *)
(** ** [handleApplyTranslation] *)
(* ===================================================================== *)

Section Apply.

Lemma bind_run {A B} (m : M A) (k : A -> M B) st a st' :
  m st = (Returned a, st') -> bind m k st = k a st'.
Proof. intros H. unfold bind. by rewrite H. Qed.

Lemma bind_thrown {A B} (m : M A) (k : A -> M B) st e st' :
  m st = (Thrown e, st') -> bind m k st = (Thrown e, st').
Proof. intros H. unfold bind. by rewrite H. Qed.

Lemma applyWithoutSelection_run st translations language :
  selection st = [] ->
  handleApplyTranslation translations language st
  = (Returned tt, emit (Notify "Please select elements to duplicate." true) st).
Proof. intros H. unfold handleApplyTranslation, bind, get. simpl. by rewrite H. Qed.

(** C8.  With nothing selected, [apply] shows an error toast and returns at
    once: the only difference between the state before and after is that
    toast.  No copy is created (the page and the identifier supply are the
    same), no visible text and no plugin data changes, and nothing is
    posted to the panel. *)
Theorem apply_empty_selection st translations language :
  selection st = [] ->
  handleApplyTranslation translations language st
  = (Returned tt, emit (Notify "Please select elements to duplicate." true) st)
  /\ let st' := snd (handleApplyTranslation translations language st) in
     currentPage st' = currentPage st /\ otherPages st' = otherPages st
     /\ nextId st' = nextId st /\ chars st' = chars st /\ pdata st' = pdata st
     /\ selection st' = selection st
     /\ newEvents st st' = [Notify "Please select elements to duplicate." true].
Proof.
  intros H.
  pose proof (applyWithoutSelection_run st translations language H) as Hrun.
  split; [exact Hrun|]. rewrite Hrun. simpl. repeat split.
  unfold newEvents. simpl. by rewrite drop_app_length.
Qed.

Lemma apply_empty_selection_witness :
  handleApplyTranslation Demo.french "fr" Demo.fresh
  = (Returned tt, emit (Notify "Please select elements to duplicate." true) Demo.fresh).
Proof. apply (apply_empty_selection Demo.fresh Demo.french "fr"). reflexivity. Defined.

(** *** The relation [keepsBelow] *)

Lemma keepsBelow_refl b st : keepsBelow b st st.
Proof. intros _. repeat split; auto. Qed.

Lemma keepsBelow_trans b s1 s2 s3 :
  keepsBelow b s1 s2 -> keepsBelow b s2 s3 -> keepsBelow b s1 s3.
Proof.
  intros H12 H23 Hb.
  destruct (H12 Hb) as (Hn & Ho & Hf & Hp & Hi & Hd & Ha).
  destruct H23 as (Hn' & Ho' & Hf' & Hp' & Hi' & Hd' & Ha'); [lia|].
  split; [lia|]. repeat split; try congruence.
  - destruct (Hd i) as [E _], (Hd' i) as [E' _]; auto. congruence.
  - destruct (Hd i) as [_ E], (Hd' i) as [_ E']; auto. congruence.
  - intros Hin. apply Ha, Ha'; auto.
  - intros Hin. apply Ha', Ha; auto.
Qed.

End Apply.

(* ===================================================================== *)
(** ** Copies: [clone] and [appendChild] *)
(* ===================================================================== *)

Section Copies.

Lemma relabel_unfold i ty nm v f cs next :
  relabel (mk i ty nm v f cs) next =
  let '(cs', next') := relabelList cs (S next) in (mk next ty nm v f cs', next').
Proof.
  cbn [relabel].
  assert (Hgo : forall l k,
    (fix go (l : list SceneNode) (k : NodeId) : list SceneNode * NodeId :=
       match l with
       | [] => ([], k)
       | c :: r =>
           let '(c', k1) := relabel c k in
           let '(r', k2) := go r k1 in (c' :: r', k2)
       end) l k = relabelList l k).
  { induction l as [|c r IH]; intros k; simpl; [done|].
    destruct (relabel c k) as [c' k1]. by rewrite IH. }
  by rewrite Hgo.
Qed.

(** The identifiers of a copy are the fresh ones handed out for it. *)
Lemma relabel_ids n :
  forall next, 
    next < snd (relabel n next)
    /\ id (fst (relabel n next)) = next
    /\ type (fst (relabel n next)) = type n
    /\ fontName (fst (relabel n next)) = fontName n
    /\ forall m, In m (nodes (fst (relabel n next))) ->
         next <= id m < snd (relabel n next).
Proof.
  induction n as [i ty nm v f cs IH] using SceneNode_forall_ind.
  intros next. rewrite relabel_unfold.
  assert (Hlist : forall k,
            k <= snd (relabelList cs k)
            /\ forall m, In m (flat_map nodes (fst (relabelList cs k))) ->
                 k <= id m < snd (relabelList cs k)).
  { clear next. induction cs as [|c r IHr]; intros k; simpl.
    - split; [lia|]. intros m [].
    - inversion IH as [|? ? Hc Hr]; subst.
      destruct (Hc k) as (Hlt & _ & _ & _ & Hin).
      destruct (relabel c k) as [c' k1]. simpl in *.
      destruct (IHr Hr k1) as (Hle & Hin').
      destruct (relabelList r k1) as [r' k2]. simpl in *.
      split; [lia|]. intros m Hm. apply in_app_or in Hm as [Hm|Hm].
      + specialize (Hin m Hm). lia.
      + specialize (Hin' m Hm). lia. }
  destruct (Hlist (S next)) as (Hle & Hin).
  destruct (relabelList cs (S next)) as [cs' next']. simpl in *.
  do 4 (split; [done || lia|]). intros m [<-|Hm]; simpl; [lia|].
  destruct (hasChildren ty); [|destruct Hm]. specialize (Hin m Hm). lia.
Qed.

Lemma nodes_rename nm n m :
  In m (nodes (rename nm n)) -> m = rename nm n \/ In m (descendants n).
Proof.
  destruct n as [i ty nm' v f cs]. unfold rename, descendants. simpl.
  intros [<-|H]; auto.
Qed.

Lemma descendants_nodes n m : In m (descendants n) -> In m (nodes n).
Proof. destruct n. unfold descendants. simpl. auto. Qed.

(** Appending a copy keeps every identifier that was on the page and adds
    only nodes of the copy. *)
Lemma appendToParentOf_nodes target c n :
  (forall m, In m (nodes (appendToParentOf target c n)) ->
     (exists m0, In m0 (nodes n) /\ id m0 = id m /\ type m0 = type m
                 /\ fontName m0 = fontName m)
     \/ In m (nodes c))
  /\ (forall m0, In m0 (nodes n) ->
        exists m, In m (nodes (appendToParentOf target c n))
                  /\ id m = id m0 /\ type m = type m0 /\ fontName m = fontName m0)
  /\ id (appendToParentOf target c n) = id n
  /\ type (appendToParentOf target c n) = type n.
Proof.
  induction n as [i ty nm v f cs IH] using SceneNode_forall_ind.
  cbn [appendToParentOf]. destruct (hasChildren ty) eqn:Hty.
  2:{ split; [intros m Hm; left; exists m; by auto|].
      split; [intros m0 Hm0; exists m0; by auto|]. by auto. }
  set (n := mk i ty nm v f cs).
  set (n' := mk i ty nm v f _).
  rewrite Forall_forall in IH.
  repeat split; auto.
  - intros m Hm. cbn [nodes n'] in Hm. rewrite Hty in Hm.
    destruct Hm as [<-|Hm].
    { left. exists n. split; [apply nodes_self|done]. }
    rewrite flat_map_app in Hm. apply in_app_or in Hm as [Hm|Hm].
    + rewrite flat_map_concat_map, map_map, <- flat_map_concat_map in Hm.
      apply in_flat_map in Hm as (x & Hx & Hm).
      destruct (IH x) as (HA & _); [by apply list_elem_of_In|].
      destruct (HA m Hm) as [(m0 & Hm0 & E)|Hc]; [|by right].
      left. exists m0. split; [|done].
      cbn [nodes n]. rewrite Hty. right. apply in_flat_map. eauto.
    + destruct (holds target cs); simpl in Hm; [|done].
      rewrite app_nil_r in Hm. by right.
  - intros m0 Hm0. cbn [nodes n] in Hm0. rewrite Hty in Hm0.
    destruct Hm0 as [<-|Hm0].
    { exists n'. split; [apply nodes_self|done]. }
    apply in_flat_map in Hm0 as (x & Hx & Hm0).
    destruct (IH x) as (_ & HB & _); [by apply list_elem_of_In|].
    destruct (HB m0 Hm0) as (m & Hm & E).
    exists m. split; [|done].
    cbn [nodes n']. rewrite Hty. right. rewrite flat_map_app. apply in_or_app. left.
    apply in_flat_map. exists (appendToParentOf target c x). split; [|done].
    by apply in_map.
Qed.

Lemma appendToParentOnPage_nodes target c p :
  (forall m, In m (pageNodes (appendToParentOnPage target c p)) ->
     (exists m0, In m0 (pageNodes p) /\ id m0 = id m /\ type m0 = type m
                 /\ fontName m0 = fontName m)
     \/ In m (nodes c))
  /\ (forall m0, In m0 (pageNodes p) ->
        exists m, In m (pageNodes (appendToParentOnPage target c p))
                  /\ id m = id m0 /\ type m = type m0 /\ fontName m = fontName m0).
Proof.
  unfold pageNodes, appendToParentOnPage. simpl. split.
  - intros m Hm. rewrite flat_map_app in Hm. apply in_app_or in Hm as [Hm|Hm].
    + rewrite flat_map_concat_map, map_map, <- flat_map_concat_map in Hm.
      apply in_flat_map in Hm as (x & Hx & Hm).
      destruct (appendToParentOf_nodes target c x) as (HA & _).
      destruct (HA m Hm) as [(m0 & Hm0 & E)|Hc]; [|by right].
      left. exists m0. split; [|done]. apply in_flat_map. eauto.
    + destruct (holds target (pageChildren p)); simpl in Hm; [|done].
      rewrite app_nil_r in Hm. by right.
  - intros m0 Hm0. apply in_flat_map in Hm0 as (x & Hx & Hm0).
    destruct (appendToParentOf_nodes target c x) as (_ & HB & _).
    destruct (HB m0 Hm0) as (m & Hm & E).
    exists m. split; [|done].
    rewrite flat_map_app. apply in_or_app. left.
    apply in_flat_map. exists (appendToParentOf target c x). split; [|done].
    by apply in_map.
Qed.

End Copies.

(* ===================================================================== *)
(** ** What [apply] keeps *)
(* ===================================================================== *)

Section ApplyFrame.

Lemma in_allIds st i :
  In i (allIds st) <->
  i = pageId (currentPage st)
  \/ In i (map pageId (otherPages st))
  \/ In i (map id (pageNodes (currentPage st)))
  \/ In i (map id (flat_map pageNodes (otherPages st))).
Proof.
  unfold allIds, pages. simpl. rewrite in_app_iff, map_app, in_app_iff.
  intuition.
Qed.

Lemma getNodeById_baseId st i o : getNodeById st i = Some o -> baseId o = i.
Proof.
  unfold getNodeById.
  destruct (find _ (pages st)) as [p|] eqn:Hp.
  - intros [= <-]. apply find_some in Hp as [_ Hp]. simpl. by apply Nat.eqb_eq.
  - destruct (find _ (flat_map _ _)) as [n|] eqn:Hn; [|done].
    intros [= <-]. apply find_some in Hn as [_ Hn]. simpl. by apply Nat.eqb_eq.
Qed.

Lemma getNodeById_resolves st i : getNodeById st i <> None <-> In i (allIds st).
Proof.
  unfold getNodeById, allIds. rewrite in_app_iff, !in_map_iff. split.
  - destruct (find _ (pages st)) as [p|] eqn:Hp.
    + intros _. apply find_some in Hp as [Hin Hp]. left. exists p.
      split; [by apply Nat.eqb_eq|done].
    + destruct (find _ (flat_map _ _)) as [n|] eqn:Hn; [|done].
      intros _. apply find_some in Hn as [Hin Hn]. right. exists n.
      split; [by apply Nat.eqb_eq|done].
  - intros [(p & <- & Hin)|(n & <- & Hin)].
    + destruct (find _ (pages st)) as [q|] eqn:Hq; [done|].
      eapply find_none in Hq; [|exact Hin]. simpl in Hq.
      by rewrite Nat.eqb_refl in Hq.
    + destruct (find _ (pages st)) as [q|] eqn:Hq; [done|].
      destruct (find _ (flat_map _ _)) as [m|] eqn:Hm; [done|].
      eapply find_none in Hm; [|exact Hin]. simpl in Hm.
      by rewrite Nat.eqb_refl in Hm.
Qed.

Lemma keepsBelow_setCharacters b i t st :
  b <= i -> keepsBelow b st (setCharacters i t st).
Proof.
  intros Hi _. repeat split; auto; simpl.
  rewrite lookup_insert_ne; [done|lia].
Qed.

Lemma keepsBelow_setPluginData b i k v st :
  b <= i -> keepsBelow b st (setPluginData i k v st).
Proof.
  intros Hi _. repeat split; auto; simpl.
  rewrite lookup_insert_ne; [done|lia].
Qed.

Lemma copyNodeData_below b st old new :
  b <= new ->
  let st' := copyNodeData st (old, new) in
  currentPage st' = currentPage st /\ otherPages st' = otherPages st
  /\ selection st' = selection st /\ fonts st' = fonts st
  /\ nextId st' = nextId st /\ outbox st' = outbox st
  /\ forall i, i < b -> chars st' !! i = chars st !! i /\ pdata st' !! i = pdata st !! i.
Proof.
  intros Hb. unfold copyNodeData. simpl.
  do 6 (split; [done|]). intros i Hi. split.
  - destruct (chars st !! old).
    + rewrite lookup_insert_ne; [done|lia].
    + rewrite lookup_delete_ne; [done|lia].
  - destruct (pdata st !! old).
    + rewrite lookup_insert_ne; [done|lia].
    + rewrite lookup_delete_ne; [done|lia].
Qed.

Lemma copyData_below b pairs st :
  (forall p, In p pairs -> b <= snd p) ->
  let st' := fold_left copyNodeData pairs st in
  currentPage st' = currentPage st /\ otherPages st' = otherPages st
  /\ selection st' = selection st /\ fonts st' = fonts st
  /\ nextId st' = nextId st /\ outbox st' = outbox st
  /\ forall i, i < b -> chars st' !! i = chars st !! i /\ pdata st' !! i = pdata st !! i.
Proof.
  revert st. induction pairs as [|[old new] pairs IH]; intros st Hp; cbn [fold_left].
  { repeat split; auto. }
  destruct (copyNodeData_below b st old new) as (H1 & H2 & H3 & H4 & H5 & H6 & H7).
  { apply (Hp (old, new)). by left. }
  destruct (IH (copyNodeData st (old, new))) as (G1 & G2 & G3 & G4 & G5 & G6 & G7).
  { intros p Hin. apply Hp. by right. }
  cbv zeta. split; [congruence|]. split; [congruence|]. split; [congruence|].
  split; [congruence|]. split; [congruence|]. split; [congruence|].
  intros i Hi. destruct (G7 i Hi), (H7 i Hi). split; congruence.
Qed.

(** [clone] returns a copy whose nodes carry fresh identifiers; nothing
    that is stored for an older identifier changes, nor the page. *)
Lemma clone_spec n st :
  exists copy st1,
    clone n st = (Returned copy, st1)
    /\ nextId st < nextId st1
    /\ (forall m, In m (nodes copy) -> nextId st <= id m < nextId st1)
    /\ type copy = type n /\ fontName copy = fontName n
    /\ currentPage st1 = currentPage st /\ otherPages st1 = otherPages st
    /\ selection st1 = selection st /\ fonts st1 = fonts st /\ outbox st1 = outbox st
    /\ forall i, i < nextId st ->
         chars st1 !! i = chars st !! i /\ pdata st1 !! i = pdata st !! i.
Proof.
  unfold clone.
  destruct (relabel_ids n (nextId st)) as (Hlt & Hid & Hty & Hfont & Hin).
  destruct (relabel n (nextId st)) as [copy next'] eqn:Hrel. simpl in *.
  eexists _, _. split; [reflexivity|].
  destruct (copyData_below (nextId st)
              (combine (map id (nodes n)) (map id (nodes copy)))
              (withNextId next' st)) as (H1 & H2 & H3 & H4 & H5 & H6 & H7).
  { intros [old new] Hp. apply in_combine_r in Hp. simpl.
    apply in_map_iff in Hp as (m & <- & Hm). apply Hin in Hm. lia. }
  rewrite H5. simpl. repeat split; auto; try (apply Hin; done).
  - apply H7. done.
  - apply H7. done.
Qed.

Lemma clone_keepsBelow b n st : keepsBelow b st (snd (clone n st)).
Proof.
  intros Hb.
  destruct (clone_spec n st)
    as (copy & st1 & -> & Hlt & Hin & _ & _ & Hp & Hop & _ & Hf & Ho & Hd).
  cbn [snd]. split; [lia|]. do 4 (split; [congruence|]). split.
  - intros i Hi. apply Hd. lia.
  - intros i Hi. rewrite !in_allIds, Hp, Hop. done.
Qed.

Lemma append_keepsBelow b target c st :
  (forall m, In m (nodes c) -> b <= id m) ->
  keepsBelow b st (withPage (appendToParentOnPage target c (currentPage st)) st).
Proof.
  intros Hc Hb. do 6 (split; [done|]). intros i Hi. split.
  - rewrite !in_allIds. simpl.
    intros [H|[H|[H|H]]]; auto.
    apply in_map_iff in H as (m & <- & Hm).
    destruct (appendToParentOnPage_nodes target c (currentPage st)) as (HA & _).
    destruct (HA m Hm) as [(m0 & Hm0 & E & _)|Hin].
    + right. right. left. rewrite <- E. by apply in_map.
    + apply Hc in Hin. lia.
  - rewrite !in_allIds. simpl.
    intros [H0|[H0|[H0|H0]]]; auto.
    apply in_map_iff in H0 as (m0 & <- & Hm0).
    destruct (appendToParentOnPage_nodes target c (currentPage st)) as (_ & HB).
    destruct (HB m0 Hm0) as (m & Hm & E & _).
    right. right. left. rewrite <- E. by apply in_map.
Qed.

Lemma matchLoop_keepsBelow b leaf key language translations :
  b <= id leaf -> respects (keepsBelow b) (matchLoop leaf key language translations).
Proof.
  intros Hb. pose proof (keepsBelow_refl b) as Hr. pose proof (keepsBelow_trans b) as Ht.
  induction translations as [|t rest IH]; cbn [matchLoop].
  { by apply respects_ret. }
  apply respects_bind; [done|by apply respects_getNodeById|intros o].
  apply respects_get_bind. intros st.
  destruct o as [o|]; [|apply IH].
  destruct (String.eqb _ _); [|apply IH].
  apply respects_bind; [done|by apply respects_loadFont|intros _].
  apply respects_bind; [done| |intros _]; apply respects_modify; intros s.
  - by apply keepsBelow_setCharacters.
  - by apply keepsBelow_setPluginData.
Qed.

Lemma translateLeaf_keepsBelow b translations language leaf :
  b <= id leaf -> respects (keepsBelow b) (translateLeaf translations language leaf).
Proof.
  intros Hb. unfold translateLeaf. apply respects_get_bind. intros st.
  destruct (negb _).
  - apply keepsBelow_refl.
  - by apply matchLoop_keepsBelow.
Qed.

Lemma cloneTextNodes_nodes copy m :
  In m (cloneTextNodes copy) -> In m (nodes copy) /\ isText (type m) = true.
Proof.
  unfold cloneTextNodes. destruct (hasChildren (type copy)) eqn:Hty.
  - intros Hm. apply list_elem_of_In, list_elem_of_filter in Hm as [Ht Hm].
    split; [|done]. apply descendants_nodes. by apply list_elem_of_In.
  - destruct (isText (type copy)) eqn:Ht; [|done].
    intros [<-|[]]. split; [apply nodes_self|done].
Qed.

Lemma nodes_cloneTextNodes copy m :
  In m (nodes copy) -> isText (type m) = true -> In m (cloneTextNodes copy).
Proof.
  unfold cloneTextNodes, descendants. destruct copy as [i ty nm v f cs]. simpl.
  intros [<-|Hm] Ht.
  - simpl in Ht. destruct ty; try done. simpl. by left.
  - destruct (hasChildren ty); [|done].
    apply list_elem_of_In, list_elem_of_filter. split; [done|].
    by apply list_elem_of_In.
Qed.

Lemma rename_nodes_ids nm n m :
  In m (nodes (rename nm n)) ->
  exists m0, In m0 (nodes n) /\ id m0 = id m /\ type m0 = type m
             /\ fontName m0 = fontName m.
Proof.
  intros Hm. apply nodes_rename in Hm as [->|Hm].
  - exists n. split; [apply nodes_self|]. by destruct n.
  - exists m. split; [by apply descendants_nodes|done].
Qed.

Lemma cloneAndTranslate_keepsBelow b translations language n :
  respects (keepsBelow b) (cloneAndTranslate translations language n).
Proof.
  intros st Hb. pose proof (keepsBelow_refl b) as Hr. pose proof (keepsBelow_trans b) as Ht.
  unfold cloneAndTranslate.
  destruct (clone_spec n st) as (copy & st1 & Hrun & Hlt & Hin & _).
  pose proof (clone_keepsBelow b n st) as Hk. rewrite Hrun in Hk. simpl in Hk.
  rewrite (bind_run _ _ _ _ _ Hrun).
  set (c := rename _ copy).
  assert (Hc : forall m, In m (nodes c) -> b <= id m).
  { intros m Hm. apply rename_nodes_ids in Hm as (m0 & Hm0 & <- & _).
    apply Hin in Hm0. lia. }
  revert Hb. change (keepsBelow b st
    (snd ((modify (fun st => withPage (appendToParentOnPage (id n) c (currentPage st)) st) ;;;
           forEach (translateLeaf translations language) (cloneTextNodes c) ;;; ret c) st1))).
  eapply Ht; [exact Hk|].
  apply respects_bind; [done| |intros _].
  { apply respects_modify. intros s. by apply append_keepsBelow. }
  apply respects_bind; [done| |intros _; by apply respects_ret].
  apply respects_forEach; [done..|]. intros leaf Hleaf.
  apply translateLeaf_keepsBelow. apply Hc.
  by apply cloneTextNodes_nodes in Hleaf as [? _].
Qed.

Lemma cloneLoop_keepsBelow b translations language sel clones :
  respects (keepsBelow b) (cloneLoop translations language sel clones).
Proof.
  pose proof (keepsBelow_refl b) as Hr. pose proof (keepsBelow_trans b) as Ht.
  revert clones. induction sel as [|i rest IH]; intros clones; cbn [cloneLoop].
  { by apply respects_ret. }
  apply respects_get_bind. intros st.
  destruct (findOnPage (currentPage st) i) as [n|]; [|apply IH].
  apply respects_bind; [done|apply cloneAndTranslate_keepsBelow|intros copy; apply IH].
Qed.

(** The two ways [apply] ends when something is selected. *)
Lemma handleApplyTranslation_cases translations language st :
  selection st <> [] ->
  let st1 := emit (Notify ("Creating " +:+ Js.toUpperCase language +:+ " copy...") false) st in
  (exists clones st2,
      cloneLoop translations language (selection st) [] st1 = (Returned clones, st2)
      /\ handleApplyTranslation translations language st
         = (Returned tt,
            emit (PostMessage ApplyComplete)
              (emit (Notify (Js.toUpperCase language +:+ " copies generated!") false)
                 (withSelection clones st2))))
  \/ (exists e st2,
      cloneLoop translations language (selection st) [] st1 = (Thrown e, st2)
      /\ handleApplyTranslation translations language st
         = (Returned tt,
            emit (PostMessage (ApplyError e))
              (emit (Notify ("Error: " +:+ e) true) st2))).
Proof.
  intros Hsel st1.
  cbv beta iota delta [handleApplyTranslation bind get tryCatch notify postMessage modify].
  destruct (selection st) as [|i sel] eqn:Es; [done|]. cbv beta iota.
  change (emit (Notify ("Creating " +:+ Js.toUpperCase language +:+ " copy...") false) st)
    with st1.
  destruct (cloneLoop translations language (i :: sel) [] st1) as [[clones|e] st2] eqn:E.
  - left. exists clones, st2. split; reflexivity.
  - right. exists e, st2. split; reflexivity.
Qed.

End ApplyFrame.

(* ===================================================================== *)
(** ** The responses of [apply] *)
(* ===================================================================== *)

Section Responses.

Lemma cloneLoop_outbox translations language sel clones st :
  outbox (snd (cloneLoop translations language sel clones st)) = outbox st.
Proof.
  destruct (cloneLoop_keepsBelow 0 translations language sel clones st) as (_ & Ho & _);
    [lia|done].
Qed.

Lemma newEvents_app st st' evs :
  outbox st' = outbox st ++ evs -> newEvents st st' = evs.
Proof. intros H. unfold newEvents. rewrite H. apply drop_app_length. Qed.

(** The events of one [apply] with a selection: two toasts around the work
    and one panel message. *)
Lemma apply_events st translations language :
  selection st <> [] ->
  exists note m,
    isApplyResponse m
    /\ newEvents st (snd (handleApplyTranslation translations language st))
       = [Notify ("Creating " +:+ Js.toUpperCase language +:+ " copy...") false;
          note; PostMessage m]
    /\ (exists message e, note = Notify message e).
Proof.
  intros Hsel.
  destruct (handleApplyTranslation_cases translations language st Hsel)
    as [(clones & st2 & Hloop & ->)|(e & st2 & Hloop & ->)];
    pose proof (cloneLoop_outbox translations language (selection st) []
                  (emit (Notify ("Creating " +:+ Js.toUpperCase language +:+ " copy...") false) st))
      as Ho; rewrite Hloop in Ho; simpl in Ho.
  - eexists _, ApplyComplete. split; [by left|]. split; [|by eexists _, _].
    apply newEvents_app. simpl. rewrite Ho, <- !app_assoc. reflexivity.
  - eexists _, (ApplyError e). split; [right; by exists e|]. split; [|by eexists _, _].
    apply newEvents_app. simpl. rewrite Ho, <- !app_assoc. reflexivity.
Qed.

(** C9 as stated fails: with nothing selected the handler only shows a
    toast; neither [apply-complete] nor [apply-error] reaches the panel. *)
Lemma no_response_without_selection :
  selection Demo.fresh = []
  /\ ~ (exists m, responses (handleApplyTranslation Demo.french "fr") Demo.fresh = [m]
                  /\ isApplyResponse m).
Proof.
  split; [reflexivity|]. intros (m & Hm & _). vm_compute in Hm. discriminate Hm.
Qed.

(** C9, amended.  The handler of [apply-translation] always returns.  When
    something is selected it posts exactly one message to the panel, which
    is [apply-complete] or [apply-error] with a message; when nothing is
    selected it posts nothing and reports the error to the user with a
    toast only. *)
Theorem apply_responds_when_selected st translations language :
  fst (handleApplyTranslation translations language st) = Returned tt
  /\ (selection st <> [] ->
      exists m, responses (handleApplyTranslation translations language) st = [m]
                /\ isApplyResponse m)
  /\ (selection st = [] ->
      responses (handleApplyTranslation translations language) st = []
      /\ newEvents st (snd (handleApplyTranslation translations language st))
         = [Notify "Please select elements to duplicate." true]).
Proof.
  split; [|split].
  - destruct (selection st) as [|i sel] eqn:Es.
    + by rewrite (applyWithoutSelection_run st translations language Es).
    + destruct (handleApplyTranslation_cases translations language st)
        as [(clones & st2 & _ & ->)|(e & st2 & _ & ->)]; [by rewrite Es|done..].
  - intros Hsel.
    destruct (apply_events st translations language Hsel)
      as (note & m & Hm & Hev & (message & e & ->)).
    exists m. split; [|done]. unfold responses. rewrite Hev. reflexivity.
  - intros Hsel.
    assert (Hev : newEvents st (snd (handleApplyTranslation translations language st))
                  = [Notify "Please select elements to duplicate." true]).
    { rewrite (applyWithoutSelection_run st translations language Hsel).
      by apply newEvents_app. }
    unfold responses. rewrite Hev. done.
Qed.

Lemma apply_responds_when_selected_witness :
  exists m, responses (handleApplyTranslation Demo.french "fr") Demo.scannedOnce = [m]
            /\ isApplyResponse m.
Proof.
  destruct (apply_responds_when_selected Demo.scannedOnce Demo.french "fr") as (_ & H & _).
  apply H. vm_compute. discriminate.
Defined.

(** Both responses occur: the font of the copied text cannot be loaded on
    a machine without fonts, and the handler reports the error. *)
Example apply_error_response :
  responses (handleApplyTranslation Demo.french "fr") Demo.withoutFonts
  = [ApplyError fontError]
  /\ responses (handleApplyTranslation Demo.french "fr") Demo.scannedOnce
     = [ApplyComplete].
Proof. by vm_compute. Qed.

End Responses.

(* ===================================================================== *)
(** ** Handlers that stay within a relation *)
(* ===================================================================== *)

Section HandlersRespect.

Variable R : Figma -> Figma -> Prop.
Hypothesis R_refl : forall st, R st st.
Hypothesis R_trans : forall a b c, R a b -> R b c -> R a c.
Hypothesis R_emit : forall e st, R st (emit e st).
Hypothesis R_chars : forall i t st, R st (setCharacters i t st).
Hypothesis R_nodeKey : forall i v st, R st (setPluginData i "nodeKey" v st).
Hypothesis R_translation :
  forall i lang v st, R st (setPluginData i ("translation-" +:+ lang) v st).
(** [originalText] is only written where none is stored, and the value is
    the visible text. *)
Hypothesis R_original :
  forall i st, originalTextOf st i = "" ->
    R st (setPluginData i "originalText" (characters st i) st).

Lemma preloadFonts_respects textNodes : respects R (preloadFonts textNodes).
Proof using R_refl R_trans.
  unfold preloadFonts. apply respects_tryCatch; [done| |intros; by apply respects_ret].
  apply respects_forEach; [done..|]. intros kf _.
  apply respects_tryCatch; [done|by apply respects_loadFont|intros; by apply respects_ret].
Qed.

Lemma captureOriginal_at i st :
  R st (snd ((if negb (Js.truthy (getPluginData st i "originalText"))
              then modify (setPluginData i "originalText" (characters st i))
              else ret tt) st)).
Proof using R_refl R_original.
  destruct (Js.truthy _) eqn:Ht; simpl; [apply R_refl|].
  apply R_original. by apply truthy_false.
Qed.

Lemma scanNode_respects node results : respects R (scanNode node results).
Proof using R_refl R_trans R_nodeKey R_original.
  unfold scanNode. apply respects_get_bind. intros st.
  destruct (negb _ || _); [apply R_refl|].
  apply bind_at; [done|apply captureOriginal_at|intros _].
  apply respects_bind; [done|by apply respects_modify|intros _].
  apply respects_bind; [done|by apply respects_get|intros st'].
  by apply respects_ret.
Qed.

Lemma scanLoop_respects textNodes results : respects R (scanLoop textNodes results).
Proof using R_refl R_trans R_nodeKey R_original.
  revert results. induction textNodes as [|n rest IH]; intros results; cbn [scanLoop].
  - by apply respects_ret.
  - apply respects_bind; [done|apply scanNode_respects|intros r; apply IH].
Qed.

Lemma scanSelection_respects : respects R scanSelection.
Proof using R_refl R_trans R_emit R_nodeKey R_original.
  unfold scanSelection. apply respects_get_bind. intros st.
  apply respects_bind; [done|apply preloadFonts_respects|intros _].
  apply respects_bind; [done|apply scanLoop_respects|intros r].
  by apply respects_postMessage.
Qed.

Lemma handleStoreTranslations_respects data : respects R (handleStoreTranslations data).
Proof using R_refl R_trans R_translation.
  unfold handleStoreTranslations. apply respects_forEach; [done..|]. intros le _.
  apply respects_forEach; [done..|]. intros it _.
  apply respects_bind; [done|by apply respects_getNodeById|intros [n|]].
  - by apply respects_modify.
  - by apply respects_ret.
Qed.

Lemma previewItem_respects item : respects R (previewItem item).
Proof using R_refl R_trans R_chars R_original.
  unfold previewItem.
  apply respects_bind; [done|by apply respects_getNodeById|intros [[p|n]|]];
    try by apply respects_ret.
  destruct (isText (type n)); [|by apply respects_ret].
  apply respects_get_bind. intros st.
  apply bind_at; [done|apply captureOriginal_at|intros _].
  apply respects_bind; [done|by apply respects_loadFont|intros _].
  by apply respects_modify.
Qed.

Lemma handlePreviewTranslation_respects translations language :
  respects R (handlePreviewTranslation translations language).
Proof using R_refl R_trans R_emit R_chars R_original.
  unfold handlePreviewTranslation.
  apply respects_bind; [done|by apply respects_notify|intros _].
  apply respects_forEach; [done..|]. intros item _. apply previewItem_respects.
Qed.

Lemma revertNode_respects node : respects R (revertNode node).
Proof using R_refl R_trans R_chars.
  unfold revertNode. apply respects_get_bind. intros st.
  destruct (Js.truthy _); [|apply R_refl].
  apply respects_bind; [done|by apply respects_loadFont|intros _].
  by apply respects_modify.
Qed.

Lemma handleRevertPreview_respects : respects R handleRevertPreview.
Proof using R_refl R_trans R_emit R_chars.
  unfold handleRevertPreview.
  apply respects_bind; [done|by apply respects_notify|intros _].
  apply respects_get_bind. intros st.
  apply respects_bind; [done| |intros _; by apply respects_notify].
  apply respects_forEach; [done..|]. intros n _. apply revertNode_respects.
Qed.

End HandlersRespect.

(* ===================================================================== *)
(** ** [originalText] under scan and preview *)
(* ===================================================================== *)

Section OriginalText.

Lemma keepsOriginal_refl st : keepsOriginal st st.
Proof. by intros i. Qed.

Lemma keepsOriginal_trans a b c :
  keepsOriginal a b -> keepsOriginal b c -> keepsOriginal a c.
Proof.
  intros Hab Hbc i Hi. rewrite Hbc; [by apply Hab|]. by rewrite Hab.
Qed.

Lemma keepsOriginal_other i k v st :
  k <> "originalText" -> keepsOriginal st (setPluginData i k v st).
Proof.
  intros Hk j _. unfold originalTextOf. rewrite getPluginData_set_ne; auto.
Qed.

Lemma keepsOriginal_capture i v st :
  originalTextOf st i = "" -> keepsOriginal st (setPluginData i "originalText" v st).
Proof.
  intros Hi j Hj. unfold originalTextOf. rewrite getPluginData_set_ne; auto.
  left. intros ->. done.
Qed.

Lemma capturesOnly_refl st : capturesOnly st st.
Proof. split; auto. Qed.

Lemma capturesOnly_trans a b c :
  capturesOnly a b -> capturesOnly b c -> capturesOnly a c.
Proof.
  intros [Hc1 H1] [Hc2 H2]. split; [congruence|]. intros i.
  assert (Hch : characters b i = characters a i).
  { unfold characters. by rewrite Hc1. }
  destruct (H1 i) as [E1|[E1 E1']], (H2 i) as [E2|[E2 E2']].
  - left. congruence.
  - right. split; congruence.
  - right. split; congruence.
  - right. split; congruence.
Qed.

Lemma capturesOnly_other i k v st :
  k <> "originalText" -> capturesOnly st (setPluginData i k v st).
Proof.
  intros Hk. split; [done|]. intros j. left.
  unfold originalTextOf. rewrite getPluginData_set_ne; auto.
Qed.

Lemma capturesOnly_capture i st :
  originalTextOf st i = "" ->
  capturesOnly st (setPluginData i "originalText" (characters st i) st).
Proof.
  intros Hi. split; [done|]. intros j. unfold originalTextOf.
  destruct (decide (i = j)) as [<-|Hne].
  - right. split; [done|]. apply getPluginData_set_eq.
  - left. rewrite getPluginData_set_ne; auto.
Qed.

Lemma translation_key_not_original lang : "translation-" +:+ lang <> "originalText".
Proof. cbv [String.append]. discriminate. Qed.

Lemma scan_keepsOriginal : respects keepsOriginal scanSelection.
Proof.
  apply scanSelection_respects.
  - apply keepsOriginal_refl.
  - apply keepsOriginal_trans.
  - by intros e st i.
  - intros i v st. by apply keepsOriginal_other.
  - intros i st. apply keepsOriginal_capture.
Qed.

Lemma preview_keepsOriginal translations language :
  respects keepsOriginal (handlePreviewTranslation translations language).
Proof.
  apply handlePreviewTranslation_respects.
  - apply keepsOriginal_refl.
  - apply keepsOriginal_trans.
  - by intros e st i.
  - by intros i t st j.
  - intros i st. apply keepsOriginal_capture.
Qed.

Lemma scanNode_capturesOnly node results : respects capturesOnly (scanNode node results).
Proof.
  apply scanNode_respects.
  - apply capturesOnly_refl.
  - apply capturesOnly_trans.
  - intros i v st. by apply capturesOnly_other.
  - intros i st. apply capturesOnly_capture.
Qed.

Lemma scanLoop_capturesOnly textNodes results :
  respects capturesOnly (scanLoop textNodes results).
Proof.
  apply scanLoop_respects.
  - apply capturesOnly_refl.
  - apply capturesOnly_trans.
  - intros i v st. by apply capturesOnly_other.
  - intros i st. apply capturesOnly_capture.
Qed.

Lemma scan_capturesOnly : respects capturesOnly scanSelection.
Proof.
  apply scanSelection_respects.
  - apply capturesOnly_refl.
  - apply capturesOnly_trans.
  - intros e st. split; auto.
  - intros i v st. by apply capturesOnly_other.
  - intros i st. apply capturesOnly_capture.
Qed.

Lemma scanLoop_keepsOriginal textNodes results :
  respects keepsOriginal (scanLoop textNodes results).
Proof.
  apply scanLoop_respects.
  - apply keepsOriginal_refl.
  - apply keepsOriginal_trans.
  - intros i v st. by apply keepsOriginal_other.
  - intros i st. apply keepsOriginal_capture.
Qed.

Lemma isBlank_empty s : Js.isBlank s = false -> s <> "".
Proof. by intros H ->. Qed.

(** A node that is not blank has an [originalText] once it was scanned. *)
Lemma scanNode_stores node results st :
  Js.isBlank (characters st (id node)) = false ->
  originalTextOf (snd (scanNode node results st)) (id node) <> "".
Proof.
  intros Hb. pose proof (isBlank_empty _ Hb) as Hne.
  unfold scanNode, bind, get, modify, ret. cbn beta iota.
  rewrite Hb. apply truthy_spec in Hne as Ht. rewrite Ht. cbn [negb orb].
  destruct (Js.truthy (getPluginData st (id node) "originalText")) eqn:Ho; cbn.
  - unfold originalTextOf. rewrite getPluginData_set_ne by (right; done).
    by apply truthy_spec.
  - unfold originalTextOf. rewrite getPluginData_set_ne by (right; done).
    rewrite getPluginData_set_eq. by apply truthy_spec.
Qed.

Lemma scanLoop_stores textNodes results st node :
  In node textNodes ->
  Js.isBlank (characters st (id node)) = false ->
  originalTextOf (snd (scanLoop textNodes results st)) (id node) <> "".
Proof.
  revert results st. induction textNodes as [|n rest IH]; intros results st Hin Hb.
  { destruct Hin. }
  cbn [scanLoop]. unfold bind.
  pose proof (scanNode_capturesOnly n results st) as [Hch _].
  pose proof (scanNode_stores n results st) as Hst.
  destruct (scanNode n results st) as [[r|e] st1] eqn:E; cbn [snd] in *.
  2:{ exfalso. unfold scanNode, bind, get, modify, ret in E.
      destruct (negb _ || _); [done|].
      by destruct (negb (Js.truthy (getPluginData st (id n) "originalText"))). }
  destruct Hin as [->|Hin].
  - pose proof (scanLoop_keepsOriginal rest r st1 (id node) (Hst Hb)) as Hk.
    rewrite Hk. by apply Hst.
  - apply IH; auto. unfold characters. by rewrite Hch.
Qed.

Lemma step_scan st :
  step st Scan = snd (scanSelection (emit (Notify "Scanning design for text..." false) st)).
Proof. reflexivity. Qed.

Lemma scan_stores st i :
  scanned st i -> originalTextOf (step st Scan) i <> "".
Proof.
  intros (node & Hin & <- & Hb). rewrite step_scan.
  set (st0 := emit _ st).
  unfold scanSelection, bind, get. cbn beta iota.
  pose proof (preloadFonts_respects eq (fun s => eq_refl)
                (fun a b c H1 H2 => eq_trans H1 H2) (scanTargets st0) st0) as Hpre.
  destruct (preloadFonts (scanTargets st0) st0) as [[[]|e] s1] eqn:E; cbn [snd] in Hpre;
    subst s1.
  2:{ exfalso. unfold preloadFonts, tryCatch in E.
      by destruct (forEach _ _ st0) as [[[]|?] ?]. }
  pose proof (scanLoop_stores (scanTargets st0) [] st0 node Hin Hb) as Hst.
  destruct (scanLoop (scanTargets st0) [] st0) as [[r|e] s2]; cbn [snd] in *; exact Hst.
Qed.

Lemma step_keepsOriginal msg st :
  isScanOrPreview msg -> keepsOriginal st (step st msg).
Proof.
  destruct msg; try done; intros _.
  - rewrite step_scan. eapply keepsOriginal_trans; [|apply scan_keepsOriginal].
    by intros i.
  - apply preview_keepsOriginal.
Qed.

Lemma run_keepsOriginal msgs st :
  Forall isScanOrPreview msgs -> keepsOriginal st (run msgs st).
Proof.
  revert st. induction msgs as [|m msgs IH]; intros st Hall; cbn [run fold_left].
  - apply keepsOriginal_refl.
  - inversion Hall; subst. eapply keepsOriginal_trans.
    + by apply step_keepsOriginal.
    + by apply IH.
Qed.

Lemma previewItem_captures item st i :
  let st' := snd (previewItem item st) in
  originalTextOf st' i = originalTextOf st i
  \/ (originalTextOf st i = "" /\ originalTextOf st' i = characters st i).
Proof.
  cbv beta iota zeta delta [previewItem bind getNodeByIdAsync get ret modify loadFontAsync].
  destruct (getNodeById st (t_id item)) as [[p|n]|]; cbn; auto.
  destruct (isText (type n)); cbn; auto.
  destruct (Js.truthy (getPluginData st (id n) "originalText")) eqn:Ho; cbn.
  - destruct (canLoad st (fontName n)); cbn; auto.
  - apply truthy_false in Ho.
    assert (Hcap : originalTextOf (setPluginData (id n) "originalText" (characters st (id n)) st) i
                   = originalTextOf st i
                   \/ (originalTextOf st i = ""
                       /\ originalTextOf (setPluginData (id n) "originalText"
                                            (characters st (id n)) st) i = characters st i)).
    { unfold originalTextOf. destruct (decide (id n = i)) as [<-|Hne].
      - right. split; [done|]. apply getPluginData_set_eq.
      - left. rewrite getPluginData_set_ne; auto. }
    destruct (canLoad _ (fontName n)); cbn; exact Hcap.
Qed.

(** C1.  A stored, non-empty [originalText] survives every sequence of
    scans and previews.  A scan changes the [originalText] of an element
    only when none is stored, and then to the element's visible text; it
    does so for every element it records.  A previewed item changes it only
    when none is stored, and then to the visible text at that moment.  So
    after a scan, a preview and a second scan, the [originalText] of an
    element the first scan recorded is the one that scan left, which is the
    visible text it found when nothing was stored before. *)
Theorem originalText_write_once :
  (forall st msgs i,
      Forall isScanOrPreview msgs ->
      originalTextOf st i <> "" ->
      originalTextOf (run msgs st) i = originalTextOf st i)
  /\ (forall st i,
        originalTextOf (step st Scan) i = originalTextOf st i
        \/ (originalTextOf st i = ""
            /\ originalTextOf (step st Scan) i = characters st i))
  /\ (forall st item i,
        originalTextOf (snd (previewItem item st)) i = originalTextOf st i
        \/ (originalTextOf st i = ""
            /\ originalTextOf (snd (previewItem item st)) i = characters st i))
  /\ (forall st translations language i,
        scanned st i ->
        let s1 := step st Scan in
        let s3 := run [PreviewTranslation translations language; Scan] s1 in
        originalTextOf s3 i = originalTextOf s1 i
        /\ originalTextOf s1 i <> ""
        /\ (originalTextOf st i = "" -> originalTextOf s1 i = characters st i)).
Proof.
  split; [|split; [|split]].
  - intros st msgs i Hall Hi. by apply run_keepsOriginal.
  - intros st i. rewrite step_scan.
    destruct (scan_capturesOnly (emit (Notify "Scanning design for text..." false) st))
      as [_ H]. apply (H i).
  - intros st item i. apply previewItem_captures.
  - intros st translations language i Hs s1 s3.
    pose proof (scan_stores st i Hs) as Hst. fold s1 in Hst.
    split; [|split; [done|]].
    + apply run_keepsOriginal; [|done]. repeat constructor.
    + intros Hnone. subst s1. rewrite step_scan in *.
      destruct (scan_capturesOnly (emit (Notify "Scanning design for text..." false) st))
        as [_ H]. destruct (H i) as [E|[_ E]]; [|exact E].
      exfalso. apply Hst. rewrite E. exact Hnone.
Qed.

(** The example document: scan, preview in French, scan again. *)
Lemma originalText_write_once_witness :
  originalTextOf
    (run [PreviewTranslation Demo.french "fr"; Scan] (step Demo.fresh Scan)) 3
  = "Submit"
  /\ characters (run [PreviewTranslation Demo.french "fr"] (step Demo.fresh Scan)) 3
     = "Soumettre".
Proof.
  destruct originalText_write_once as (_ & _ & _ & H).
  destruct (H Demo.fresh Demo.french "fr" 3) as (H3 & _ & H1).
  - exists Demo.submit. vm_compute. auto.
  - split; [|by vm_compute]. rewrite H3. rewrite H1; reflexivity.
Defined.

End OriginalText.

(* ===================================================================== *)
(** ** [handleRevertPreview] *)
(* ===================================================================== *)

Section Revert.

Lemma sameButText_refl st : sameButText st st.
Proof. by repeat split. Qed.

Lemma sameButText_trans a b c : sameButText a b -> sameButText b c -> sameButText a c.
Proof. intros (?&?&?&?&?&?) (?&?&?&?&?&?). repeat split; congruence. Qed.

Lemma revert_sameButText : respects sameButText handleRevertPreview.
Proof.
  apply handleRevertPreview_respects.
  - apply sameButText_refl.
  - apply sameButText_trans.
  - intros e st. by repeat split.
  - intros i t st. by repeat split.
Qed.

Lemma getPluginData_ext st st' i k :
  pdata st' = pdata st -> getPluginData st' i k = getPluginData st i k.
Proof. intros H. unfold getPluginData. by rewrite H. Qed.

Lemma canLoad_ext st st' f : fonts st' = fonts st -> canLoad st' f = canLoad st f.
Proof. intros H. unfold canLoad. by rewrite H. Qed.

Lemma findRevertible_ext st st' n :
  pdata st' = pdata st -> findRevertible st' n = findRevertible st n.
Proof.
  intros H. induction n as [i ty nm v f cs IH] using SceneNode_forall_ind.
  cbn [findRevertible]. rewrite (getPluginData_ext st st') by done.
  destruct (isText ty && _); [done|]. destruct (hasChildren ty); [|done].
  induction IH as [|c cs Hc _ IHcs]; simpl; [done|]. by rewrite Hc, IHcs.
Qed.

Lemma revertChars_ext st st' l c :
  pdata st' = pdata st -> fonts st' = fonts st ->
  revertChars st' l c = revertChars st l c.
Proof.
  intros Hp Hf. revert c. induction l as [|n l IH]; intros c; simpl; [done|].
  rewrite (getPluginData_ext st st'), (canLoad_ext st st') by done.
  destruct (Js.truthy _); [|apply IH]. destruct (canLoad _ _); [apply IH|done].
Qed.

Lemma revertNode_run n s :
  revertNode n s
  = if Js.truthy (getPluginData s (id n) "originalText") then
      if canLoad s (fontName n)
      then (Returned tt, setCharacters (id n) (getPluginData s (id n) "originalText") s)
      else (Thrown fontError, s)
    else (Returned tt, s).
Proof.
  unfold revertNode, bind, get, loadFontAsync, modify, ret.
  destruct (Js.truthy _); [|done]. by destruct (canLoad _ _).
Qed.

(** The loop of the handler computes [revertChars]. *)
Lemma revertLoop_run st l s :
  pdata s = pdata st -> fonts s = fonts st ->
  forEach revertNode l s
  = (if fst (revertChars st l (chars s)) then Returned tt else Thrown fontError,
     withChars (snd (revertChars st l (chars s))) s).
Proof.
  intros Hp Hf. revert s Hp Hf. induction l as [|n l IH]; intros s Hp Hf.
  { simpl. unfold ret. by destruct s. }
  cbn [forEach revertChars]. unfold bind. rewrite revertNode_run.
  rewrite (getPluginData_ext st s), (canLoad_ext st s) by done.
  destruct (Js.truthy _).
  - destruct (canLoad st (fontName n)).
    + rewrite IH by done. simpl. done.
    + simpl. by destruct s.
  - rewrite IH by done. done.
Qed.

Lemma revertChars_settled st l c i :
  c !! i = Some (getPluginData st i "originalText") ->
  snd (revertChars st l c) !! i = Some (getPluginData st i "originalText").
Proof.
  revert c. induction l as [|n l IH]; intros c Hc; simpl; [done|].
  destruct (Js.truthy _); [|by apply IH].
  destruct (canLoad _ _); [|done]. apply IH.
  destruct (decide (id n = i)) as [<-|Hne].
  - by rewrite lookup_insert_eq.
  - by rewrite lookup_insert_ne.
Qed.

Lemma revertChars_idempotent st l c :
  revertChars st l (snd (revertChars st l c)) = revertChars st l c
  \/ (fst (revertChars st l c) = false
      /\ snd (revertChars st l (snd (revertChars st l c))) = snd (revertChars st l c)).
Proof.
  revert c. induction l as [|n l IH]; intros c; simpl; [by left|].
  destruct (Js.truthy _) eqn:Ht.
  - destruct (canLoad _ _) eqn:Hl.
    + set (c0 := <[id n := _]> c).
      assert (Hs : <[id n := getPluginData st (id n) "originalText"]>
                     (snd (revertChars st l c0)) = snd (revertChars st l c0)).
      { apply insert_id. apply revertChars_settled. subst c0.
        by rewrite lookup_insert_eq. }
      simpl. rewrite Hs. apply IH.
    + simpl. by left.
  - apply IH.
Qed.

Lemma revertChars_snd_idempotent st l c :
  snd (revertChars st l (snd (revertChars st l c))) = snd (revertChars st l c).
Proof. destruct (revertChars_idempotent st l c) as [->|[_ H]]; done. Qed.

Lemma revertChars_restores st l c n :
  fst (revertChars st l c) = true ->
  In n l -> getPluginData st (id n) "originalText" <> "" ->
  snd (revertChars st l c) !! id n = Some (getPluginData st (id n) "originalText").
Proof.
  revert c. induction l as [|m l IH]; intros c Hr Hin Ho; [destruct Hin|].
  simpl in *. destruct Hin as [->|Hin].
  - apply truthy_spec in Ho. rewrite Ho in *.
    destruct (canLoad _ _); [|done].
    apply revertChars_settled. by rewrite lookup_insert_eq.
  - destruct (Js.truthy _); [|by apply IH].
    destruct (canLoad _ _); [|done]. by apply IH.
Qed.

Lemma revertChars_completes st l c :
  (forall n, In n l -> canLoad st (fontName n) = true) ->
  fst (revertChars st l c) = true.
Proof.
  revert c. induction l as [|m l IH]; intros c H; simpl; [done|].
  destruct (Js.truthy _).
  - rewrite (H m) by (by left). apply IH. intros n Hn. apply H. by right.
  - apply IH. intros n Hn. apply H. by right.
Qed.

(** [findRevertible] finds exactly the text nodes with a stored
    [originalText]. *)
Lemma findRevertible_complete st c n :
  In n (nodes c) -> isText (type n) = true ->
  getPluginData st (id n) "originalText" <> "" ->
  In n (findRevertible st c).
Proof.
  induction c as [i ty nm v f cs IH] using SceneNode_forall_ind.
  intros Hin Ht Ho. cbn [nodes] in Hin. cbn [findRevertible].
  destruct Hin as [<-|Hin].
  - simpl in Ht, Ho. apply truthy_spec in Ho. rewrite Ht, Ho. simpl. by left.
  - destruct (hasChildren ty) eqn:Hc; [|destruct Hin].
    assert (isText ty = false) as -> by (by destruct ty).
    simpl. apply in_flat_map in Hin as (x & Hx & Hin).
    apply in_flat_map. exists x. split; [done|].
    rewrite Forall_forall in IH. apply IH; auto. by apply list_elem_of_In.
Qed.

Lemma findRevertible_sound st c n :
  In n (findRevertible st c) ->
  In n (nodes c) /\ isText (type n) = true
  /\ getPluginData st (id n) "originalText" <> "".
Proof.
  induction c as [i ty nm v f cs IH] using SceneNode_forall_ind.
  cbn [findRevertible]. destruct (isText ty && _) eqn:E.
  - intros [<-|[]]. apply andb_true_iff in E as [Ht Ho].
    split; [apply nodes_self|]. split; [done|]. by apply truthy_spec.
  - destruct (hasChildren ty) eqn:Hc; [|done].
    intros Hin. apply in_flat_map in Hin as (x & Hx & Hin).
    rewrite Forall_forall in IH.
    destruct (IH x) as (H1 & H2 & H3); [by apply list_elem_of_In|done|].
    split; [|done]. cbn [nodes]. rewrite Hc. right. apply in_flat_map. eauto.
Qed.

Lemma revertible_iff st n :
  In n (revertible st) <->
  In n (pageNodes (currentPage st)) /\ isText (type n) = true
  /\ originalTextOf st (id n) <> "".
Proof.
  unfold revertible, pageNodes, originalTextOf. rewrite !in_flat_map. split.
  - intros (c & Hc & Hin). apply findRevertible_sound in Hin as (H1 & H2 & H3). eauto.
  - intros ((c & Hc & Hin) & Ht & Ho). exists c. split; [done|].
    by apply findRevertible_complete.
Qed.

(** The handler, run from [st]. *)
Lemma handleRevertPreview_run st :
  let r := revertChars st (revertible st) (chars st) in
  handleRevertPreview st
  = if fst r
    then (Returned tt,
          emit (Notify "Design reverted" false)
            (withChars (snd r) (emit (Notify "Reverting design..." false) st)))
    else (Thrown fontError,
          withChars (snd r) (emit (Notify "Reverting design..." false) st)).
Proof.
  intros r. unfold handleRevertPreview.
  cbv beta iota zeta delta [bind notify modify get].
  set (st0 := emit _ st).
  change (flat_map (findRevertible st0) (pageChildren (currentPage st0)))
    with (flat_map (findRevertible st0) (pageChildren (currentPage st))).
  assert (Hl : flat_map (findRevertible st0) (pageChildren (currentPage st)) = revertible st).
  { unfold revertible. induction (pageChildren (currentPage st)) as [|c cs IH]; simpl; [done|].
    by rewrite IH, (findRevertible_ext st st0). }
  rewrite Hl, (revertLoop_run st) by done.
  change (chars st0) with (chars st). fold r.
  by destruct (fst r).
Qed.

(** What holds of every revert.  It never touches plugin data, so the
    stored [originalText] of every node stays as it was.  A second revert
    leaves every visible text as the first one left it.  A revert that runs
    to completion leaves every text leaf of the page that carries a stored
    [originalText] showing exactly that text, and it runs to completion
    whenever the font of each such leaf can be loaded. *)
Lemma revert_idempotent st :
  let st1 := snd (handleRevertPreview st) in
  let st2 := snd (handleRevertPreview st1) in
  pdata st1 = pdata st
  /\ (forall i, originalTextOf st1 i = originalTextOf st i)
  /\ chars st2 = chars st1
  /\ (forall i, characters st2 i = characters st1 i)
  /\ (fst (handleRevertPreview st) = Returned tt ->
      forall n, In n (pageNodes (currentPage st)) -> isText (type n) = true ->
                originalTextOf st (id n) <> "" ->
                characters st1 (id n) = originalTextOf st (id n))
  /\ ((forall n, In n (pageNodes (currentPage st)) -> isText (type n) = true ->
                 originalTextOf st (id n) <> "" -> canLoad st (fontName n) = true) ->
      fst (handleRevertPreview st) = Returned tt).
Proof.
  intros st1 st2.
  destruct (revert_sameButText st) as (Hpage & _ & _ & Hpd & Hf & _). fold st1 in Hpage, Hpd, Hf.
  assert (Hrev : revertible st1 = revertible st).
  { unfold revertible. rewrite Hpage.
    induction (pageChildren (currentPage st)) as [|c cs IH]; simpl; [done|].
    by rewrite IH, (findRevertible_ext st st1). }
  assert (Hc1 : chars st1 = snd (revertChars st (revertible st) (chars st))).
  { subst st1. rewrite handleRevertPreview_run. by destruct (fst _). }
  assert (Hc2 : chars st2 = chars st1).
  { subst st2. rewrite handleRevertPreview_run.
    rewrite Hrev, (revertChars_ext st st1) by done.
    assert (Hidem : snd (revertChars st (revertible st) (chars st1)) = chars st1).
    { rewrite Hc1. apply revertChars_snd_idempotent. }
    by destruct (fst _). }
  split; [done|]. split; [intros i; by apply getPluginData_ext|].
  split; [done|]. split; [intros i; unfold characters; by rewrite Hc2|]. split.
  - intros Hret n Hin Ht Ho. unfold characters. rewrite Hc1.
    rewrite revertChars_restores; auto.
    + rewrite handleRevertPreview_run in Hret.
      by destruct (fst (revertChars st (revertible st) (chars st))).
    + apply revertible_iff. auto.
  - intros Hfonts. rewrite handleRevertPreview_run.
    rewrite revertChars_completes; [done|].
    intros n Hn. apply revertible_iff in Hn as (H1 & H2 & H3). auto.
Qed.

(** The example document after a scan and a French preview: the revert
    completes and the button shows its original text again. *)
Lemma revert_idempotent_witness :
  characters
    (snd (handleRevertPreview
            (run [Scan; PreviewTranslation Demo.french "fr"] Demo.fresh))) 3
  = "Submit".
Proof.
  destruct (revert_idempotent (run [Scan; PreviewTranslation Demo.french "fr"] Demo.fresh))
    as (_ & _ & _ & _ & Hrestore & Hcomplete).
  assert (Hfonts : forall n,
    In n (pageNodes (currentPage (run [Scan; PreviewTranslation Demo.french "fr"] Demo.fresh))) ->
    isText (type n) = true ->
    originalTextOf (run [Scan; PreviewTranslation Demo.french "fr"] Demo.fresh) (id n) <> "" ->
    canLoad (run [Scan; PreviewTranslation Demo.french "fr"] Demo.fresh) (fontName n) = true).
  { intros n Hin Ht Ho. vm_compute in Hin.
    repeat (destruct Hin as [<-|Hin]); try destruct Hin;
      first [discriminate Ht | reflexivity | exfalso; apply Ho; reflexivity]. }
  etransitivity.
  - apply (Hrestore (Hcomplete Hfonts) Demo.submit).
    + vm_compute. auto.
    + reflexivity.
    + vm_compute. discriminate.
  - reflexivity.
Defined.

(** C2 (the code departs from the claim).  [handleRevertPreview] awaits
    [figma.loadFontAsync] for each leaf with no handler for its rejection,
    while [scanSelection] skips mixed fonts and catches every rejection.
    In a page whose title is in mixed fonts, after a scan and a preview of
    the body, the revert stops at the title: it throws before it reaches
    the body, which carries a stored [originalText] and still shows the
    previewed text, and the toast [Design reverted] is never shown.  The
    stored [originalText] is kept and a second revert changes nothing. *)
Theorem revert_stops_at_mixed_font :
  let st := Mixed.previewed in
  let st1 := step st RevertPreview in
  In Mixed.body (pageNodes (currentPage st))
  /\ isText (type Mixed.body) = true
  /\ originalTextOf st (id Mixed.body) = "Body"
  /\ fst (onmessage RevertPreview st) = Thrown fontError
  /\ characters st1 (id Mixed.body) = "Corps"
  /\ characters st1 (id Mixed.body) <> originalTextOf st1 (id Mixed.body)
  /\ newEvents st st1 = [Notify "Reverting design..." false]
  /\ pdata st1 = pdata st
  /\ chars (step st1 RevertPreview) = chars st1.
Proof.
  cbv zeta. split; [right; by left|]. split; [reflexivity|].
  split; [vm_compute; reflexivity|]. split; [vm_compute; reflexivity|].
  split; [vm_compute; reflexivity|]. split; [vm_compute; discriminate|].
  split; [vm_compute; reflexivity|]. split; [vm_compute; reflexivity|].
  vm_compute. reflexivity.
Qed.

End Revert.

(* ===================================================================== *)
(** ** The manual-override flag *)
(* ===================================================================== *)

Section ManualOverride.

Lemma keepsManual_refl st : keepsManual st st.
Proof. split; auto. Qed.

Lemma keepsManual_trans a b c : keepsManual a b -> keepsManual b c -> keepsManual a c.
Proof.
  intros [Hn1 H1] [Hn2 H2]. split; [lia|]. intros i lang Hi.
  rewrite H2 by lia. by apply H1.
Qed.

Lemma keepsManualSet_refl st : keepsManualSet st st.
Proof. split; auto. Qed.

Lemma keepsManualSet_trans a b c :
  keepsManualSet a b -> keepsManualSet b c -> keepsManualSet a c.
Proof.
  intros [Hn1 H1] [Hn2 H2]. split; [lia|]. intros i lang Hi Ht.
  apply H2; [lia|]. by apply H1.
Qed.

Lemma keepsManual_weaken a b : keepsManual a b -> keepsManualSet a b.
Proof. intros [Hn H]. split; [done|]. intros i lang Hi Ht. by rewrite H. Qed.

Lemma keepsManual_set i k v st :
  (forall lang, k <> "isManual-" +:+ lang) -> keepsManual st (setPluginData i k v st).
Proof.
  intros Hk. split; [done|]. intros j lang _. unfold manualOverrideOf.
  apply getPluginData_set_ne. right. apply Hk.
Qed.

Lemma isManual_not_nodeKey lang : "nodeKey" <> "isManual-" +:+ lang.
Proof. cbv [String.append]. discriminate. Qed.

Lemma isManual_not_original lang : "originalText" <> "isManual-" +:+ lang.
Proof. cbv [String.append]. discriminate. Qed.

Lemma isManual_not_translation lang' lang :
  "translation-" +:+ lang' <> "isManual-" +:+ lang.
Proof. cbv [String.append]. discriminate. Qed.

Lemma isManual_key_inj lang lang' :
  "isManual-" +:+ lang = "isManual-" +:+ lang' -> lang = lang'.
Proof. cbv [String.append]. intros H. by injection H. Qed.

Lemma keepsManual_emit e st : keepsManual st (emit e st).
Proof. split; auto. Qed.

Lemma keepsManual_chars i t st : keepsManual st (setCharacters i t st).
Proof. split; auto. Qed.

Lemma scan_keepsManual : respects keepsManual scanSelection.
Proof.
  apply scanSelection_respects.
  - apply keepsManual_refl.
  - apply keepsManual_trans.
  - apply keepsManual_emit.
  - intros. apply keepsManual_set, isManual_not_nodeKey.
  - intros. apply keepsManual_set, isManual_not_original.
Qed.

Lemma store_keepsManual data : respects keepsManual (handleStoreTranslations data).
Proof.
  apply handleStoreTranslations_respects.
  - apply keepsManual_refl.
  - apply keepsManual_trans.
  - intros. apply keepsManual_set, isManual_not_translation.
Qed.

Lemma preview_keepsManual translations language :
  respects keepsManual (handlePreviewTranslation translations language).
Proof.
  apply handlePreviewTranslation_respects.
  - apply keepsManual_refl.
  - apply keepsManual_trans.
  - apply keepsManual_emit.
  - apply keepsManual_chars.
  - intros. apply keepsManual_set, isManual_not_original.
Qed.

Lemma revert_keepsManual : respects keepsManual handleRevertPreview.
Proof.
  apply handleRevertPreview_respects.
  - apply keepsManual_refl.
  - apply keepsManual_trans.
  - apply keepsManual_emit.
  - apply keepsManual_chars.
Qed.

(** [apply] changes nothing that is stored for an identifier in use. *)
Lemma apply_keepsOld translations language st :
  let st' := snd (handleApplyTranslation translations language st) in
  nextId st <= nextId st'
  /\ forall i, i < nextId st ->
       chars st' !! i = chars st !! i /\ pdata st' !! i = pdata st !! i.
Proof.
  cbv zeta. destruct (selection st) as [|j sel] eqn:Es.
  { rewrite (applyWithoutSelection_run st translations language Es). simpl. auto. }
  set (st1 := emit (Notify ("Creating " +:+ Js.toUpperCase language +:+ " copy...") false) st).
  pose proof (cloneLoop_keepsBelow (nextId st) translations language (selection st) [] st1)
    as Hk.
  destruct (handleApplyTranslation_cases translations language st)
    as [(clones & st2 & Hloop & ->)|(e & st2 & Hloop & ->)]; [by rewrite Es| |];
    fold st1 in Hloop; rewrite Hloop in Hk;
    (destruct Hk as (Hn & _ & _ & _ & _ & Hd & _); [simpl; lia|]);
    simpl in *; split; auto.
Qed.

Lemma getPluginData_lookup st st' i k :
  pdata st' !! i = pdata st !! i -> getPluginData st' i k = getPluginData st i k.
Proof. intros H. unfold getPluginData. by rewrite H. Qed.

Lemma apply_keepsManual translations language :
  respects keepsManual (handleApplyTranslation translations language).
Proof.
  intros st. destruct (apply_keepsOld translations language st) as [Hn Hd].
  split; [done|]. intros i lang Hi. apply getPluginData_lookup. by apply Hd.
Qed.

Lemma updateManual_run st i lang text :
  handleUpdateManualTranslation i lang text st
  = match getNodeById st i with
    | Some _ =>
        (Returned tt,
         setPluginData i ("isManual-" +:+ lang) "true"
           (setPluginData i ("translation-" +:+ lang) text st))
    | None => (Returned tt, st)
    end.
Proof.
  cbv beta iota zeta delta [handleUpdateManualTranslation bind getNodeByIdAsync get ret modify].
  destruct (getNodeById st i) as [n|] eqn:E; [|done].
  by rewrite (getNodeById_baseId st i n E).
Qed.

Lemma updateManual_keepsManualSet i lang text :
  respects keepsManualSet (handleUpdateManualTranslation i lang text).
Proof.
  intros st. rewrite updateManual_run.
  destruct (getNodeById st i); [|apply keepsManualSet_refl].
  split; [done|]. intros j lang' _ Ht. unfold manualOverrideOf in *. simpl.
  rewrite getPluginData_set. case_decide; [done|].
  rewrite getPluginData_set_ne; [done|]. right. apply isManual_not_translation.
Qed.

Lemma step_keepsManual st msg :
  ~ isClear msg -> ~ isUpdateManual msg -> keepsManual st (step st msg).
Proof.
  intros Hc Hu. destruct msg; simpl in Hc, Hu; try tauto.
  - change (step st Scan)
      with (snd (scanSelection (emit (Notify "Scanning design for text..." false) st))).
    eapply keepsManual_trans; [apply keepsManual_emit|apply scan_keepsManual].
  - apply apply_keepsManual.
  - apply store_keepsManual.
  - apply preview_keepsManual.
  - apply revert_keepsManual.
  - apply keepsManual_refl.
Qed.

Lemma step_keepsManualSet st msg : ~ isClear msg -> keepsManualSet st (step st msg).
Proof.
  intros Hc. destruct msg;
    try (apply keepsManual_weaken, step_keepsManual; [done|by simpl]).
  apply updateManual_keepsManualSet.
Qed.

Lemma run_keepsManualSet msgs st :
  Forall (fun msg => ~ isClear msg) msgs -> keepsManualSet st (run msgs st).
Proof.
  revert st. induction msgs as [|m msgs IH]; intros st Hall; cbn [run fold_left].
  - apply keepsManualSet_refl.
  - inversion Hall; subst. eapply keepsManualSet_trans.
    + by apply step_keepsManualSet.
    + by apply IH.
Qed.

(** C7 as stated fails: not only [update-manual-translation] makes a flag
    read [true].  [apply] duplicates the selected nodes with their plugin
    data, so the copy of a text with a manual French translation is a new
    element (7) whose flag is set although no [update-manual-translation]
    ever named it. *)
Lemma copy_starts_with_manual_flag :
  let st := step Demo.scannedOnce (UpdateManualTranslation 3 "fr" "Envoyer") in
  let msg := ApplyTranslationMsg Demo.french "fr" in
  ~ isUpdateManual msg
  /\ ~ In 7 (allIds st)
  /\ manualOverrideOf st 7 "fr" = ""
  /\ In 7 (map id (pageNodes (currentPage (step st msg))))
  /\ manualOverrideOf (step st msg) 7 "fr" = "true".
Proof.
  cbv zeta. split; [intros H; exact H|].
  split; [vm_compute; intuition discriminate|].
  split; [vm_compute; reflexivity|].
  split; [vm_compute; auto 10|].
  vm_compute. reflexivity.
Qed.

(** C7, amended.  Once the manual-override flag of an element that exists
    (its identifier has been handed out) is set for a language, it stays
    set through every sequence of messages that contains no
    [clear-storage]: scan, preview, store-translations,
    update-manual-translation, apply, and also revert and close.  On an
    element that exists when a message arrives, no message other than
    [update-manual-translation] and [clear-storage] changes the flag at
    all; [update-manual-translation] sets it for the element it names, and
    [clear-storage] resets it for every node of the page and each of the
    four languages.  The stored translation may change meanwhile. *)
Theorem manualOverride_monotone :
  (forall st msgs i lang,
      i < nextId st ->
      Forall (fun msg => ~ isClear msg) msgs ->
      manualOverrideOf st i lang = "true" ->
      manualOverrideOf (run msgs st) i lang = "true")
  /\ (forall st msg i lang,
        i < nextId st -> ~ isClear msg -> ~ isUpdateManual msg ->
        manualOverrideOf (step st msg) i lang = manualOverrideOf st i lang)
  /\ (forall st i lang text,
        getNodeById st i <> None ->
        manualOverrideOf (step st (UpdateManualTranslation i lang text)) i lang = "true"
        /\ translationOf (step st (UpdateManualTranslation i lang text)) i lang = text)
  /\ (forall st n lang,
        In n (pageNodes (currentPage st)) -> In lang languages ->
        manualOverrideOf (step st ClearStorage) (id n) lang = "").
Proof.
  split; [|split; [|split]].
  - intros st msgs i lang Hi Hall Ht.
    destruct (run_keepsManualSet msgs st Hall) as [_ H]. by apply H.
  - intros st msg i lang Hi Hc Hu.
    destruct (step_keepsManual st msg Hc Hu) as [_ H]. by apply H.
  - intros st i lang text Hres. unfold step, onmessage. rewrite updateManual_run.
    destruct (getNodeById st i); [|done]. simpl.
    unfold manualOverrideOf, translationOf. split.
    + apply getPluginData_set_eq.
    + rewrite getPluginData_set_ne
        by (right; intros E; symmetry in E; by apply isManual_not_translation in E).
      apply getPluginData_set_eq.
  - intros st n lang Hn Hl.
    destruct (clearStorage_spec st n Hn) as (_ & Hclr & _).
    apply Hclr. right. right. exists lang. auto.
Qed.

(** The example document: the button text gets a manual French
    translation, then is scanned, given another stored translation,
    previewed and applied; the flag is still set. *)
Lemma manualOverride_monotone_witness :
  manualOverrideOf
    (run [Scan; StoreTranslations [("fr", [(3, "Valider")])];
          PreviewTranslation Demo.french "fr"; ApplyTranslationMsg Demo.french "fr"]
       (step Demo.scannedOnce (UpdateManualTranslation 3 "fr" "Envoyer"))) 3 "fr"
  = "true".
Proof.
  destruct manualOverride_monotone as (H & _).
  apply H.
  - vm_compute. lia.
  - repeat constructor; simpl; tauto.
  - reflexivity.
Defined.

End ManualOverride.

(* ===================================================================== *)
(** ** What [apply] writes on the copies *)
(* ===================================================================== *)

Section ApplyCore.


Lemma characters_lookup st st' i :
  chars st' !! i = chars st !! i -> characters st' i = characters st i.
Proof. intros H. unfold characters. by rewrite H. Qed.

(** The items match the same keys as long as what is stored for their
    identifiers and the resolution of these is kept. *)
Lemma itemMatchesb_stable b st0 st key t :
  keepsBelow b st0 st -> b <= nextId st0 -> t_id t < b ->
  itemMatchesb st key t = itemMatchesb st0 key t.
Proof.
  intros Hk Hb Ht. destruct (Hk Hb) as (_ & _ & _ & _ & _ & Hd & Ha).
  unfold itemMatchesb.
  destruct (getNodeById st (t_id t)) as [o|] eqn:E, (getNodeById st0 (t_id t)) as [o0|] eqn:E0.
  - rewrite (getNodeById_baseId _ _ _ E), (getNodeById_baseId _ _ _ E0).
    rewrite (getPluginData_lookup st0 st); [done|]. by apply Hd.
  - exfalso. assert (H : getNodeById st (t_id t) <> None) by (by rewrite E).
    apply getNodeById_resolves, Ha, getNodeById_resolves in H; auto.
  - exfalso. assert (H : getNodeById st0 (t_id t) <> None) by (by rewrite E0).
    apply getNodeById_resolves, Ha, getNodeById_resolves in H; auto.
  - done.
Qed.

Lemma find_ext {A} (f g : A -> bool) l :
  (forall x, In x l -> f x = g x) -> find f l = find g l.
Proof.
  induction l as [|x l IH]; intros H; simpl; [done|].
  rewrite (H x) by (by left). destruct (g x); [done|].
  apply IH. intros y Hy. apply H. by right.
Qed.


(** The inner loop stops at the first matching item. *)
Lemma matchLoop_run leaf key language translations st :
  matchLoop leaf key language translations st
  = match find (itemMatchesb st key) translations with
    | Some t =>
        if canLoad st (fontName leaf)
        then (Returned tt,
              setPluginData (id leaf) ("translation-" +:+ language) (translatedText t)
                (setCharacters (id leaf) (translatedText t) st))
        else (Thrown fontError, st)
    | None => (Returned tt, st)
    end.
Proof.
  induction translations as [|t rest IH]; [done|].
  cbn [matchLoop find]. unfold itemMatchesb at 1.
  cbv beta iota zeta delta [bind getNodeByIdAsync get ret].
  destruct (getNodeById st (t_id t)) as [o|]; [|exact IH].
  destruct (String.eqb _ _); [|exact IH].
  cbv beta iota zeta delta [loadFontAsync modify].
  by destruct (canLoad st (fontName leaf)).
Qed.

Lemma translateLeaf_run translations language leaf st :
  translateLeaf translations language leaf st
  = if Js.truthy (nodeKeyOf st (id leaf))
    then matchLoop leaf (nodeKeyOf st (id leaf)) language translations st
    else (Returned tt, st).
Proof.
  unfold translateLeaf, nodeKeyOf, bind, get, ret.
  by destruct (Js.truthy _).
Qed.

Lemma nodeKey_not_translation language : "translation-" +:+ language <> "nodeKey".
Proof. cbv [String.append]. discriminate. Qed.

Lemma onlyAt_refl i st : onlyAt i st st.
Proof. by repeat split. Qed.

(** A leaf is translated by [translateLeaf] when that returns, and other
    identifiers are left alone whether it returns or not. *)
Lemma translateLeaf_spec st0 translations language leaf st :
  (forall t key, In t translations -> itemMatchesb st key t = itemMatchesb st0 key t) ->
  onlyAt (id leaf) st (snd (translateLeaf translations language leaf st))
  /\ (fst (translateLeaf translations language leaf st) = Returned tt ->
      translated st0 translations language
        (snd (translateLeaf translations language leaf st)) (id leaf)).
Proof.
  intros Hstable. rewrite translateLeaf_run.
  destruct (Js.truthy (nodeKeyOf st (id leaf))) eqn:Hkey.
  2:{ split; [apply onlyAt_refl|]. intros _ Hne. simpl in Hne.
      apply truthy_spec in Hne. congruence. }
  rewrite matchLoop_run.
  rewrite (find_ext (itemMatchesb st (nodeKeyOf st (id leaf)))
             (itemMatchesb st0 (nodeKeyOf st (id leaf)))) by (intros; by apply Hstable).
  destruct (find _ translations) as [t|] eqn:Hfind.
  - destruct (canLoad st (fontName leaf)); [|split; [apply onlyAt_refl|done]].
    cbn [fst snd]. split.
    + repeat split; auto; simpl; rewrite lookup_insert_ne; auto.
    + intros _.
      assert (Hk : nodeKeyOf
                (setPluginData (id leaf) ("translation-" +:+ language) (translatedText t)
                   (setCharacters (id leaf) (translatedText t) st)) (id leaf)
              = nodeKeyOf st (id leaf)).
      { unfold nodeKeyOf. rewrite getPluginData_set_ne; [done|].
        right. apply nodeKey_not_translation. }
      intros Hne t'. rewrite Hk, Hfind. intros [= <-]. split.
      * unfold characters. simpl. by rewrite lookup_insert_eq.
      * unfold translationOf. apply getPluginData_set_eq.
  - cbn [fst snd]. split; [apply onlyAt_refl|]. intros _ Hne t'. by rewrite Hfind.
Qed.

Lemma translated_ext st0 translations language st st' i :
  chars st' !! i = chars st !! i -> pdata st' !! i = pdata st !! i ->
  translated st0 translations language st i ->
  translated st0 translations language st' i.
Proof.
  intros Hc Hp Ht. unfold translated, nodeKeyOf, translationOf in *.
  rewrite !(getPluginData_lookup st st') by done.
  rewrite (characters_lookup st st') by done. exact Ht.
Qed.


Lemma translateLeaf_page translations language leaf st :
  onlyAt (id leaf) st (snd (translateLeaf translations language leaf st)).
Proof.
  rewrite translateLeaf_run. destruct (Js.truthy _); [|apply onlyAt_refl].
  rewrite matchLoop_run. destruct (find _ _); [|apply onlyAt_refl].
  destruct (canLoad _ _); [|apply onlyAt_refl].
  repeat split; auto; simpl; rewrite lookup_insert_ne; auto.
Qed.

(** The loop over the text leaves of one copy. *)
Lemma translateLeaves_spec st0 b translations language leaves st :
  b <= nextId st0 ->
  (forall t, In t translations -> t_id t < b) ->
  (forall leaf, In leaf leaves -> b <= id leaf) ->
  keepsBelow b st0 st ->
  let r := forEach (translateLeaf translations language) leaves st in
  currentPage (snd r) = currentPage st /\ otherPages (snd r) = otherPages st
  /\ nextId (snd r) = nextId st
  /\ (forall j, (forall leaf, In leaf leaves -> id leaf <> j) ->
        chars (snd r) !! j = chars st !! j /\ pdata (snd r) !! j = pdata st !! j)
  /\ (fst r = Returned tt ->
      forall leaf, In leaf leaves -> translated st0 translations language (snd r) (id leaf)).
Proof.
  intros Hb Hitems. revert st.
  induction leaves as [|leaf rest IH]; intros st Hleaves Hk; cbv zeta.
  { simpl. do 4 (split; [by auto|]). intros _ x []. }
  cbn [forEach]. unfold bind.
  destruct (translateLeaf_spec st0 translations language leaf st) as [Hat Hdone].
  { intros t key Ht. eapply itemMatchesb_stable; eauto. }
  pose proof (translateLeaf_keepsBelow b translations language leaf
                (Hleaves leaf (or_introl eq_refl)) st) as Hk1.
  destruct (translateLeaf translations language leaf st) as [[[]|e] st1] eqn:E;
    cbn [fst snd] in *.
  2:{ destruct Hat as (H1 & H2 & H3 & H4).
      do 3 (split; [done|]). split; [|done].
      intros j Hj. apply H4. intros ->. by apply (Hj leaf); [left|]. }
  destruct (IH st1) as (G1 & G2 & G3 & G4 & G5).
  { intros l Hl. apply Hleaves. by right. }
  { eapply keepsBelow_trans; eauto. }
  destruct Hat as (H1 & H2 & H3 & H4).
  split; [congruence|]. split; [congruence|]. split; [congruence|]. split.
  - intros j Hj.
    destruct (G4 j) as [E1 E2]; [intros l Hl; apply Hj; by right|].
    destruct (H4 j) as [E3 E4]; [intros ->; by apply (Hj leaf); [left|]|].
    split; congruence.
  - intros Hret l [<-|Hl]; [|by apply G5].
    destruct (in_dec Nat.eq_dec (id leaf) (map id rest)) as [Hin|Hnot].
    + apply in_map_iff in Hin as (l' & <- & Hl'). by apply G5.
    + destruct (G4 (id leaf)) as [E1 E2].
      { intros l Hl Heq. apply Hnot. rewrite <- Heq. by apply in_map. }
      eapply translated_ext; [exact E1|exact E2|]. by apply Hdone.
Qed.

Lemma in_allIds_pageNode st n :
  In n (pageNodes (currentPage st)) -> In (id n) (allIds st).
Proof. intros H. apply in_allIds. right. right. left. by apply in_map. Qed.



End ApplyCore.

(* ===================================================================== *)
(** ** When [apply] completes *)
(* ===================================================================== *)

Section ApplyCompletes.

Lemma relabel_kinds n :
  forall next, map kind (nodes (fst (relabel n next))) = map kind (nodes n).
Proof.
  induction n as [i ty nm v f cs IH] using SceneNode_forall_ind.
  intros next. rewrite relabel_unfold.
  assert (Hlist : forall k,
            map kind (flat_map nodes (fst (relabelList cs k)))
            = map kind (flat_map nodes cs)).
  { clear next. induction IH as [|c r Hc _ IHr]; intros k; simpl; [done|].
    specialize (Hc k). destruct (relabel c k) as [c' k1]. simpl in Hc.
    specialize (IHr k1). destruct (relabelList r k1) as [r' k2]. simpl in *.
    by rewrite !map_app, Hc, IHr. }
  specialize (Hlist (S next)).
  destruct (relabelList cs (S next)) as [cs' next']. simpl in *.
  destruct (hasChildren ty); [|done]. by rewrite Hlist.
Qed.


Lemma nodes_trans c n m : In n (nodes c) -> In m (nodes n) -> In m (nodes c).
Proof.
  induction c as [i ty nm v f cs IH] using SceneNode_forall_ind.
  cbn [nodes]. intros [<-|Hn] Hm; [exact Hm|].
  destruct (hasChildren ty); [|destruct Hn]. right.
  apply in_flat_map in Hn as (x & Hx & Hn). apply in_flat_map. exists x.
  split; [done|]. rewrite Forall_forall in IH. apply IH; auto. by apply list_elem_of_In.
Qed.

Lemma pageNodes_trans p n m : In n (pageNodes p) -> In m (nodes n) -> In m (pageNodes p).
Proof.
  unfold pageNodes. rewrite !in_flat_map. intros (c & Hc & Hn) Hm.
  exists c. split; [done|]. by eapply nodes_trans.
Qed.





Lemma findOnPage_in p i n : findOnPage p i = Some n -> In n (pageNodes p).
Proof. intros H. by apply find_some in H as [H _]. Qed.



End ApplyCompletes.

(* ===================================================================== *)
(** ** [apply]: the claims about the copies *)
(* ===================================================================== *)

Section ApplyClaims.

Lemma find_exists {A} (f : A -> bool) l x :
  In x l -> f x = true -> exists y, find f l = Some y.
Proof.
  induction l as [|a l IH]; intros Hin Hx; [destruct Hin|]. simpl.
  destruct (f a) eqn:Ha; [by eexists|].
  destruct Hin as [->|Hin]; [congruence|]. by apply IH.
Qed.







(** *** The example document

    After the first scan the button frame (2) is selected and [apply] runs
    with the French items: the copy is the frame 6 with the text leaf 7. *)

Lemma demo_freshIds : freshIds Demo.scannedOnce.
Proof.
  intros i Hi. vm_compute in Hi.
  repeat (destruct Hi as [<-|Hi]); try destruct Hi; vm_compute; lia.
Qed.

Lemma demo_items : forall t, In t Demo.french -> t_id t < nextId Demo.scannedOnce.
Proof.
  intros t Ht. simpl in Ht.
  repeat (destruct Ht as [<-|Ht]); try destruct Ht; vm_compute; lia.
Qed.

Example apply_leaves_other_keys :
  let st' := snd (handleApplyTranslation [mkTranslation 3 "Envoyer"] "fr"
                    (withSelection [1] Demo.scannedOnce)) in
  selection st' = [6]
  /\ map id (pageNodes (currentPage st')) = [1; 2; 3; 4; 5; 6; 7; 8; 9; 10]
  /\ characters st' 8 = "Envoyer"
  /\ characters st' 9 = "Welcome back, user!"
  /\ characters st' 3 = "Submit".
Proof. by vm_compute. Qed.



End ApplyClaims.

(* ===================================================================== *)
(** ** What a scan reports and writes *)
(* ===================================================================== *)

Section ScanReports.

Lemma storedTranslations_ext st st' i :
  (forall lang, getPluginData st' i ("translation-" +:+ lang)
                = getPluginData st i ("translation-" +:+ lang)) ->
  storedTranslations st' i = storedTranslations st i.
Proof.
  intros H. unfold storedTranslations.
  induction languages as [|lang l IH]; simpl; [done|]. by rewrite H, IH.
Qed.

Lemma manualFlags_ext st st' i :
  (forall lang, getPluginData st' i ("isManual-" +:+ lang)
                = getPluginData st i ("isManual-" +:+ lang)) ->
  manualFlags st' i = manualFlags st i.
Proof.
  intros H. unfold manualFlags. apply list_filter_iff. intros lang. by rewrite H.
Qed.

Lemma nodeKey_not_isManual lang : "isManual-" +:+ lang <> "nodeKey".
Proof. cbv [String.append]. discriminate. Qed.

Lemma original_not_isManual lang : "isManual-" +:+ lang <> "originalText".
Proof. cbv [String.append]. discriminate. Qed.

(** [scanWrite] touches the two keys of a scan, for the node's identifier
    only. *)
Lemma scanWrite_other node st i k :
  id node <> i \/ (k <> "nodeKey" /\ k <> "originalText") ->
  getPluginData (scanWrite node st) i k = getPluginData st i k.
Proof.
  intros H. unfold scanWrite. destruct (recordedNode st node); [|done].
  rewrite getPluginData_set_ne by (destruct H as [H|[H _]]; auto).
  destruct (Js.truthy _); [done|].
  apply getPluginData_set_ne. destruct H as [H|[_ H]]; auto.
Qed.

Lemma scanWrite_keeps node st :
  chars (scanWrite node st) = chars st /\ keepsTree st (scanWrite node st)
  /\ outbox (scanWrite node st) = outbox st.
Proof.
  unfold scanWrite. destruct (recordedNode st node); [|by repeat split].
  destruct (Js.truthy _); by repeat split.
Qed.

(** One iteration of the scan loop. *)
Lemma scanNode_run node results st :
  scanNode node results st
  = (Returned (results ++ if recordedNode st node then [scanRecord st node] else []),
     scanWrite node st).
Proof.
  unfold scanNode, scanWrite, recordedNode, originalTextOf.
  cbv beta iota zeta delta [bind get ret modify].
  destruct (negb (Js.truthy (characters st (id node))) || Js.isBlank (characters st (id node)));
    cbn [negb]; [by rewrite app_nil_r|].
  assert (Hrec : forall s,
    (forall k, k <> "nodeKey" -> k <> "originalText" ->
               getPluginData s (id node) k = getPluginData st (id node) k) ->
    mkScanResult (id node) (characters st (id node))
      (getScreenName (currentPage st) node +:+ "." +:+ getContext (currentPage st) node
         +:+ "." +:+ slugify (characters st (id node)))
      (getContext (currentPage st) node)
      (storedTranslations s (id node)) (manualFlags s (id node))
    = scanRecord st node).
  { intros s Hs. unfold scanRecord, keyFor. f_equal.
    - apply storedTranslations_ext. intros lang.
      apply Hs; [apply nodeKey_not_translation|apply translation_key_not_original].
    - apply manualFlags_ext. intros lang.
      apply Hs; [apply nodeKey_not_isManual|apply original_not_isManual]. }
  destruct (Js.truthy (getPluginData st (id node) "originalText")); cbn [negb];
    cbv beta iota; rewrite Hrec; try done.
  - intros k Hk _. apply getPluginData_set_ne. auto.
  - intros k Hk Ho. rewrite !getPluginData_set_ne; auto.
Qed.

Lemma keyFor_scanWrite node st n : keyFor (scanWrite node st) n = keyFor st n.
Proof.
  destruct (scanWrite_keeps node st) as (Hc & (Hp & _) & _).
  unfold keyFor, characters. by rewrite Hc, Hp.
Qed.

Lemma recordedNode_ext st st' n :
  chars st' = chars st -> recordedNode st' n = recordedNode st n.
Proof. intros Hc. unfold recordedNode, characters. by rewrite Hc. Qed.

Lemma scanRecord_scanWrite node st n : scanRecord (scanWrite node st) n = scanRecord st n.
Proof.
  destruct (scanWrite_keeps node st) as (Hc & (Hp & _) & _).
  unfold scanRecord. rewrite keyFor_scanWrite, Hp. unfold characters. rewrite Hc.
  f_equal.
  - apply storedTranslations_ext. intros lang. apply scanWrite_other. right.
    split; [apply nodeKey_not_translation|apply translation_key_not_original].
  - apply manualFlags_ext. intros lang. apply scanWrite_other. right.
    split; [apply nodeKey_not_isManual|apply original_not_isManual].
Qed.

(** The scan loop: the records are those of the state it starts in, the
    writes are those of its iterations. *)
Lemma scanLoop_run textNodes results st :
  scanLoop textNodes results st
  = (Returned (results ++ map (scanRecord st) (List.filter (recordedNode st) textNodes)),
     fold_left (fun s node => scanWrite node s) textNodes st).
Proof.
  revert results st. induction textNodes as [|node rest IH]; intros results st.
  { simpl. unfold ret. by rewrite app_nil_r. }
  cbn [scanLoop fold_left]. unfold bind. rewrite scanNode_run, IH.
  destruct (scanWrite_keeps node st) as (Hc & _).
  f_equal. rewrite <- app_assoc. f_equal. f_equal.
  rewrite (filter_ext _ _ (fun n => recordedNode_ext st (scanWrite node st) n Hc)).
  rewrite (map_ext _ _ (scanRecord_scanWrite node st)).
  cbn [List.filter]. by destruct (recordedNode st node).
Qed.

(** Loading the fonts of the collected nodes never fails and changes
    nothing: each failure is caught. *)
Lemma preloadFonts_run textNodes st : preloadFonts textNodes st = (Returned tt, st).
Proof.
  unfold preloadFonts, tryCatch.
  assert (H : forall fs : list (string * FontName),
    forEach (fun kf => tryCatch (loadFontAsync (Some (snd kf))) (fun _ => ret tt)) fs st
    = (Returned tt, st)).
  { induction fs as [|kf fs IH]; [done|].
    cbn [forEach]. unfold bind at 1.
    assert (Hone : tryCatch (loadFontAsync (Some (snd kf))) (fun _ => ret tt) st
                   = (Returned tt, st)).
    { unfold tryCatch, loadFontAsync. by destruct (canLoad st _). }
    by rewrite Hone. }
  by rewrite H.
Qed.

Lemma fold_scanWrite_keeps textNodes st :
  chars (fold_left (fun s node => scanWrite node s) textNodes st) = chars st
  /\ keepsTree st (fold_left (fun s node => scanWrite node s) textNodes st)
  /\ outbox (fold_left (fun s node => scanWrite node s) textNodes st) = outbox st.
Proof.
  revert st. induction textNodes as [|node rest IH]; intros st; cbn [fold_left].
  { by repeat split. }
  destruct (IH (scanWrite node st)) as (Hc & (H1 & H2 & H3 & H4 & H5) & Ho).
  destruct (scanWrite_keeps node st) as (Hc' & (G1 & G2 & G3 & G4 & G5) & Ho').
  repeat split; congruence.
Qed.

(** The whole handler of a [scan] message. *)
Lemma scan_run st :
  onmessage Scan st
  = (Returned tt,
     emit (PostMessage (ScanResults (map (scanRecord st) (recorded st))))
       (fold_left (fun s node => scanWrite node s) (scanTargets st)
          (emit (Notify "Scanning design for text..." false) st))).
Proof.
  unfold onmessage. unfold bind at 1. unfold notify at 1, modify at 1.
  set (st0 := emit _ st).
  unfold scanSelection. unfold bind at 1, get at 1.
  change (scanTargets st0) with (scanTargets st).
  unfold bind at 1. rewrite preloadFonts_run.
  unfold bind at 1. rewrite scanLoop_run. unfold postMessage, modify.
  unfold recorded. cbn [app].
  rewrite (filter_ext (recordedNode st0) (recordedNode st)) by done.
  by rewrite (map_ext (scanRecord st0) (scanRecord st)).
Qed.


Lemma step_scan_run st :
  step st Scan
  = emit (PostMessage (ScanResults (map (scanRecord st) (recorded st))))
      (fold_left (fun s node => scanWrite node s) (scanTargets st)
         (emit (Notify "Scanning design for text..." false) st)).
Proof. unfold step. by rewrite scan_run. Qed.

Lemma scan_events st :
  newEvents st (step st Scan)
  = [Notify "Scanning design for text..." false;
     PostMessage (ScanResults (map (scanRecord st) (recorded st)))].
Proof.
  apply newEvents_app. rewrite step_scan_run. cbn [emit outbox].
  destruct (fold_scanWrite_keeps (scanTargets st)
              (emit (Notify "Scanning design for text..." false) st)) as (_ & _ & Ho).
  rewrite Ho. cbn [emit outbox]. by rewrite <- app_assoc.
Qed.

(** *** What [traverse] collects *)

Lemma traverse_sound node n :
  In n (traverse node) ->
  In n (nodes node) /\ isText (type n) = true /\ visible n = true.
Proof.
  revert n. induction node as [i ty nm v f cs IH] using SceneNode_forall_ind.
  intros n. cbn [traverse].
  destruct v; cbn [negb]; [|intros []].
  destruct (isText ty) eqn:Ht.
  { intros [<-|[]]. split; [apply nodes_self|done]. }
  destruct (hasChildren ty) eqn:Hc; [|intros []].
  intros Hn. apply in_flat_map in Hn as (c & Hc' & Hn).
  rewrite List.Forall_forall in IH. destruct (IH c Hc' n Hn) as (H1 & H2 & H3).
  split; [|done]. cbn [nodes]. rewrite Hc. right. apply in_flat_map. eauto.
Qed.

Lemma scanTargets_sound st n :
  In n (scanTargets st) ->
  In n (pageNodes (currentPage st)) /\ isText (type n) = true /\ visible n = true.
Proof.
  unfold scanTargets. destruct (selection st) as [|i sel] eqn:Hsel.
  - intros Hn. apply in_flat_map in Hn as (c & Hc & Hn).
    apply traverse_sound in Hn as (H1 & H2 & H3). split; [|done].
    eapply in_pageNodes_child; eauto.
  - intros Hn. apply in_flat_map in Hn as (j & _ & Hn).
    destruct (findOnPage (currentPage st) j) as [node|] eqn:Hf; [|destruct Hn].
    apply traverse_sound in Hn as (H1 & H2 & H3). split; [|done].
    eapply pageNodes_trans; [|exact H1]. by eapply findOnPage_in.
Qed.

Lemma recordedNode_spec st node :
  recordedNode st node = true <-> Js.isBlank (characters st (id node)) = false.
Proof.
  unfold recordedNode. destruct (characters st (id node)) as [|c s]; [by cbn|].
  cbn [Js.truthy negb orb]. by destruct (Js.isBlank (String c s)).
Qed.

Lemma in_recorded st node :
  In node (recorded st) <->
  In node (scanTargets st) /\ Js.isBlank (characters st (id node)) = false.
Proof. unfold recorded. rewrite filter_In. by rewrite recordedNode_spec. Qed.

(** *** Keys depend on the identifier only *)

Lemma keyFor_id st n n' : id n = id n' -> keyFor st n = keyFor st n'.
Proof. intros H. unfold keyFor, getScreenName, getContext. by rewrite H. Qed.

Lemma recordedNode_id st n n' : id n = id n' -> recordedNode st n = recordedNode st n'.
Proof. intros H. unfold recordedNode. by rewrite H. Qed.

Lemma append_nonempty a b : b <> "" -> a +:+ b <> "".
Proof.
  intros Hb. destruct a as [|c a]; [exact Hb|]. cbv [String.append]. discriminate.
Qed.

Lemma keyFor_nonempty st n : keyFor st n <> "".
Proof.
  unfold keyFor. apply append_nonempty. cbv [String.append]. discriminate.
Qed.

Lemma scanWrite_nodeKey node st :
  recordedNode st node = true ->
  nodeKeyOf (scanWrite node st) (id node) = keyFor st node.
Proof.
  intros H. unfold scanWrite, nodeKeyOf. rewrite H. apply getPluginData_set_eq.
Qed.

Lemma fold_scanWrite_snoc l x st :
  fold_left (fun s node => scanWrite node s) (l ++ [x]) st
  = scanWrite x (fold_left (fun s node => scanWrite node s) l st).
Proof. by rewrite fold_left_app. Qed.

Lemma fold_scanWrite_nodeKey l st node :
  In node l -> recordedNode st node = true ->
  nodeKeyOf (fold_left (fun s n => scanWrite n s) l st) (id node) = keyFor st node.
Proof.
  induction l as [|x l IH] using rev_ind; [intros []|].
  intros Hin Hrec. rewrite fold_scanWrite_snoc.
  set (s := fold_left _ l st).
  destruct (fold_scanWrite_keeps l st) as (Hc & (Hp & _) & _). fold s in Hc, Hp.
  assert (Hk : forall n, keyFor s n = keyFor st n).
  { intros n. unfold keyFor, characters. by rewrite Hc, Hp. }
  destruct (decide (id x = id node)) as [E|E].
  - rewrite <- E. rewrite scanWrite_nodeKey.
    + rewrite Hk. by apply keyFor_id.
    + rewrite (recordedNode_ext st s x Hc). by rewrite (recordedNode_id st x node).
  - unfold nodeKeyOf. rewrite scanWrite_other by (by left).
    apply IH; [|done]. apply in_app_or in Hin as [Hin|[Hx|[]]]; [done|]. exfalso. apply E. by rewrite Hx.
Qed.

Lemma scanWrite_lookup node st i :
  id node <> i \/ recordedNode st node = false ->
  pdata (scanWrite node st) !! i = pdata st !! i.
Proof.
  unfold scanWrite. intros [H|H].
  - destruct (recordedNode st node); [|done].
    unfold setPluginData at 1. cbn [pdata withPdata]. rewrite lookup_insert_ne by done.
    destruct (Js.truthy _); [done|].
    unfold setPluginData. cbn [pdata withPdata]. by rewrite lookup_insert_ne.
  - by rewrite H.
Qed.

Lemma fold_scanWrite_lookup l st i :
  (forall node, In node l -> recordedNode st node = true -> id node <> i) ->
  pdata (fold_left (fun s n => scanWrite n s) l st) !! i = pdata st !! i.
Proof.
  induction l as [|x l IH] using rev_ind; [done|].
  intros H. rewrite fold_scanWrite_snoc.
  destruct (fold_scanWrite_keeps l st) as (Hc & _).
  rewrite scanWrite_lookup.
  - apply IH. intros node Hn. apply H. apply in_or_app. by left.
  - rewrite (recordedNode_ext st _ x Hc).
    destruct (recordedNode st x) eqn:Hr; [left|by right].
    apply H; [|done]. apply in_or_app. right. by left.
Qed.

Lemma fold_scanWrite_other l st i k :
  k <> "nodeKey" -> k <> "originalText" ->
  getPluginData (fold_left (fun s n => scanWrite n s) l st) i k = getPluginData st i k.
Proof.
  intros H1 H2. revert st. induction l as [|x l IH]; intros st; cbn [fold_left]; [done|].
  rewrite IH. apply scanWrite_other. by right.
Qed.

(** Writing the value a field already holds changes nothing. *)
Lemma setPluginData_same i k v st :
  getPluginData st i k = v -> v <> "" -> setPluginData i k v st = st.
Proof.
  unfold getPluginData, setPluginData. intros H Hv.
  destruct (pdata st !! i) as [d|] eqn:Hd.
  - change (default ∅ (Some d)) with d in *.
    destruct (d !! k) as [w|] eqn:Hk.
    + change (default "" (Some w)) with w in H. subst w.
      rewrite (insert_id d k v Hk), (insert_id (pdata st) i d Hd). by destruct st.
    + change (default "" None) with "" in H. congruence.
  - change (default ∅ None) with (∅ : gmap string string) in H.
    rewrite lookup_empty in H. change (default "" None) with "" in H. congruence.
Qed.

Lemma scanWrite_settled node st :
  (recordedNode st node = true ->
   nodeKeyOf st (id node) = keyFor st node /\ originalTextOf st (id node) <> "") ->
  scanWrite node st = st.
Proof.
  intros H. unfold scanWrite. destruct (recordedNode st node); [|done].
  destruct H as [Hk Ho]; [done|].
  apply truthy_spec in Ho. rewrite Ho. apply setPluginData_same; [done|].
  apply keyFor_nonempty.
Qed.

Lemma fold_scanWrite_settled l st :
  (forall node, In node l -> recordedNode st node = true ->
     nodeKeyOf st (id node) = keyFor st node /\ originalTextOf st (id node) <> "") ->
  fold_left (fun s n => scanWrite n s) l st = st.
Proof.
  induction l as [|x l IH]; intros H; cbn [fold_left]; [done|].
  rewrite scanWrite_settled by (apply H; by left).
  apply IH. intros node Hn. apply H. by right.
Qed.

Lemma scanRecord_ext st st' n :
  chars st' = chars st -> currentPage st' = currentPage st ->
  (forall k, k <> "nodeKey" -> k <> "originalText" ->
     getPluginData st' (id n) k = getPluginData st (id n) k) ->
  scanRecord st' n = scanRecord st n.
Proof.
  intros Hc Hp Hk. unfold scanRecord, keyFor, characters. rewrite Hc, Hp. f_equal.
  - apply storedTranslations_ext. intros lang.
    apply Hk; [apply nodeKey_not_translation|apply translation_key_not_original].
  - apply manualFlags_ext. intros lang.
    apply Hk; [apply nodeKey_not_isManual|apply original_not_isManual].
Qed.

Lemma scanTargets_ext st st' :
  currentPage st' = currentPage st -> selection st' = selection st ->
  scanTargets st' = scanTargets st.
Proof. intros Hp Hs. unfold scanTargets. by rewrite Hp, Hs. Qed.

Lemma recorded_ext st st' :
  currentPage st' = currentPage st -> selection st' = selection st ->
  chars st' = chars st -> recorded st' = recorded st.
Proof.
  intros Hp Hs Hc. unfold recorded. rewrite (scanTargets_ext st st' Hp Hs).
  apply filter_ext. intros n. by apply recordedNode_ext.
Qed.

(** The state a scan leaves, field by field. *)
Lemma scan_state st :
  chars (step st Scan) = chars st /\ keepsTree st (step st Scan)
  /\ (forall node, In node (recorded st) ->
        nodeKeyOf (step st Scan) (id node) = keyFor st node
        /\ originalTextOf (step st Scan) (id node) <> "")
  /\ (forall i, (forall node, In node (recorded st) -> id node <> i) ->
        pdata (step st Scan) !! i = pdata st !! i)
  /\ (forall i k, k <> "nodeKey" -> k <> "originalText" ->
        getPluginData (step st Scan) i k = getPluginData st i k).
Proof.
  pose proof (step_scan_run st) as Hrun.
  set (st0 := emit (Notify "Scanning design for text..." false) st) in Hrun.
  destruct (fold_scanWrite_keeps (scanTargets st) st0) as (Hc & Ht & _).
  rewrite Hrun. split; [exact Hc|]. split; [exact Ht|]. split; [|split].
  - intros node Hn. split.
    + unfold recorded in Hn. apply filter_In in Hn as [Hn Hr].
      exact (fold_scanWrite_nodeKey (scanTargets st) st0 node Hn Hr).
    + rewrite <- Hrun. apply scan_stores. apply in_recorded in Hn as [Hn Hb].
      exists node. by repeat split.
  - intros i Hi.
    change (pdata (fold_left (fun s n => scanWrite n s) (scanTargets st) st0) !! i
            = pdata st0 !! i).
    apply fold_scanWrite_lookup. intros node Hn Hr. apply Hi.
    unfold recorded. apply filter_In. by split.
  - intros i k H1 H2.
    exact (fold_scanWrite_other (scanTargets st) st0 i k H1 H2).
Qed.

Lemma scan_settled st :
  let st1 := step st Scan in
  pdata (step st1 Scan) = pdata st1 /\ chars (step st1 Scan) = chars st1
  /\ newEvents st1 (step st1 Scan) = newEvents st st1.
Proof.
  intros st1.
  destruct (scan_state st) as (Hc & (Hp & Ho & Hs & Hnx & Hf) & Hkey & _ & Hoth).
  fold st1 in Hc, Hp, Hs, Hkey, Hoth.
  assert (Hrec : recorded st1 = recorded st) by by apply recorded_ext.
  assert (Hkf : forall n, keyFor st1 n = keyFor st n).
  { intros n. unfold keyFor, characters. by rewrite Hc, Hp. }
  rewrite (step_scan_run st1).
  set (st0 := emit (Notify "Scanning design for text..." false) st1).
  assert (Hfold : fold_left (fun s n => scanWrite n s) (scanTargets st1) st0 = st0).
  { apply fold_scanWrite_settled. intros node Hn Hr.
    assert (Hin : In node (recorded st)).
    { rewrite <- Hrec. unfold recorded. apply filter_In. by split. }
    destruct (Hkey node Hin) as [Hk Horig]. split.
    - change (nodeKeyOf st1 (id node) = keyFor st1 node). by rewrite Hkf.
    - exact Horig. }
  rewrite Hfold. do 2 (split; [done|]).
  rewrite scan_events. fold st1. apply newEvents_app. cbn [emit outbox].
  unfold st0. cbn [emit outbox]. rewrite <- app_assoc. cbn [app]. do 4 f_equal.
  rewrite Hrec. f_equal. apply map_ext. intros n. apply scanRecord_ext; auto.
Qed.

Lemma in_storedTranslations st i lang text :
  In (lang, text) (storedTranslations st i) <->
  In lang languages /\ text = translationOf st i lang /\ text <> "".
Proof.
  unfold storedTranslations, translationOf. rewrite in_flat_map. split.
  - intros (l & Hl & Hin). destruct (Js.truthy _) eqn:Ht; [|destruct Hin].
    destruct Hin as [[= <- <-]|[]]. by apply truthy_spec in Ht.
  - intros (Hl & -> & Hne). exists lang. split; [done|].
    apply truthy_spec in Hne. rewrite Hne. by left.
Qed.

Lemma in_manualFlags st i lang :
  In lang (manualFlags st i) <->
  In lang languages /\ manualOverrideOf st i lang = "true".
Proof.
  unfold manualFlags, manualOverrideOf. rewrite <- list_elem_of_In, list_elem_of_filter.
  rewrite list_elem_of_In. tauto.
Qed.

Lemma scan_posted st data :
  In (PostMessage (ScanResults data)) (newEvents st (step st Scan)) ->
  data = map (scanRecord st) (recorded st).
Proof.
  rewrite scan_events. intros [H|[H|[]]]; [discriminate|]. by injection H as <-.
Qed.

(** What a scan leaves as [originalText] on a node it records. *)
Lemma scan_original st node :
  In node (recorded st) ->
  originalTextOf (step st Scan) (id node)
  = (if Js.truthy (originalTextOf st (id node))
     then originalTextOf st (id node)
     else characters st (id node)).
Proof.
  intros Hn. destruct (scan_state st) as (_ & _ & Hkey & _).
  destruct (Hkey node Hn) as [_ Ho].
  pose proof (scan_capturesOnly (emit (Notify "Scanning design for text..." false) st))
    as [_ Hcap].
  rewrite <- step_scan in Hcap. specialize (Hcap (id node)).
  change (originalTextOf (emit (Notify "Scanning design for text..." false) st) (id node))
    with (originalTextOf st (id node)) in Hcap.
  change (characters (emit (Notify "Scanning design for text..." false) st) (id node))
    with (characters st (id node)) in Hcap.
  destruct (Js.truthy (originalTextOf st (id node))) eqn:Ht.
  - destruct Hcap as [H|[H _]]; [done|]. apply truthy_spec in Ht. congruence.
  - apply truthy_false in Ht. destruct Hcap as [H|[_ H]]; [congruence|done].
Qed.

(** In a subtree without hidden nodes, [traverse] collects exactly the
    text nodes, in document order. *)
Lemma traverse_complete root :
  (forall m, In m (nodes root) -> visible m = true) ->
  traverse root = List.filter (fun m => isText (type m)) (nodes root).
Proof.
  induction root as [i ty nm v f cs IH] using SceneNode_forall_ind.
  intros Hvis. pose proof (Hvis _ (nodes_self _)) as Hv. cbn [visible] in Hv. subst v.
  cbn [traverse nodes negb List.filter type].
  destruct (isText ty) eqn:Ht.
  { by destruct ty. }
  destruct (hasChildren ty) eqn:Hc; [|done].
  assert (Hsub : forall c, In c cs -> forall m, In m (nodes c) -> visible m = true).
  { intros c Hin m Hm. apply Hvis. cbn [nodes]. rewrite Hc. right.
    apply in_flat_map. eauto. }
  clear Hvis. rewrite List.Forall_forall in IH.
  induction cs as [|c cs IHcs]; [done|].
  cbn [flat_map]. rewrite List.filter_app. f_equal.
  - apply IH; [by left|]. apply Hsub. by left.
  - apply IHcs.
    + intros x Hx. apply IH. by right.
    + intros x Hx. apply Hsub. by right.
Qed.

Lemma flat_map_filter {A B} (f g : A -> list B) (p : B -> bool) l :
  (forall x, In x l -> f x = List.filter p (g x)) ->
  flat_map f l = List.filter p (flat_map g l).
Proof.
  induction l as [|x l IH]; intros H; [done|].
  cbn [flat_map]. rewrite List.filter_app, (H x) by (by left).
  f_equal. apply IH. intros y Hy. apply H. by right.
Qed.

End ScanReports.

Section ScanProperties.

(** X1 ([scanSelection], the [scan] case of [onmessage]).  A scan always
    returns, whatever fonts the machine has: a font that fails to load is
    caught.  It emits exactly two events, the toast and one [scan-results]
    message, and the posted records are those of the collected text nodes
    with non-blank text, in the order of collection, computed from the
    state the scan started in. *)
Theorem scan_reports st :
  fst (onmessage Scan st) = Returned tt
  /\ newEvents st (step st Scan)
     = [Notify "Scanning design for text..." false;
        PostMessage (ScanResults (map (scanRecord st) (recorded st)))]
  /\ responses (onmessage Scan) st
     = [ScanResults (map (scanRecord st) (recorded st))].
Proof.
  split; [by rewrite scan_run|]. split; [apply scan_events|].
  unfold responses. change (snd (onmessage Scan st)) with (step st Scan).
  by rewrite scan_events.
Qed.

(** X2 ([traverse] and the loop of [scanSelection]).  Every record a scan
    posts belongs to a visible text node of the current page whose text is
    not blank; it carries that text, the key
    [screen.context.slug] built from it, and exactly the non-empty stored
    translations and the set manual flags of the four fixed languages. *)
Theorem scan_records_sound st data r :
  In (PostMessage (ScanResults data)) (newEvents st (step st Scan)) ->
  In r data ->
  exists node,
    In node (pageNodes (currentPage st))
    /\ isText (type node) = true /\ visible node = true
    /\ r_id r = id node
    /\ r_text r = characters st (id node)
    /\ Js.isBlank (r_text r) = false
    /\ r_context r = getContext (currentPage st) node
    /\ r_key r = getScreenName (currentPage st) node +:+ "." +:+ r_context r
                   +:+ "." +:+ slugify (r_text r)
    /\ (forall lang text,
          In (lang, text) (r_translations r) <->
          In lang languages /\ text = translationOf st (r_id r) lang /\ text <> "")
    /\ (forall lang,
          In lang (r_manualFlags r) <->
          In lang languages /\ manualOverrideOf st (r_id r) lang = "true").
Proof.
  intros Hpost Hr. apply scan_posted in Hpost. subst data.
  apply in_map_iff in Hr as (node & <- & Hn).
  apply in_recorded in Hn as [Hn Hb].
  destruct (scanTargets_sound st node Hn) as (Hp & Ht & Hv).
  exists node. cbn [scanRecord r_id r_text r_context r_key r_translations r_manualFlags].
  do 7 (split; [done|]). split; [done|]. split.
  - intros lang text. apply in_storedTranslations.
  - intros lang. apply in_manualFlags.
Qed.

Lemma scan_records_sound_witness :
  exists node,
    In node (pageNodes (currentPage Demo.fresh))
    /\ isText (type node) = true /\ visible node = true
    /\ r_id (scanRecord Demo.fresh Demo.submit) = id node
    /\ r_text (scanRecord Demo.fresh Demo.submit) = characters Demo.fresh (id node)
    /\ Js.isBlank (r_text (scanRecord Demo.fresh Demo.submit)) = false
    /\ r_context (scanRecord Demo.fresh Demo.submit)
       = getContext (currentPage Demo.fresh) node
    /\ r_key (scanRecord Demo.fresh Demo.submit)
       = getScreenName (currentPage Demo.fresh) node +:+ "."
           +:+ r_context (scanRecord Demo.fresh Demo.submit)
           +:+ "." +:+ slugify (r_text (scanRecord Demo.fresh Demo.submit))
    /\ (forall lang text,
          In (lang, text) (r_translations (scanRecord Demo.fresh Demo.submit)) <->
          In lang languages
          /\ text = translationOf Demo.fresh (r_id (scanRecord Demo.fresh Demo.submit)) lang
          /\ text <> "")
    /\ (forall lang,
          In lang (r_manualFlags (scanRecord Demo.fresh Demo.submit)) <->
          In lang languages
          /\ manualOverrideOf Demo.fresh (r_id (scanRecord Demo.fresh Demo.submit)) lang
             = "true").
Proof.
  apply (scan_records_sound Demo.fresh
           (map (scanRecord Demo.fresh) (recorded Demo.fresh))
           (scanRecord Demo.fresh Demo.submit)).
  - vm_compute. right. left. reflexivity.
  - vm_compute. left. reflexivity.
Defined.

(** X3 (the loop of [scanSelection]).  For every text node a scan records,
    the scan overwrites the stored [nodeKey] with the key it has just
    computed, whatever was stored before, while [originalText] keeps a
    stored value and otherwise becomes the visible text. *)
Theorem scan_stores_key st node :
  In node (recorded st) ->
  nodeKeyOf (step st Scan) (id node) = keyFor st node
  /\ nodeKeyOf (step st Scan) (id node) <> ""
  /\ originalTextOf (step st Scan) (id node)
     = (if Js.truthy (originalTextOf st (id node))
        then originalTextOf st (id node)
        else characters st (id node)).
Proof.
  intros Hn. destruct (scan_state st) as (_ & _ & Hkey & _).
  destruct (Hkey node Hn) as [Hk Ho]. split; [done|]. split.
  - rewrite Hk. apply keyFor_nonempty.
  - by apply scan_original.
Qed.

Lemma scan_stores_key_witness :
  nodeKeyOf (step Demo.scannedOnce Scan) 3 = "home.screen.button.submit"
  /\ originalTextOf (step Demo.scannedOnce Scan) 3 = "Submit".
Proof.
  assert (H : In Demo.submit (recorded Demo.scannedOnce)).
  { vm_compute. left. reflexivity. }
  destruct (scan_stores_key Demo.scannedOnce Demo.submit H) as (Hk & _ & Ho).
  split.
  - etransitivity; [exact Hk|]. vm_compute. reflexivity.
  - etransitivity; [exact Ho|]. vm_compute. reflexivity.
Defined.

(** X4 ([scanSelection]).  A scan changes nothing but plugin data and the
    outbox: no visible text, nothing of the tree, the selection or the
    identifier supply.  Of the plugin data it writes the fields [nodeKey]
    and [originalText] only, and only on the nodes it records. *)
Theorem scan_frame st :
  chars (step st Scan) = chars st
  /\ keepsTree st (step st Scan)
  /\ (forall i k, k <> "nodeKey" -> k <> "originalText" ->
        getPluginData (step st Scan) i k = getPluginData st i k)
  /\ (forall i, (forall node, In node (recorded st) -> id node <> i) ->
        pdata (step st Scan) !! i = pdata st !! i).
Proof.
  destruct (scan_state st) as (Hc & Ht & _ & Hl & Hk).
  split; [exact Hc|]. split; [exact Ht|]. split; [exact Hk|exact Hl].
Qed.

Lemma scan_frame_witness :
  getPluginData (step Demo.scannedOnce Scan) 3 "translation-fr"
  = getPluginData Demo.scannedOnce 3 "translation-fr"
  /\ pdata (step Demo.scannedOnce Scan) !! 5 = pdata Demo.scannedOnce !! 5.
Proof.
  destruct (scan_frame Demo.scannedOnce) as (_ & _ & Hkeys & Hids). split.
  - apply Hkeys; discriminate.
  - apply Hids. intros node Hn. vm_compute in Hn.
    destruct Hn as [<-|[]]. vm_compute. discriminate.
Defined.

(** X5 ([scanSelection] run twice).  A second scan right after a scan
    changes no plugin data and no text, and it emits the same events, so
    it posts the same records as the first. *)
Theorem scan_twice st :
  let st1 := step st Scan in
  let st2 := step st1 Scan in
  pdata st2 = pdata st1 /\ chars st2 = chars st1
  /\ newEvents st1 st2 = newEvents st st1.
Proof. apply scan_settled. Qed.

End ScanProperties.

(* ===================================================================== *)
(** ** The shape of a slug *)
(* ===================================================================== *)

Section SlugShape.

Lemma append_cons c a b : String c a +:+ b = String c (a +:+ b).
Proof. reflexivity. Qed.

Lemma append_empty_r a : a +:+ "" = a.
Proof. induction a as [|c a IH]; [done|]. by rewrite append_cons, IH. Qed.

Lemma append_assoc a b c : (a +:+ b) +:+ c = a +:+ (b +:+ c).
Proof. induction a as [|x a IH]; [done|]. by rewrite !append_cons, IH. Qed.

Lemma allChars_append cls a b :
  Js.allChars cls (a +:+ b) = Js.allChars cls a && Js.allChars cls b.
Proof.
  induction a as [|c a IH]; [done|].
  rewrite append_cons. cbn [Js.allChars]. by rewrite IH, andb_assoc.
Qed.

Lemma revString_acc acc s : Js.revString acc s = Js.revString "" s +:+ acc.
Proof.
  revert acc. induction s as [|c s IH]; intros acc; [done|].
  cbn [Js.revString]. rewrite (IH (String c acc)), (IH (String c "")).
  by rewrite append_assoc.
Qed.

Lemma allChars_revString cls acc s :
  Js.allChars cls (Js.revString acc s) = Js.allChars cls s && Js.allChars cls acc.
Proof.
  revert acc. induction s as [|c s IH]; intros acc; [done|].
  cbn [Js.revString Js.allChars]. rewrite IH. cbn [Js.allChars].
  destruct (cls c), (Js.allChars cls s), (Js.allChars cls acc); done.
Qed.

(** After lower-casing, a character the first replacement keeps is a
    lower-case letter, a digit or one of the separators. *)
Lemma kept_lowerChar c :
  implb (keepsInSlug (Js.lowerChar c))
        (Js.between 97 122 (Js.lowerChar c) || Js.between 48 57 (Js.lowerChar c)
         || separatesSlug (Js.lowerChar c)) = true.
Proof. destruct c as [[] [] [] [] [] [] [] []]; vm_compute; reflexivity. Qed.

Lemma removeAll_lower text :
  Js.allChars
    (fun c => Js.between 97 122 c || Js.between 48 57 c || separatesSlug c)
    (Js.removeAll (fun c => negb (keepsInSlug c)) (Js.toLowerCase text)) = true.
Proof.
  induction text as [|c text IH]; [done|].
  unfold Js.toLowerCase in *. cbn [Js.mapChars Js.removeAll].
  pose proof (kept_lowerChar c) as Hc.
  destruct (keepsInSlug (Js.lowerChar c)); cbn [negb implb] in *; [|exact IH].
  cbn [Js.allChars]. by rewrite Hc, IH.
Qed.

Lemma replaceRuns_slugChars b s :
  Js.allChars
    (fun c => Js.between 97 122 c || Js.between 48 57 c || separatesSlug c) s = true ->
  Js.allChars slugChar (Js.replaceRunsFrom separatesSlug "."%char b s) = true.
Proof.
  revert b. induction s as [|c s IH]; intros b; [done|].
  cbn [Js.allChars Js.replaceRunsFrom]. intros H. apply andb_prop in H as [Hc Hs].
  destruct (separatesSlug c) eqn:Hsep.
  - destruct b; [by apply IH|]. cbn [Js.allChars]. by rewrite IH.
  - cbn [Js.allChars]. rewrite IH by done. rewrite orb_false_r in Hc.
    unfold slugChar. by rewrite Hc.
Qed.

Lemma splitFrom_allChars cls sep cur s :
  Js.allChars cls cur = true -> Js.allChars cls s = true ->
  Forall (fun seg => Js.allChars cls seg = true) (Js.splitFrom sep cur s).
Proof.
  revert cur. induction s as [|c s IH]; intros cur Hcur Hs; cbn [Js.splitFrom].
  - constructor; [|constructor]. by rewrite allChars_revString, Hcur.
  - cbn [Js.allChars] in Hs. apply andb_prop in Hs as [Hc Hs].
    destruct (sep c).
    + constructor; [by rewrite allChars_revString, Hcur|]. by apply IH.
    + apply IH; [|done]. cbn [Js.allChars]. by rewrite Hc, Hcur.
Qed.

Lemma splitFrom_segments sep cur s :
  Js.allChars (fun c => negb (sep c)) cur = true ->
  Forall (fun seg => Js.allChars (fun c => negb (sep c)) seg = true)
    (Js.splitFrom sep cur s).
Proof.
  revert cur. induction s as [|c s IH]; intros cur Hcur; cbn [Js.splitFrom].
  - constructor; [|constructor]. by rewrite allChars_revString, Hcur.
  - destruct (sep c) eqn:Hc.
    + constructor; [by rewrite allChars_revString, Hcur|]. by apply IH.
    + apply IH. cbn [Js.allChars]. by rewrite Hc, Hcur.
Qed.

Lemma join_cons_cons sep x y ys : Js.join sep (x :: y :: ys) = x +:+ sep +:+ Js.join sep (y :: ys).
Proof. reflexivity. Qed.

Lemma join_allChars cls xs :
  cls "."%char = true ->
  Forall (fun seg => Js.allChars cls seg = true) xs ->
  Js.allChars cls (Js.join "." xs) = true.
Proof.
  intros Hdot. induction xs as [|x xs IH]; intros H; [done|].
  inversion H as [|? ? Hx Hxs]; subst. destruct xs as [|y ys]; [exact Hx|].
  rewrite join_cons_cons, !allChars_append, Hx, (IH Hxs).
  cbn [Js.allChars]. by rewrite Hdot.
Qed.

Lemma join_String c x xs : Js.join "." (String c x :: xs) = String c (Js.join "." (x :: xs)).
Proof. destruct xs; reflexivity. Qed.

(** Splitting what [join] glued gives the segments back, when no segment
    holds a dot. *)
Lemma splitFrom_join cur x xs :
  Forall (fun seg => Js.allChars (fun c => negb (Js.isDot c)) seg = true) (x :: xs) ->
  Js.splitFrom Js.isDot cur (Js.join "." (x :: xs)) = (Js.revString "" cur +:+ x) :: xs.
Proof.
  revert cur x. induction xs as [|y ys IH]; intros cur x H.
  - inversion H as [|? ? Hx _]; subst. clear H. revert cur.
    induction x as [|c x IHx]; intros cur.
    + cbn [Js.join Js.splitFrom]. by rewrite append_empty_r.
    + cbn [Js.join Js.splitFrom]. cbn [Js.allChars] in Hx.
      apply andb_prop in Hx as [Hc Hx]. apply negb_true_iff in Hc. rewrite Hc.
      change x with (Js.join "." [x]) at 1. rewrite (IHx Hx). f_equal.
      cbn [Js.revString]. rewrite (revString_acc (String c "")).
      by rewrite append_assoc.
  - inversion H as [|? ? Hx Hrest]; subst. clear H. revert cur.
    induction x as [|c x IHx]; intros cur.
    + rewrite join_cons_cons. change ("" +:+ "." +:+ Js.join "." (y :: ys))
        with (String "."%char (Js.join "." (y :: ys))).
      cbn [Js.splitFrom]. change (Js.isDot ".") with true. cbv iota.
      rewrite (IH "" y Hrest). by rewrite append_empty_r.
    + rewrite join_String. cbn [Js.splitFrom]. cbn [Js.allChars] in Hx.
      apply andb_prop in Hx as [Hc Hx]. apply negb_true_iff in Hc. rewrite Hc.
      rewrite (IHx Hx). f_equal.
      cbn [Js.revString]. rewrite (revString_acc (String c "")).
      by rewrite append_assoc.
Qed.

Lemma split_nonempty sep cur s : Js.splitFrom sep cur s <> [].
Proof.
  revert cur. induction s as [|c s IH]; intros cur; cbn [Js.splitFrom]; [done|].
  destruct (sep c); [done|apply IH].
Qed.

Lemma split_join xs :
  xs <> [] ->
  Forall (fun seg => Js.allChars (fun c => negb (Js.isDot c)) seg = true) xs ->
  Js.split Js.isDot (Js.join "." xs) = xs.
Proof.
  destruct xs as [|x xs]; [done|]. intros _ H. unfold Js.split.
  by rewrite splitFrom_join.
Qed.

(** The trimming step of [slugify] finds no hyphen to trim. *)
Lemma slugify_unfold text :
  slugify text
  = Js.join "." (Js.slice0 3 (Js.split Js.isDot
      (Js.replaceRuns separatesSlug "."%char
         (Js.removeAll (fun c => negb (keepsInSlug c)) (Js.toLowerCase text))))).
Proof.
  unfold slugify, Js.stripEnds.
  rewrite allChars_dropWhile by apply replaceRuns_no_hyphen.
  by rewrite allChars_dropWhileEnd by apply replaceRuns_no_hyphen.
Qed.

Lemma Forall_firstn {A} (P : A -> Prop) n (l : list A) : Forall P l -> Forall P (firstn n l).
Proof.
  revert n. induction l as [|x l IH]; intros [|n] H; cbn [firstn]; try constructor.
  - by inversion H.
  - apply IH. by inversion H.
Qed.

Lemma slugify_slugChars text : Js.allChars slugChar (slugify text) = true.
Proof.
  rewrite slugify_unfold. apply join_allChars; [done|].
  apply Forall_firstn. apply splitFrom_allChars; [done|].
  apply replaceRuns_slugChars, removeAll_lower.
Qed.

(** X6 ([slugify]).  A slug is made of lower-case ASCII letters, digits and
    dots only: capitals are lowered, every other character is removed or
    turned into a dot. *)
Theorem slugify_alphabet text : Js.allChars slugChar (slugify text) = true.
Proof. apply slugify_slugChars. Qed.

(** X7 ([slugify]).  A slug has at least one and at most three
    dot-separated segments: [split('.').slice(0, 3).join('.')] keeps the
    first three, and splitting the slug again gives exactly those. *)
Theorem slugify_segments text :
  Js.split Js.isDot (slugify text)
  = Js.slice0 3 (Js.split Js.isDot
      (Js.replaceRuns separatesSlug "."%char
         (Js.removeAll (fun c => negb (keepsInSlug c)) (Js.toLowerCase text))))
  /\ 1 <= length (Js.split Js.isDot (slugify text)) <= 3.
Proof.
  rewrite slugify_unfold.
  set (segs := Js.split Js.isDot (Js.replaceRuns _ _ _)).
  assert (Hne : segs <> []) by apply split_nonempty.
  assert (Hseg : Forall (fun seg => Js.allChars (fun c => negb (Js.isDot c)) seg = true) segs)
    by (by apply splitFrom_segments).
  rewrite split_join.
  - split; [done|]. unfold Js.slice0. rewrite length_firstn.
    destruct segs; [done|]. cbn [length]. lia.
  - unfold Js.slice0. by destruct segs.
  - by apply Forall_firstn.
Qed.

End SlugShape.

(* ===================================================================== *)
(** ** The context label *)
(* ===================================================================== *)

Section Context.

Lemma nearestBoundary_first inner b outer :
  isBoundary (type b) = true ->
  (forall x, In x inner -> isBoundary (type x) = false) ->
  nearestBoundary (inner ++ b :: outer) = Some b.
Proof.
  intros Hb. induction inner as [|x inner IH]; intros Hin; cbn [app nearestBoundary].
  - by rewrite Hb.
  - rewrite (Hin x) by (by left). apply IH. intros y Hy. apply Hin. by right.
Qed.

Lemma nearestBoundary_none chain :
  (forall x, In x chain -> isBoundary (type x) = false) ->
  nearestBoundary chain = None.
Proof.
  induction chain as [|x chain IH]; intros Hin; cbn [nearestBoundary]; [done|].
  rewrite (Hin x) by (by left). apply IH. intros y Hy. apply Hin. by right.
Qed.

Lemma classify_label parentName : In (classify parentName) contextLabels.
Proof.
  unfold classify, contextLabels.
  repeat match goal with
         | |- context [if ?b then _ else _] => destruct b
         end; cbn [In]; tauto.
Qed.

(** X8 ([getContext]).  The label is decided by the nearest enclosing
    frame, component or instance: containers of other types between the
    node and it are skipped, and nothing above it is looked at.  A node
    with no such container is classified from the name [global], which
    gives [text].  The label is always one of the six known ones. *)
Theorem getContext_nearest page node :
  (forall inner b outer,
      ancestors page (id node) = inner ++ b :: outer ->
      isBoundary (type b) = true ->
      (forall x, In x inner -> isBoundary (type x) = false) ->
      getContext page node = classify (Js.toLowerCase (name b)))
  /\ ((forall x, In x (ancestors page (id node)) -> isBoundary (type x) = false) ->
      getContext page node = "text")
  /\ In (getContext page node) contextLabels.
Proof.
  split; [|split].
  - intros inner b outer Hanc Hb Hinner. unfold getContext.
    by rewrite Hanc, (nearestBoundary_first inner b outer Hb Hinner).
  - intros Hnone. unfold getContext. by rewrite (nearestBoundary_none _ Hnone).
  - apply classify_label.
Qed.

Lemma getContext_nearest_witness :
  getContext Demo.page Demo.submit = classify (Js.toLowerCase (name Demo.button))
  /\ classify (Js.toLowerCase (name Demo.button)) = "button"
  /\ getContext Demo.page Demo.screen = "text".
Proof.
  destruct (getContext_nearest Demo.page Demo.submit) as (Hnear & _ & _).
  destruct (getContext_nearest Demo.page Demo.screen) as (_ & Htop & _).
  split; [|split].
  - apply (Hnear [] Demo.button [Demo.screen]).
    + vm_compute. reflexivity.
    + vm_compute. reflexivity.
    + intros x Hx. destruct Hx.
  - vm_compute. reflexivity.
  - apply Htop. vm_compute. intros x Hx. destruct Hx.
Defined.

End Context.

(* ===================================================================== *)
(** ** Storing translations *)
(* ===================================================================== *)

Section Store.

Lemma getNodeById_ext st st' i :
  currentPage st' = currentPage st -> otherPages st' = otherPages st ->
  getNodeById st' i = getNodeById st i.
Proof. intros Hp Ho. unfold getNodeById, pages. by rewrite Hp, Ho. Qed.

Lemma fold_applyWrite_keeps ws st :
  sameButPdata st (fold_left applyWrite ws st).
Proof.
  revert st. induction ws as [|w ws IH]; intros st; cbn [fold_left].
  - apply sameButPdata_refl.
  - eapply sameButPdata_trans; [|apply IH]. apply sameButPdata_set.
Qed.

Lemma storeEntries_run lang entries st :
  forEach
    (fun idText : NodeId * string =>
       node <- getNodeByIdAsync (fst idText) ;;
       match node with
       | Some n => modify (setPluginData (baseId n) ("translation-" +:+ lang) (snd idText))
       | None => ret tt
       end) entries st
  = (Returned tt, fold_left applyWrite (storeWrites st [(lang, entries)]) st).
Proof.
  unfold storeWrites. cbn [flat_map fst snd]. rewrite app_nil_r.
  assert (H : forall s, currentPage s = currentPage st -> otherPages s = otherPages st ->
    forEach
      (fun idText : NodeId * string =>
         node <- getNodeByIdAsync (fst idText) ;;
         match node with
         | Some n => modify (setPluginData (baseId n) ("translation-" +:+ lang) (snd idText))
         | None => ret tt
         end) entries s
    = (Returned tt,
       fold_left applyWrite
         (flat_map (fun idText : NodeId * string =>
            match getNodeById st (fst idText) with
            | Some n => [(baseId n, "translation-" +:+ lang, snd idText)]
            | None => []
            end) entries) s)).
  { induction entries as [|e entries IH]; intros s Hp Ho; [done|].
    cbn [forEach flat_map]. rewrite fold_left_app.
    cbv beta iota zeta delta [bind getNodeByIdAsync get ret modify].
    rewrite (getNodeById_ext st s _ Hp Ho).
    destruct (getNodeById st (fst e)) as [n|]; cbn [fold_left].
    - apply IH; by cbn.
    - by apply IH. }
  by apply H.
Qed.

Lemma storeWrites_ext st st' data :
  currentPage st' = currentPage st -> otherPages st' = otherPages st ->
  storeWrites st' data = storeWrites st data.
Proof.
  intros Hp Ho. unfold storeWrites. apply flat_map_ext. intros [lang entries].
  apply flat_map_ext. intros e. by rewrite (getNodeById_ext st st' _ Hp Ho).
Qed.

Lemma storeWrites_cons st le data :
  storeWrites st (le :: data) = storeWrites st [le] ++ storeWrites st data.
Proof. unfold storeWrites. cbn [flat_map]. by rewrite app_nil_r. Qed.

(** The whole handler is the sequence of its writes. *)
Lemma handleStoreTranslations_run data st :
  handleStoreTranslations data st
  = (Returned tt, fold_left applyWrite (storeWrites st data) st).
Proof.
  unfold handleStoreTranslations.
  assert (H : forall s, currentPage s = currentPage st -> otherPages s = otherPages st ->
    forEach
      (fun langEntries : string * list (NodeId * string) =>
         forEach
           (fun idText : NodeId * string =>
              node <- getNodeByIdAsync (fst idText) ;;
              match node with
              | Some n =>
                  modify (setPluginData (baseId n) ("translation-" +:+ fst langEntries)
                            (snd idText))
              | None => ret tt
              end) (snd langEntries)) data s
    = (Returned tt, fold_left applyWrite (storeWrites st data) s)).
  { induction data as [|[lang entries] data IH]; intros s Hp Ho; [done|].
    rewrite storeWrites_cons, fold_left_app. cbn [forEach fst snd]. unfold bind at 1.
    rewrite (storeEntries_run lang entries s).
    rewrite (storeWrites_ext st s [(lang, entries)] Hp Ho).
    destruct (fold_applyWrite_keeps (storeWrites st [(lang, entries)]) s)
      as (Hp' & Ho' & _).
    apply IH; congruence. }
  by apply H.
Qed.

(** A field after a sequence of writes holds its old value or the value of
    one of the writes to it. *)
Lemma writes_spec ws st i k :
  getPluginData (fold_left applyWrite ws st) i k = getPluginData st i k
  \/ In (i, k, getPluginData (fold_left applyWrite ws st) i k) ws.
Proof.
  induction ws as [|[[j k'] v] ws IH] using rev_ind; [by left|].
  rewrite fold_left_app. cbn [fold_left].
  assert (Hw : forall s, applyWrite s (j, k', v) = setPluginData j k' v s) by done.
  rewrite !Hw, !getPluginData_set. case_decide as Hd.
  - destruct Hd as [-> ->]. right. apply in_or_app. right. by left.
  - destruct IH as [IH|IH]; [by left|]. right. apply in_or_app. by left.
Qed.

(** A field that is written holds the value of one of the writes to it. *)
Lemma writes_last ws st i k v0 :
  In (i, k, v0) ws -> In (i, k, getPluginData (fold_left applyWrite ws st) i k) ws.
Proof.
  induction ws as [|[[j k'] v] ws IH] using rev_ind; [intros []|].
  intros Hin. rewrite fold_left_app. cbn [fold_left].
  assert (Hw : forall s, applyWrite s (j, k', v) = setPluginData j k' v s) by done.
  rewrite !Hw, !getPluginData_set. case_decide as Hd.
  - destruct Hd as [-> ->]. apply in_or_app. right. by left.
  - apply in_or_app. left. apply IH.
    apply in_app_or in Hin as [Hin|[Hin|[]]]; [done|].
    injection Hin as -> -> ->. by destruct Hd.
Qed.

Lemma in_storeWrites st data i k v :
  In (i, k, v) (storeWrites st data) <->
  exists lang entries,
    In (lang, entries) data /\ In (i, v) entries
    /\ getNodeById st i <> None /\ k = "translation-" +:+ lang.
Proof.
  unfold storeWrites. rewrite in_flat_map. split.
  - intros ([lang entries] & Hle & Hin). cbn [fst snd] in Hin.
    apply in_flat_map in Hin as ([j text] & He & Hin). cbn [fst snd] in Hin.
    destruct (getNodeById st j) as [n|] eqn:Hn; [|destruct Hin].
    destruct Hin as [Hin|[]]. injection Hin as <- <- <-.
    apply getNodeById_baseId in Hn as Hb. rewrite Hb.
    exists lang, entries. repeat split; try done. congruence.
  - intros (lang & entries & Hle & He & Hn & ->).
    exists (lang, entries). split; [done|]. cbn [fst snd].
    apply in_flat_map. exists (i, v). split; [done|]. cbn [fst snd].
    destruct (getNodeById st i) as [n|] eqn:Hg; [|done].
    apply getNodeById_baseId in Hg. rewrite Hg. by left.
Qed.

Lemma translation_key_inj lang lang' :
  "translation-" +:+ lang = "translation-" +:+ lang' -> lang = lang'.
Proof. cbv [String.append]. congruence. Qed.

Lemma NoDup_fst_unique {A B} (l : list (A * B)) a b b' :
  NoDup (map fst l) -> In (a, b) l -> In (a, b') l -> b = b'.
Proof.
  induction l as [|[x y] l IH]; [intros _ []|].
  cbn [map fst]. intros Hnd H1 H2. apply NoDup_cons in Hnd as [Hx Hnd].
  destruct H1 as [H1|H1], H2 as [H2|H2].
  - congruence.
  - injection H1 as -> ->. exfalso. apply Hx. apply list_elem_of_In.
    apply in_map_iff. by exists (a, b').
  - injection H2 as -> ->. exfalso. apply Hx. apply list_elem_of_In.
    apply in_map_iff. by exists (a, b).
  - by apply IH.
Qed.

Lemma store_state data st :
  let st' := step st (StoreTranslations data) in
  sameButPdata st st'
  /\ (forall i k,
        getPluginData st' i k = getPluginData st i k
        \/ exists lang entries,
             In (lang, entries) data /\ In (i, getPluginData st' i k) entries
             /\ getNodeById st i <> None /\ k = "translation-" +:+ lang)
  /\ (forall lang entries i text,
        In (lang, entries) data -> In (i, text) entries -> getNodeById st i <> None ->
        exists lang' entries',
          In (lang', entries') data /\ In (i, translationOf st' i lang) entries'
          /\ "translation-" +:+ lang = "translation-" +:+ lang').
Proof.
  intros st'. unfold st', step, onmessage. rewrite handleStoreTranslations_run. cbn [snd].
  split; [apply fold_applyWrite_keeps|]. split.
  - intros i k. destruct (writes_spec (storeWrites st data) st i k) as [H|H]; [by left|].
    right. by apply in_storeWrites in H.
  - intros lang entries i text Hle He Hn.
    assert (Hin : In (i, "translation-" +:+ lang, text) (storeWrites st data)).
    { apply in_storeWrites. by exists lang, entries. }
    apply (writes_last _ st) in Hin. apply in_storeWrites in Hin
      as (lang' & entries' & H1 & H2 & _ & H3).
    by exists lang', entries'.
Qed.

End Store.

Section StoreProperties.

(** X9 ([handleStoreTranslations]).  Storing translations always returns
    and changes plugin data only.  A field it changes is the
    [translation-<lang>] field of an identifier that resolves, and holds a
    text sent for that language and identifier; identifiers that do not
    resolve are skipped.  When every language and, per language, every
    identifier occurs once, as in the keys of an object, each entry whose
    identifier resolves is stored. *)
Theorem store_translations_spec st data :
  let st' := step st (StoreTranslations data) in
  fst (onmessage (StoreTranslations data) st) = Returned tt
  /\ sameButPdata st st'
  /\ (forall i k,
        getPluginData st' i k <> getPluginData st i k ->
        exists lang entries,
          In (lang, entries) data /\ In (i, getPluginData st' i k) entries
          /\ getNodeById st i <> None /\ k = "translation-" +:+ lang)
  /\ (NoDup (map fst data) ->
      (forall lang entries, In (lang, entries) data -> NoDup (map fst entries)) ->
      forall lang entries i text,
        In (lang, entries) data -> In (i, text) entries -> getNodeById st i <> None ->
        translationOf st' i lang = text).
Proof.
  intros st'. destruct (store_state data st) as (Hsame & Hch & Hlast). fold st' in Hsame, Hch, Hlast.
  split; [|split; [exact Hsame|split]].
  - unfold onmessage. by rewrite handleStoreTranslations_run.
  - intros i k Hne. destruct (Hch i k) as [H|H]; [done|exact H].
  - intros Hlangs Hids lang entries i text Hle He Hn.
    destruct (Hlast lang entries i text Hle He Hn) as (lang' & entries' & H1 & H2 & H3).
    apply translation_key_inj in H3. subst lang'.
    assert (entries' = entries) by (eapply NoDup_fst_unique; eauto). subst entries'.
    eapply NoDup_fst_unique; [apply (Hids lang entries Hle)|exact H2|exact He].
Qed.

Lemma store_translations_spec_witness :
  translationOf
    (step Demo.fresh
       (StoreTranslations [("fr", [(3, "Envoyer"); (99, "Rien")]); ("de", [(3, "Senden")])]))
    3 "de" = "Senden".
Proof.
  destruct (store_translations_spec Demo.fresh
              [("fr", [(3, "Envoyer"); (99, "Rien")]); ("de", [(3, "Senden")])])
    as (_ & _ & _ & H).
  apply (H) with (entries := [(3, "Senden")]).
  - apply (bool_decide_unpack _). vm_compute. exact I.
  - intros lang entries Hin. vm_compute in Hin.
    destruct Hin as [Hin|[Hin|[]]]; injection Hin as <- <-;
      apply (bool_decide_unpack _); vm_compute; exact I.
  - vm_compute. right. left. reflexivity.
  - vm_compute. left. reflexivity.
  - vm_compute. discriminate.
Defined.

(** X10 ([handleUpdateManualTranslation], then [scanSelection]).  A manual
    override entered for a text node a scan records, in one of the four
    fixed languages and with a non-empty text, is reported by the next
    scan: the record of that node lists the text as the translation for
    the language and the language among the manual flags. *)
Theorem manual_override_reported st node lang text data :
  In lang languages -> text <> "" ->
  In node (recorded st) ->
  let st1 := step st (UpdateManualTranslation (id node) lang text) in
  In (PostMessage (ScanResults data)) (newEvents st1 (step st1 Scan)) ->
  exists r,
    In r data /\ r_id r = id node
    /\ In (lang, text) (r_translations r) /\ In lang (r_manualFlags r).
Proof.
  intros Hlang Htext Hnode st1 Hpost.
  apply scan_posted in Hpost. subst data.
  assert (Hres : getNodeById st (id node) <> None).
  { apply getNodeById_resolves, in_allIds_pageNode.
    apply in_recorded in Hnode as [Hnode _]. by apply scanTargets_sound in Hnode as [? _]. }
  assert (Hst1 : st1 = setPluginData (id node) ("isManual-" +:+ lang) "true"
                   (setPluginData (id node) ("translation-" +:+ lang) text st)).
  { unfold st1, step, onmessage. rewrite updateManual_run.
    by destruct (getNodeById st (id node)). }
  assert (Hrec : recorded st1 = recorded st) by (by rewrite Hst1).
  exists (scanRecord st1 node). split; [|split; [done|split]].
  - apply in_map. by rewrite Hrec.
  - cbn [scanRecord r_translations]. apply in_storedTranslations.
    split; [done|]. split; [|done]. unfold translationOf. rewrite Hst1.
    rewrite getPluginData_set_ne, getPluginData_set_eq; [done|].
    right. intros E. symmetry in E. by apply isManual_not_translation in E.
  - cbn [scanRecord r_manualFlags]. apply in_manualFlags. split; [done|].
    unfold manualOverrideOf. rewrite Hst1. apply getPluginData_set_eq.
Qed.

Lemma manual_override_reported_witness :
  exists r,
    In r (map (scanRecord (step Demo.fresh (UpdateManualTranslation 3 "fr" "Envoyer")))
            (recorded (step Demo.fresh (UpdateManualTranslation 3 "fr" "Envoyer"))))
    /\ r_id r = 3
    /\ In ("fr", "Envoyer") (r_translations r) /\ In "fr" (r_manualFlags r).
Proof.
  apply (manual_override_reported Demo.fresh Demo.submit "fr" "Envoyer").
  - vm_compute. left. reflexivity.
  - discriminate.
  - vm_compute. left. reflexivity.
  - vm_compute. right. left. reflexivity.
Defined.

End StoreProperties.

(* ===================================================================== *)
(** ** Previews *)
(* ===================================================================== *)

Section Preview.

Lemma keepsTree_refl st : keepsTree st st.
Proof. by repeat split. Qed.

Lemma keepsTree_trans a b c : keepsTree a b -> keepsTree b c -> keepsTree a c.
Proof.
  intros (H1 & H2 & H3 & H4 & H5) (G1 & G2 & G3 & G4 & G5). repeat split; congruence.
Qed.

Lemma keepsTree_emit e st : keepsTree st (emit e st).
Proof. by repeat split. Qed.

Lemma keepsTree_chars i t st : keepsTree st (setCharacters i t st).
Proof. by repeat split. Qed.

Lemma keepsTree_pdata i k v st : keepsTree st (setPluginData i k v st).
Proof. by repeat split. Qed.

Lemma keepsTree_getNodeById st s i : keepsTree st s -> getNodeById s i = getNodeById st i.
Proof. intros (Hp & Ho & _). by apply getNodeById_ext. Qed.

Lemma previewTarget_ext st s item : keepsTree st s -> previewTarget s item = previewTarget st item.
Proof. intros H. unfold previewTarget. by rewrite (keepsTree_getNodeById st s _ H). Qed.

Lemma previewTarget_id st item n : previewTarget st item = Some n -> id n = t_id item.
Proof.
  unfold previewTarget. destruct (getNodeById st (t_id item)) as [[p|m]|] eqn:Hg; try done.
  destruct (isText (type m)); [|done]. intros [= <-].
  by apply getNodeById_baseId in Hg.
Qed.

Lemma previewTarget_spec st item n :
  previewTarget st item = Some n <->
  getNodeById st (t_id item) = Some (IsScene n) /\ isText (type n) = true.
Proof.
  unfold previewTarget. destruct (getNodeById st (t_id item)) as [[p|m]|]; split;
    try (intros [? ?]; congruence); try done.
  - destruct (isText (type m)) eqn:Ht; [|done]. intros [= <-]. by split.
  - intros [[= ->] Ht]. by rewrite Ht.
Qed.

(** One iteration of the preview loop. *)
Lemma previewItem_run item st :
  previewItem item st
  = match previewTarget st item with
    | Some n =>
        if canLoad st (fontName n)
        then (Returned tt,
              setCharacters (id n) (translatedText item) (captureOriginal (id n) st))
        else (Thrown fontError, captureOriginal (id n) st)
    | None => (Returned tt, st)
    end.
Proof.
  unfold previewItem, previewTarget, captureOriginal, originalTextOf.
  cbv beta iota zeta delta [bind getNodeByIdAsync get ret modify loadFontAsync].
  destruct (getNodeById st (t_id item)) as [[p|n]|]; try done.
  destruct (isText (type n)); [|done].
  destruct (Js.truthy (getPluginData st (id n) "originalText")); cbn [negb];
    cbv beta iota;
    match goal with
    | |- context [canLoad ?s (fontName n)] =>
        change (canLoad s (fontName n)) with (canLoad st (fontName n))
    end; by destruct (canLoad st (fontName n)).
Qed.

Lemma captureOriginal_keeps i st :
  chars (captureOriginal i st) = chars st /\ keepsTree st (captureOriginal i st)
  /\ outbox (captureOriginal i st) = outbox st.
Proof. unfold captureOriginal. destruct (Js.truthy _); by repeat split. Qed.

Lemma previewItem_keepsTree item : respects keepsTree (previewItem item).
Proof.
  apply previewItem_respects.
  - apply keepsTree_refl.
  - apply keepsTree_trans.
  - apply keepsTree_chars.
  - intros i st _. apply keepsTree_pdata.
Qed.

Lemma previewLoop_keepsTree items : respects keepsTree (forEach previewItem items).
Proof.
  apply respects_forEach; [apply keepsTree_refl|apply keepsTree_trans|].
  intros item _. apply previewItem_keepsTree.
Qed.

Lemma previewItem_outbox item st : outbox (snd (previewItem item st)) = outbox st.
Proof.
  rewrite previewItem_run. destruct (previewTarget st item) as [n|]; [|done].
  destruct (captureOriginal_keeps (id n) st) as (_ & _ & Ho).
  by destruct (canLoad st (fontName n)).
Qed.

Lemma previewLoop_outbox items st : outbox (snd (forEach previewItem items st)) = outbox st.
Proof.
  apply (respects_forEach (fun a b => outbox b = outbox a)); [done|congruence|].
  intros item _ s. apply previewItem_outbox.
Qed.

(** An item changes the visible text of its own identifier only. *)
Lemma previewItem_keepsText i item :
  t_id item <> i -> respects (keepsTextOf i) (previewItem item).
Proof.
  intros Hne st. unfold keepsTextOf. rewrite previewItem_run.
  destruct (previewTarget st item) as [n|] eqn:Hn; [|done].
  apply previewTarget_id in Hn. destruct (captureOriginal_keeps (id n) st) as (Hc & _).
  destruct (canLoad st (fontName n)); cbn [snd]; [|by rewrite Hc].
  unfold setCharacters. cbn [chars withChars]. rewrite lookup_insert_ne by congruence.
  by rewrite Hc.
Qed.

Lemma previewLoop_keepsText i items :
  (forall u, In u items -> t_id u <> i) ->
  respects (keepsTextOf i) (forEach previewItem items).
Proof.
  intros H. apply respects_forEach; [done|unfold keepsTextOf; congruence|].
  intros u Hu. apply previewItem_keepsText. by apply H.
Qed.

Lemma forEach_app {A} (body : A -> M unit) xs ys st :
  forEach body (xs ++ ys) st
  = match forEach body xs st with
    | (Returned _, s) => forEach body ys s
    | (Thrown e, s) => (Thrown e, s)
    end.
Proof.
  revert st. induction xs as [|x xs IH]; intros st; [done|].
  cbn [app forEach]. unfold bind. destruct (body x st) as [[[]|e] s]; [apply IH|done].
Qed.

(** The loop returns exactly when the font of every text node it is to
    change can be loaded. *)
Lemma previewLoop_returns st items s :
  keepsTree st s ->
  fst (forEach previewItem items s) = Returned tt
  <-> forall t n, In t items -> previewTarget st t = Some n -> canLoad st (fontName n) = true.
Proof.
  revert s. induction items as [|t items IH]; intros s Hs.
  { split; [intros _ ? ? []|done]. }
  cbn [forEach]. unfold bind.
  pose proof (previewItem_keepsTree t s) as Hk.
  rewrite previewItem_run in *. rewrite (previewTarget_ext st s t Hs) in *.
  assert (Hfonts : fonts s = fonts st) by (by destruct Hs as (_ & _ & _ & _ & ?)).
  destruct (previewTarget st t) as [n|] eqn:Hn.
  - rewrite (canLoad_ext st s _ Hfonts) in *.
    destruct (canLoad st (fontName n)) eqn:Hl; cbn [snd] in Hk.
    + rewrite IH by (eapply keepsTree_trans; eauto). split.
      * intros H u m [<-|Hu] Hm; [congruence|eauto].
      * intros H u m Hu. apply H. by right.
    + split; [done|]. intros H. specialize (H t n (or_introl eq_refl) Hn). congruence.
  - rewrite IH by done. split.
    + intros H u m [<-|Hu] Hm; [congruence|eauto].
    + intros H u m Hu. apply H. by right.
Qed.

Lemma step_preview st translations language :
  step st (PreviewTranslation translations language)
  = snd (forEach previewItem translations
           (emit (Notify ("Previewing " +:+ Js.toUpperCase language +:+ "...") false) st)).
Proof. done. Qed.

Lemma preview_fst st translations language :
  fst (onmessage (PreviewTranslation translations language) st)
  = fst (forEach previewItem translations
           (emit (Notify ("Previewing " +:+ Js.toUpperCase language +:+ "...") false) st)).
Proof. done. Qed.

Lemma preview_returns st translations language :
  fst (onmessage (PreviewTranslation translations language) st) = Returned tt
  <-> forall t n, In t translations -> previewTarget st t = Some n ->
                  canLoad st (fontName n) = true.
Proof.
  rewrite preview_fst.
  rewrite <- (previewLoop_returns st translations
                (emit (Notify ("Previewing " +:+ Js.toUpperCase language +:+ "...") false) st))
    by apply keepsTree_emit.
  done.
Qed.

Lemma preview_last st translations language pre t post n :
  fst (onmessage (PreviewTranslation translations language) st) = Returned tt ->
  translations = pre ++ t :: post ->
  (forall u, In u post -> t_id u <> t_id t) ->
  previewTarget st t = Some n ->
  characters (step st (PreviewTranslation translations language)) (t_id t)
  = translatedText t.
Proof.
  intros Hret -> Hpost Hn. rewrite preview_fst in Hret. rewrite step_preview.
  set (s0 := emit _ st) in *.
  rewrite forEach_app in *.
  pose proof (previewLoop_keepsTree pre s0) as Hpre.
  destruct (forEach previewItem pre s0) as [[[]|e] s1]; [|done]. cbn [snd] in Hpre.
  assert (Hs1 : keepsTree st s1).
  { eapply keepsTree_trans; [apply keepsTree_emit|exact Hpre]. }
  cbn [forEach] in *. unfold bind in *.
  rewrite previewItem_run in *. rewrite (previewTarget_ext st s1 t Hs1), Hn in *.
  destruct (canLoad s1 (fontName n)); [|done].
  set (s2 := setCharacters (id n) (translatedText t) (captureOriginal (id n) s1)) in *.
  pose proof (previewLoop_keepsText (t_id t) post Hpost s2) as Hkeep.
  unfold keepsTextOf in Hkeep. unfold characters. rewrite Hkeep.
  unfold s2, setCharacters. cbn [chars withChars].
  rewrite (previewTarget_id st t n Hn). by rewrite lookup_insert_eq.
Qed.

End Preview.

Section PreviewProperties.

Lemma otherKeys_preview translations language st i k :
  k <> "originalText" ->
  getPluginData (step st (PreviewTranslation translations language)) i k
  = getPluginData st i k.
Proof.
  intros Hk.
  apply (handlePreviewTranslation_respects
           (fun a b => getPluginData b i k = getPluginData a i k)); try done.
  - congruence.
  - intros j s _. apply getPluginData_set_ne. right. congruence.
Qed.

Lemma preview_events st translations language :
  newEvents st (step st (PreviewTranslation translations language))
  = [Notify ("Previewing " +:+ Js.toUpperCase language +:+ "...") false].
Proof. apply newEvents_app. rewrite step_preview. by rewrite previewLoop_outbox. Qed.

Lemma preview_keepsTree st translations language :
  keepsTree st (step st (PreviewTranslation translations language)).
Proof.
  rewrite step_preview. eapply keepsTree_trans; [apply keepsTree_emit|].
  apply previewLoop_keepsTree.
Qed.

Lemma preview_keepsText st translations language i :
  (forall u, In u translations -> t_id u <> i) ->
  chars (step st (PreviewTranslation translations language)) !! i = chars st !! i.
Proof.
  intros H. rewrite step_preview.
  exact (previewLoop_keepsText i translations H _).
Qed.

(** *** What a revert brings back *)

Lemma restorable_stored st i : originalTextOf st i <> "" -> restorable st i = originalTextOf st i.
Proof. intros H. unfold restorable. apply truthy_spec in H. by rewrite H. Qed.

Lemma restorable_unstored st i : originalTextOf st i = "" -> restorable st i = characters st i.
Proof. intros H. unfold restorable. by rewrite H. Qed.

Lemma keepsRestorable_refl st : keepsRestorable st st.
Proof.
  intros i Hne. destruct (Js.truthy (originalTextOf st i)) eqn:Ht.
  - left. symmetry. apply restorable_stored. by apply truthy_spec.
  - right. apply truthy_false in Ht. by repeat split.
Qed.

Lemma keepsRestorable_trans a b c :
  keepsRestorable a b -> keepsRestorable b c -> keepsRestorable a c.
Proof.
  intros Hab Hbc i Hne. destruct (Hab i Hne) as [H1|(H1 & H2 & H3)].
  - assert (Hb : restorable b i = restorable a i).
    { rewrite restorable_stored; congruence. }
    destruct (Hbc i) as [G|(G1 & G2 & G3)]; [congruence|left; congruence|congruence].
  - assert (Hb : restorable b i = restorable a i).
    { rewrite !restorable_unstored by done. unfold characters. by rewrite H3. }
    destruct (Hbc i) as [G|(G1 & G2 & G3)]; [congruence|left; congruence|].
    right. repeat split; congruence.
Qed.

Lemma keepsRestorable_same st s :
  pdata s = pdata st -> chars s = chars st -> keepsRestorable st s.
Proof.
  intros Hp Hc i Hne. destruct (keepsRestorable_refl st i Hne) as [H|(H1 & H2 & H3)].
  - left. unfold originalTextOf in *. by rewrite (getPluginData_ext st s _ _ Hp).
  - right. unfold originalTextOf in *. rewrite (getPluginData_ext st s _ _ Hp), Hc.
    by repeat split.
Qed.

Lemma captureOriginal_restorable i st :
  restorable st i <> "" -> originalTextOf (captureOriginal i st) i = restorable st i.
Proof.
  intros Hne. unfold captureOriginal, restorable in *.
  destruct (Js.truthy (originalTextOf st i)); [done|].
  unfold originalTextOf. apply getPluginData_set_eq.
Qed.

Lemma captureOriginal_other i st j k :
  i <> j \/ k <> "originalText" ->
  getPluginData (captureOriginal i st) j k = getPluginData st j k.
Proof.
  intros H. unfold captureOriginal. destruct (Js.truthy _); [done|].
  apply getPluginData_set_ne. destruct H as [H|H]; auto.
Qed.

Lemma previewItem_keepsRestorable item : respects keepsRestorable (previewItem item).
Proof.
  intros st. rewrite previewItem_run.
  destruct (previewTarget st item) as [n|]; [|apply keepsRestorable_refl].
  assert (Hcap : keepsRestorable st (captureOriginal (id n) st)).
  { intros i Hne. destruct (decide (id n = i)) as [<-|Hi].
    - left. by apply captureOriginal_restorable.
    - destruct (keepsRestorable_refl st i Hne) as [H|(H1 & H2 & H3)].
      + left. unfold originalTextOf. rewrite captureOriginal_other; auto.
      + right. unfold originalTextOf. rewrite captureOriginal_other by auto.
        destruct (captureOriginal_keeps (id n) st) as (Hc & _). by rewrite Hc. }
  destruct (canLoad st (fontName n)); cbn [snd]; [|exact Hcap].
  intros i Hne. destruct (decide (id n = i)) as [<-|Hi].
  - left. change (originalTextOf (captureOriginal (id n) st) (id n) = restorable st (id n)).
    by apply captureOriginal_restorable.
  - destruct (Hcap i Hne) as [H|(H1 & H2 & H3)]; [by left|right].
    repeat split; try done.
    unfold setCharacters. cbn [chars withChars]. by rewrite lookup_insert_ne.
Qed.

Lemma preview_keepsRestorable st translations language :
  keepsRestorable st (step st (PreviewTranslation translations language)).
Proof.
  rewrite step_preview.
  set (s0 := emit (Notify ("Previewing " +:+ Js.toUpperCase language +:+ "...") false) st).
  apply (keepsRestorable_trans st s0).
  - exact (keepsRestorable_same st s0 eq_refl eq_refl).
  - apply (respects_forEach keepsRestorable);
      [apply keepsRestorable_refl|apply keepsRestorable_trans|].
    intros item _. apply previewItem_keepsRestorable.
Qed.

(** The revert loop writes the stored original of a node of its list, and
    nothing else. *)
Lemma revertChars_cases st l c i :
  snd (revertChars st l c) !! i = c !! i
  \/ exists n, In n l /\ id n = i /\ originalTextOf st i <> ""
               /\ snd (revertChars st l c) !! i = Some (originalTextOf st i).
Proof.
  revert c. induction l as [|m l IH]; intros c; cbn [revertChars]; [by left|].
  destruct (Js.truthy (getPluginData st (id m) "originalText")) eqn:Ht.
  - destruct (canLoad st (fontName m)); [|by left].
    destruct (IH (<[id m := getPluginData st (id m) "originalText"]> c))
      as [H|(n & Hn & Hid & Ho & H)].
    + destruct (decide (id m = i)) as [E|E].
      * right. exists m. split; [by left|]. split; [done|]. subst i. split.
        -- by apply truthy_spec.
        -- rewrite H. by rewrite lookup_insert_eq.
      * left. rewrite H. by rewrite lookup_insert_ne.
    + right. exists n. split; [by right|done].
  - destruct (IH c) as [H|(n & Hn & Hid & Ho & H)]; [by left|].
    right. exists n. split; [by right|done].
Qed.

Lemma step_revert_chars st :
  chars (step st RevertPreview) = snd (revertChars st (revertible st) (chars st)).
Proof.
  unfold step, onmessage. rewrite handleRevertPreview_run.
  by destruct (fst (revertChars st (revertible st) (chars st))).
Qed.

Lemma revert_returns_iff st :
  fst (onmessage RevertPreview st) = Returned tt
  <-> fst (revertChars st (revertible st) (chars st)) = true.
Proof.
  unfold onmessage. rewrite handleRevertPreview_run.
  by destruct (fst (revertChars st (revertible st) (chars st))).
Qed.

Lemma revert_events st :
  newEvents st (step st RevertPreview)
  = if fst (revertChars st (revertible st) (chars st))
    then [Notify "Reverting design..." false; Notify "Design reverted" false]
    else [Notify "Reverting design..." false].
Proof.
  apply newEvents_app. unfold step, onmessage. rewrite handleRevertPreview_run.
  destruct (fst (revertChars st (revertible st) (chars st))); cbn [snd emit outbox withChars].
  - by rewrite <- app_assoc.
  - done.
Qed.

Lemma roundtrip st translations language n :
  fst (onmessage RevertPreview (step st (PreviewTranslation translations language)))
    = Returned tt ->
  In n (pageNodes (currentPage st)) -> isText (type n) = true ->
  restorable st (id n) <> "" ->
  characters (run [PreviewTranslation translations language; RevertPreview] st) (id n)
  = restorable st (id n).
Proof.
  intros Hret Hn Ht Hne. cbn [run fold_left].
  pose proof (preview_keepsTree st translations language) as (Hp & _).
  pose proof (preview_keepsRestorable st translations language (id n) Hne) as Hkeep.
  revert Hret Hp Hkeep.
  generalize (step st (PreviewTranslation translations language)). intros st1 Hret Hp Hkeep.
  apply revert_returns_iff in Hret.
  unfold characters. rewrite step_revert_chars.
  destruct Hkeep as [H|(H1 & H2 & H3)].
  - rewrite (revertChars_restores st1 (revertible st1) (chars st1) n Hret).
    + cbn [default]. exact H.
    + apply revertible_iff. rewrite Hp. split; [done|]. split; [done|]. congruence.
    + change (originalTextOf st1 (id n) <> ""). congruence.
  - destruct (revertChars_cases st1 (revertible st1) (chars st1) (id n))
      as [G|(m & _ & _ & Ho & _)]; [|congruence].
    rewrite G, H3. by rewrite restorable_unstored.
Qed.

(** X11 ([handlePreviewTranslation]).  After a preview that returns, a
    text node shows the text of the last item that names it: later items
    overwrite earlier ones. *)
Theorem preview_shows_last st translations language pre t post n :
  fst (onmessage (PreviewTranslation translations language) st) = Returned tt ->
  translations = pre ++ t :: post ->
  (forall u, In u post -> t_id u <> t_id t) ->
  getNodeById st (t_id t) = Some (IsScene n) -> isText (type n) = true ->
  characters (step st (PreviewTranslation translations language)) (t_id t)
  = translatedText t.
Proof.
  intros Hret Heq Hpost Hn Ht. eapply preview_last; eauto.
  apply previewTarget_spec. by split.
Qed.

Lemma preview_shows_last_witness :
  characters (step Demo.fresh (PreviewTranslation Demo.french "fr")) 3 = "Soumettre".
Proof.
  apply (preview_shows_last Demo.fresh Demo.french "fr"
           [mkTranslation 3 "Envoyer"; mkTranslation 4 "Bon retour"]
           (mkTranslation 3 "Soumettre") [] Demo.submit).
  - vm_compute. reflexivity.
  - reflexivity.
  - intros u Hu. destruct Hu.
  - vm_compute. reflexivity.
  - reflexivity.
Defined.

(** X12 ([handlePreviewTranslation]).  A preview returns exactly when the
    font of every text node named by an item can be loaded; otherwise
    the rejection of [loadFontAsync] escapes the handler. *)
Theorem preview_returns_iff st translations language :
  fst (onmessage (PreviewTranslation translations language) st) = Returned tt
  <-> (forall t n, In t translations ->
         getNodeById st (t_id t) = Some (IsScene n) -> isText (type n) = true ->
         canLoad st (fontName n) = true).
Proof.
  rewrite preview_returns. split.
  - intros H t n Hin Hg Ht. apply (H t n Hin). apply previewTarget_spec. by split.
  - intros H t n Hin Hn. apply previewTarget_spec in Hn as [Hg Ht]. eauto.
Qed.

Lemma preview_returns_iff_witness :
  canLoad Demo.fresh (fontName Demo.submit) = true
  /\ fst (onmessage (PreviewTranslation [mkTranslation 5 "Geheim"] "de") Demo.fresh)
     <> Returned tt.
Proof.
  split.
  - apply (proj1 (preview_returns_iff Demo.fresh Demo.french "fr"))
      with (t := mkTranslation 3 "Envoyer").
    + vm_compute. reflexivity.
    + vm_compute. left. reflexivity.
    + vm_compute. reflexivity.
    + reflexivity.
  - intros Hret.
    pose proof (proj1 (preview_returns_iff Demo.fresh [mkTranslation 5 "Geheim"] "de")
                  Hret (mkTranslation 5 "Geheim") Demo.hidden) as H.
    assert (Hc : canLoad Demo.fresh (fontName Demo.hidden) = true).
    { apply H; vm_compute; auto. }
    vm_compute in Hc. discriminate.
Defined.

(** X13 ([handlePreviewTranslation]).  Whether it returns or not, a
    preview emits one toast and no panel message, leaves the tree, the
    selection and the identifier supply alone, writes no plugin data but
    [originalText], and changes the visible text only of identifiers named
    by an item. *)
Theorem preview_frame st translations language :
  let st' := step st (PreviewTranslation translations language) in
  newEvents st st' = [Notify ("Previewing " +:+ Js.toUpperCase language +:+ "...") false]
  /\ keepsTree st st'
  /\ (forall i k, k <> "originalText" -> getPluginData st' i k = getPluginData st i k)
  /\ (forall i, (forall u, In u translations -> t_id u <> i) ->
        chars st' !! i = chars st !! i).
Proof.
  intros st'. split; [apply preview_events|]. split; [apply preview_keepsTree|].
  split.
  - intros i k Hk. by apply otherKeys_preview.
  - intros i Hi. by apply preview_keepsText.
Qed.

Lemma preview_frame_witness :
  chars (step Demo.fresh (PreviewTranslation Demo.french "fr")) !! 5 = chars Demo.fresh !! 5
  /\ getPluginData (step Demo.fresh (PreviewTranslation Demo.french "fr")) 3 "nodeKey"
     = getPluginData Demo.fresh 3 "nodeKey".
Proof.
  destruct (preview_frame Demo.fresh Demo.french "fr") as (_ & _ & Hkeys & Htext). split.
  - apply Htext. intros u Hu. vm_compute in Hu.
    destruct Hu as [<-|[<-|[<-|[]]]]; vm_compute; discriminate.
  - apply Hkeys. discriminate.
Defined.

(** X14 ([handlePreviewTranslation], then [handleRevertPreview]).  A
    preview followed by a revert that returns brings back the text of
    every text node of the current page that had a non-empty text and
    either no stored [originalText] or one equal to its text; this holds
    even when the preview stopped half-way. *)
Theorem preview_revert_roundtrip st translations language n :
  fst (onmessage RevertPreview (step st (PreviewTranslation translations language)))
    = Returned tt ->
  In n (pageNodes (currentPage st)) -> isText (type n) = true ->
  characters st (id n) <> "" ->
  originalTextOf st (id n) = "" \/ originalTextOf st (id n) = characters st (id n) ->
  characters (run [PreviewTranslation translations language; RevertPreview] st) (id n)
  = characters st (id n).
Proof.
  intros Hret Hn Ht Hne Horig.
  assert (Hr : restorable st (id n) = characters st (id n)).
  { destruct Horig as [H|H]; [by apply restorable_unstored|].
    rewrite restorable_stored; congruence. }
  rewrite <- Hr. apply roundtrip; try done. congruence.
Qed.

Lemma preview_revert_roundtrip_witness :
  characters (run [PreviewTranslation Demo.french "fr"; RevertPreview] Demo.fresh) 3
  = "Submit".
Proof.
  apply (preview_revert_roundtrip Demo.fresh Demo.french "fr" Demo.submit).
  - vm_compute. reflexivity.
  - vm_compute. right. right. left. reflexivity.
  - reflexivity.
  - vm_compute. discriminate.
  - left. vm_compute. reflexivity.
Defined.

(** X15 ([handleRevertPreview]).  A revert changes nothing but visible
    texts and the outbox, and a text it changes belongs to a text node of
    the current page with a stored [originalText], which it then shows.
    Text nodes of other pages are never reverted. *)
Theorem revert_touches_captured_only st :
  let st' := step st RevertPreview in
  sameButText st st'
  /\ forall i,
       chars st' !! i = chars st !! i
       \/ exists n, In n (pageNodes (currentPage st)) /\ isText (type n) = true
                    /\ id n = i /\ originalTextOf st i <> ""
                    /\ characters st' i = originalTextOf st i.
Proof.
  intros st'. split; [apply revert_sameButText|].
  intros i. unfold st', characters. rewrite step_revert_chars.
  destruct (revertChars_cases st (revertible st) (chars st) i)
    as [H|(n & Hn & Hid & Ho & H)]; [by left|right].
  apply revertible_iff in Hn as (Hp & Ht & _).
  exists n. rewrite H. by repeat split.
Qed.

End PreviewProperties.

(* ===================================================================== *)
(** ** What each handler leaves alone *)
(* ===================================================================== *)

Section Frames.

Lemma keepsTreeAndText_refl st : keepsTreeAndText st st.
Proof. split; [apply keepsTree_refl|done]. Qed.

Lemma keepsTreeAndText_trans a b c :
  keepsTreeAndText a b -> keepsTreeAndText b c -> keepsTreeAndText a c.
Proof.
  intros [H1 H2] [G1 G2]. split; [by eapply keepsTree_trans|congruence].
Qed.

Lemma clearStorage_run st :
  handleClearStorage st
  = (Returned tt,
     emit (Notify "All plugin data cleared from design!" false)
       (snd (forEach clearNode (pageChildren (currentPage st))
               (emit (Notify "Cleaning up all design metadata..." false) st)))).
Proof.
  unfold handleClearStorage. cbv beta iota zeta delta [bind notify modify get].
  set (s0 := emit _ st).
  pose proof (forEach_returns clearNode (pageChildren (currentPage s0)) s0
                (fun x s _ => clearNode_returns x s)) as Hret.
  change (currentPage s0) with (currentPage st) in *.
  by destruct (forEach clearNode (pageChildren (currentPage st)) s0) as [[[]|e] s1].
Qed.

Lemma clearLoop_sameButPdata l st : sameButPdata st (snd (forEach clearNode l st)).
Proof.
  apply (respects_forEach sameButPdata);
    [apply sameButPdata_refl|apply sameButPdata_trans|].
  intros n _. apply clearNode_sameButPdata.
Qed.

Lemma sameButPdata_keeps st st' : sameButPdata st st' -> keepsTreeAndText st st'.
Proof. intros (H1 & H2 & H3 & H4 & H5 & H6 & H7). by repeat split. Qed.

Lemma clear_events st :
  newEvents st (step st ClearStorage)
  = [Notify "Cleaning up all design metadata..." false;
     Notify "All plugin data cleared from design!" false].
Proof.
  apply newEvents_app. unfold step, onmessage. rewrite clearStorage_run.
  cbn [snd emit outbox].
  destruct (clearLoop_sameButPdata (pageChildren (currentPage st))
              (emit (Notify "Cleaning up all design metadata..." false) st))
    as (_ & _ & _ & _ & _ & _ & Ho).
  rewrite Ho. cbn [emit outbox]. by rewrite <- app_assoc.
Qed.

Lemma clear_keeps st : keepsTreeAndText st (step st ClearStorage).
Proof.
  unfold step, onmessage. rewrite clearStorage_run. cbn [snd].
  destruct (clearLoop_sameButPdata (pageChildren (currentPage st))
              (emit (Notify "Cleaning up all design metadata..." false) st))
    as (H1 & H2 & H3 & H4 & H5 & H6 & H7).
  unfold keepsTreeAndText, keepsTree. cbn [emit currentPage otherPages selection nextId fonts chars] in *.
  by repeat split.
Qed.

Lemma store_keeps st data : keepsTreeAndText st (step st (StoreTranslations data)).
Proof. apply sameButPdata_keeps. by destruct (store_state data st) as [H _]. Qed.

Lemma store_events st data : newEvents st (step st (StoreTranslations data)) = [].
Proof.
  apply newEvents_app. destruct (store_state data st) as [(_ & _ & _ & _ & _ & _ & Ho) _].
  cbv zeta in Ho. by rewrite Ho, app_nil_r.
Qed.

Lemma updateManual_sameButPdata st i lang text :
  sameButPdata st (step st (UpdateManualTranslation i lang text)).
Proof.
  unfold step, onmessage. rewrite updateManual_run.
  destruct (getNodeById st i); [|apply sameButPdata_refl]. cbn [snd].
  eapply sameButPdata_trans; apply sameButPdata_set.
Qed.

Lemma updateManual_events st i lang text :
  newEvents st (step st (UpdateManualTranslation i lang text)) = [].
Proof.
  apply newEvents_app.
  destruct (updateManual_sameButPdata st i lang text) as (_ & _ & _ & _ & _ & _ & Ho).
  by rewrite Ho, app_nil_r.
Qed.

Lemma close_events st : newEvents st (step st Close) = [].
Proof. apply newEvents_app. by rewrite app_nil_r. Qed.

Lemma revert_keepsTree st : keepsTree st (step st RevertPreview).
Proof.
  destruct (revert_sameButText st) as (H1 & H2 & H3 & H4 & H5 & H6). by repeat split.
Qed.

Lemma step_keepsTree st msg : ~ isApply msg -> keepsTree st (step st msg).
Proof.
  destruct msg as [|ts l|data|ts l| |i lang text| |]; intros Hmsg.
  - by destruct (scan_state st) as (_ & H & _).
  - by destruct Hmsg.
  - by destruct (store_keeps st data).
  - apply preview_keepsTree.
  - apply revert_keepsTree.
  - by destruct (sameButPdata_keeps _ _ (updateManual_sameButPdata st i lang text)).
  - by destruct (clear_keeps st).
  - apply keepsTree_refl.
Qed.

Lemma step_keepsText st msg : touchesText msg = false -> chars (step st msg) = chars st.
Proof.
  destruct msg as [|ts l|data|ts l| |i lang text| |]; intros Hmsg; try discriminate.
  - by destruct (scan_state st) as (H & _).
  - by destruct (store_keeps st data).
  - by destruct (sameButPdata_keeps _ _ (updateManual_sameButPdata st i lang text)).
  - by destruct (clear_keeps st).
  - done.
Qed.

Lemma step_posts st msg :
  postsToPanel msg = false -> posts (newEvents st (step st msg)) = [].
Proof.
  destruct msg as [|ts l|data|ts l| |i lang text| |]; intros Hmsg; try discriminate.
  - by rewrite store_events.
  - by rewrite preview_events.
  - rewrite revert_events. by destruct (fst _).
  - by rewrite updateManual_events.
  - by rewrite clear_events.
  - by rewrite close_events.
Qed.

(** X16 ([onmessage] and every handler but [handleApplyTranslation]).  Only
    applying a translation changes the document tree, the selection or the
    identifier supply; and only apply, preview and revert change a
    visible text: scanning, storing, overriding, clearing and closing
    never do. *)
Theorem tree_and_text_frame st msg :
  (~ isApply msg -> keepsTree st (step st msg))
  /\ (touchesText msg = false -> chars (step st msg) = chars st).
Proof. split; [apply step_keepsTree|apply step_keepsText]. Qed.

Lemma tree_and_text_frame_witness :
  keepsTree Demo.scannedOnce (step Demo.scannedOnce (PreviewTranslation Demo.french "fr"))
  /\ chars (step Demo.scannedOnce ClearStorage) = chars Demo.scannedOnce.
Proof.
  split.
  - apply (proj1 (tree_and_text_frame Demo.scannedOnce (PreviewTranslation Demo.french "fr"))).
    simpl. intros H. exact H.
  - apply (proj2 (tree_and_text_frame Demo.scannedOnce ClearStorage)). reflexivity.
Defined.

(** X17 ([onmessage]).  Only [scan] and [apply-translation] answer the
    panel: the handlers of every other message post nothing, whether they
    return or not.  Storing, overriding and closing emit no event at all,
    a preview emits its one toast, clearing emits its two toasts, and a
    revert shows the toast [Design reverted] exactly when it has
    returned. *)
Theorem quiet_handlers st msg :
  postsToPanel msg = false ->
  responses (onmessage msg) st = []
  /\ match msg with
     | StoreTranslations _ | UpdateManualTranslation _ _ _ | Close =>
         newEvents st (step st msg) = []
     | ClearStorage =>
         newEvents st (step st msg)
         = [Notify "Cleaning up all design metadata..." false;
            Notify "All plugin data cleared from design!" false]
     | RevertPreview =>
         In (Notify "Design reverted" false) (newEvents st (step st msg))
         <-> fst (onmessage msg st) = Returned tt
     | PreviewTranslation _ language =>
         newEvents st (step st msg)
         = [Notify ("Previewing " +:+ Js.toUpperCase language +:+ "...") false]
     | Scan | ApplyTranslationMsg _ _ => True
     end.
Proof.
  intros Hmsg. split; [by apply step_posts|].
  destruct msg as [|ts l|data|ts l| |i lang text| |]; try done.
  - apply store_events.
  - apply preview_events.
  - rewrite revert_events, revert_returns_iff.
    destruct (fst (revertChars st (revertible st) (chars st))).
    + split; [done|]. intros _. right. by left.
    + split; [|done]. intros [H|[]]. discriminate.
  - apply updateManual_events.
  - apply clear_events.
  - apply close_events.
Qed.

Lemma quiet_handlers_witness :
  responses (onmessage RevertPreview) Demo.scannedOnce = []
  /\ (In (Notify "Design reverted" false)
        (newEvents Demo.scannedOnce (step Demo.scannedOnce RevertPreview))
      <-> fst (onmessage RevertPreview Demo.scannedOnce) = Returned tt).
Proof. apply (quiet_handlers Demo.scannedOnce RevertPreview). reflexivity. Defined.

End Frames.

(* ===================================================================== *)
(** ** Copies made by apply *)
(* ===================================================================== *)

Section PlacedCopies.

Lemma grows_refl st : grows st st.
Proof.
  split; [done|]. split; [done|]. split; [done|]. split.
  - intros m0 H. by exists m0.
  - intros m H. left. by exists m.
Qed.

Lemma grows_trans a b c : grows a b -> grows b c -> grows a c.
Proof.
  intros (H1 & H2 & H3 & H4 & H5) (G1 & G2 & G3 & G4 & G5).
  split; [congruence|]. split; [congruence|]. split; [lia|]. split.
  - intros m0 Hm0. destruct (H4 m0 Hm0) as (m1 & Hm1 & E1 & E2 & E3).
    destruct (G4 m1 Hm1) as (m2 & Hm2 & F1 & F2 & F3).
    exists m2. repeat split; congruence.
  - intros m Hm. destruct (G5 m Hm) as [(m1 & Hm1 & F1 & F2 & F3)|Hfresh]; [|right; lia].
    destruct (H5 m1 Hm1) as [(m0 & Hm0 & E1 & E2 & E3)|Hfresh].
    + left. exists m0. repeat split; congruence.
    + right. rewrite <- F1. lia.
Qed.

Lemma keepsTree_grows st st' : keepsTree st st' -> grows st st'.
Proof.
  intros (Hp & Ho & Hs & Hn & _). split; [done|]. split; [done|]. split; [lia|].
  rewrite Hp. split.
  - intros m0 H. by exists m0.
  - intros m H. left. by exists m.
Qed.

Lemma translateLeaf_keepsTree translations language leaf :
  respects keepsTree (translateLeaf translations language leaf).
Proof.
  intros st. rewrite translateLeaf_run. destruct (Js.truthy _); [|apply keepsTree_refl].
  rewrite matchLoop_run. destruct (find _ translations); [|apply keepsTree_refl].
  destruct (canLoad st (fontName leaf)); [|apply keepsTree_refl].
  by repeat split.
Qed.

Lemma translateLeaves_keepsTree translations language leaves :
  respects keepsTree (forEach (translateLeaf translations language) leaves).
Proof.
  apply respects_forEach; [apply keepsTree_refl|apply keepsTree_trans|].
  intros leaf _. apply translateLeaf_keepsTree.
Qed.

(** [target.parent.appendChild(c)] puts [c] on the page when the target
    is on it. *)
Lemma appendToParentOf_places c n m :
  In n (nodes m) -> n = m \/ In c (nodes (appendToParentOf (id n) c m)).
Proof.
  induction m as [i ty nm v f cs IH] using SceneNode_forall_ind.
  cbn [nodes]. intros [Hn|Hn]; [by left|right].
  destruct (hasChildren ty) eqn:Hc; [|destruct Hn].
  apply in_flat_map in Hn as (ch & Hch & Hn).
  cbn [appendToParentOf]. rewrite Hc. cbn [nodes]. rewrite Hc. right.
  apply in_flat_map. rewrite List.Forall_forall in IH.
  destruct (IH ch Hch Hn) as [->|Hin].
  - exists c. split; [|apply nodes_self]. apply in_or_app. right.
    assert (Hh : holds (id ch) cs = true).
    { unfold holds. apply existsb_exists. exists ch. split; [done|]. by apply Nat.eqb_eq. }
    rewrite Hh. by left.
  - exists (appendToParentOf (id n) c ch). split; [|done].
    apply in_or_app. left. by apply in_map.
Qed.

Lemma appendToParentOnPage_places c n p :
  In n (pageNodes p) -> In c (pageNodes (appendToParentOnPage (id n) c p)).
Proof.
  unfold pageNodes at 1. intros Hn. apply in_flat_map in Hn as (ch & Hch & Hn).
  unfold pageNodes, appendToParentOnPage. cbn [pageChildren]. apply in_flat_map.
  destruct (appendToParentOf_places c n ch Hn) as [->|Hin].
  - exists c. split; [|apply nodes_self]. apply in_or_app. right.
    assert (Hh : holds (id ch) (pageChildren p) = true).
    { unfold holds. apply existsb_exists. exists ch. split; [done|]. by apply Nat.eqb_eq. }
    rewrite Hh. by left.
  - exists (appendToParentOf (id n) c ch). split; [|done].
    apply in_or_app. left. by apply in_map.
Qed.

Lemma clone_relabel n st copy st1 :
  clone n st = (Returned copy, st1) -> copy = fst (relabel n (nextId st)).
Proof.
  unfold clone. destruct (relabel n (nextId st)). by intros [= <- _].
Qed.

Lemma nodes_rename_kinds nm n : map kind (nodes (rename nm n)) = map kind (nodes n).
Proof. by destruct n. Qed.

(** One iteration of the loop over the selection, from the state before
    [clone] to the state after the text leaves of the copy are handled. *)
Lemma cloneAndTranslate_spec translations language n st :
  let r := cloneAndTranslate translations language n st in
  grows st (snd r)
  /\ nextId st < nextId (snd r)
  /\ (In n (pageNodes (currentPage st)) ->
      exists copy, In copy (pageNodes (currentPage (snd r)))
                   /\ id copy = nextId st
                   /\ name copy = copyName (name n) language
                   /\ type copy = type n
                   /\ map kind (nodes copy) = map kind (nodes n)
                   /\ (forall c, fst r = Returned c -> c = copy)).
Proof.
  unfold cloneAndTranslate.
  destruct (clone_spec n st)
    as (copy0 & st1 & Hclone & Hlt & Hin & Hty & Hfo & Hpage & Hoth & Hsel & _ & _ & _).
  pose proof (clone_relabel n st copy0 st1 Hclone) as Hrel.
  rewrite (bind_run _ _ _ _ _ Hclone).
  set (c := rename (copyName (name n) language) copy0).
  set (st2 := withPage (appendToParentOnPage (id n) c (currentPage st1)) st1).
  change (bind (modify (fun st => withPage (appendToParentOnPage (id n) c (currentPage st)) st))
            (fun _ => bind (forEach (translateLeaf translations language) (cloneTextNodes c))
                        (fun _ => ret c)) st1)
    with (bind (forEach (translateLeaf translations language) (cloneTextNodes c))
            (fun _ => ret c) st2).
  pose proof (translateLeaves_keepsTree translations language (cloneTextNodes c) st2) as Hk.
  assert (Hg : grows st st2).
  { split; [exact Hsel|]. split; [exact Hoth|]. split; [cbn; lia|].
    cbn [st2 currentPage withPage]. rewrite Hpage. split.
    - intros m0 Hm0. by apply appendToParentOnPage_nodes.
    - intros m Hm. apply appendToParentOnPage_nodes in Hm as [Hm|Hm]; [by left|right].
      apply rename_nodes_ids in Hm as (m1 & Hm1 & <- & _). cbn [nextId withPage].
      by apply Hin. }
  assert (Hc : In n (pageNodes (currentPage st)) ->
               In c (pageNodes (currentPage st2))
               /\ id c = nextId st /\ name c = copyName (name n) language
               /\ type c = type n /\ map kind (nodes c) = map kind (nodes n)).
  { intros Hn. split.
    - cbn [st2 currentPage withPage]. rewrite Hpage. by apply appendToParentOnPage_places.
    - split; [|split; [done|split; [done|]]].
      + cbn [c rename id]. rewrite Hrel. by destruct (relabel_ids n (nextId st)) as (_ & ? & _).
      + unfold c. rewrite nodes_rename_kinds, Hrel. apply relabel_kinds. }
  unfold bind, ret.
  destruct (forEach (translateLeaf translations language) (cloneTextNodes c) st2)
    as [[[]|e] st3]; cbn [fst snd] in *.
  - split; [eapply grows_trans; [exact Hg|by apply keepsTree_grows]|].
    destruct Hk as (Hp3 & _ & _ & Hn3 & _).
    split; [rewrite Hn3; cbn; lia|].
    intros Hn. destruct (Hc Hn) as (H1 & H2 & H3 & H4 & H5).
    exists c. rewrite Hp3. repeat split; try done. by intros ? [= <-].
  - split; [eapply grows_trans; [exact Hg|by apply keepsTree_grows]|].
    destruct Hk as (Hp3 & _ & _ & Hn3 & _).
    split; [rewrite Hn3; cbn; lia|].
    intros Hn. destruct (Hc Hn) as (H1 & H2 & H3 & H4 & H5).
    exists c. rewrite Hp3. repeat split; try done.
Qed.

Lemma cloneAndTranslate_grows translations language n :
  respects grows (cloneAndTranslate translations language n).
Proof. intros st. by destruct (cloneAndTranslate_spec translations language n st). Qed.

Lemma cloneLoop_grows translations language sel clones :
  respects grows (cloneLoop translations language sel clones).
Proof.
  revert clones. induction sel as [|i rest IH]; intros clones; cbn [cloneLoop].
  { apply respects_ret. apply grows_refl. }
  apply respects_get_bind. intros st.
  destruct (findOnPage (currentPage st) i) as [n|]; [|apply IH].
  apply respects_bind; [apply grows_trans|apply cloneAndTranslate_grows|intros copy; apply IH].
Qed.

Lemma findOnPage_some p i :
  In i (map id (pageNodes p)) -> findOnPage p i <> None.
Proof.
  intros Hin. apply in_map_iff in Hin as (n & Hid & Hn).
  destruct (find_exists (fun m => id m =? i) (pageNodes p) n Hn) as (y & Hy).
  - by apply Nat.eqb_eq.
  - unfold findOnPage. by rewrite Hy.
Qed.

Lemma grows_ids st st' i :
  grows st st' -> In i (map id (pageNodes (currentPage st))) ->
  In i (map id (pageNodes (currentPage st'))).
Proof.
  intros (_ & _ & _ & H & _) Hin. apply in_map_iff in Hin as (m0 & <- & Hm0).
  destruct (H m0 Hm0) as (m & Hm & <- & _). by apply in_map.
Qed.

(** The identifiers the loop over the selection collects. *)
Lemma cloneLoop_result translations language sel clones st clones' st' :
  cloneLoop translations language sel clones st = (Returned clones', st') ->
  exists new,
    clones' = clones ++ new
    /\ length new <= length sel
    /\ NoDup new
    /\ (forall i, In i new ->
          nextId st <= i < nextId st' /\ In i (map id (pageNodes (currentPage st'))))
    /\ ((forall i, In i sel -> In i (map id (pageNodes (currentPage st)))) ->
        length new = length sel).
Proof.
  revert clones st. induction sel as [|i rest IH]; intros clones st; cbn [cloneLoop].
  { intros [= <- <-]. exists []. rewrite app_nil_r.
    split; [done|]. split; [done|]. split; [constructor|]. split; [intros i []|done]. }
  unfold bind at 1, get at 1.
  destruct (findOnPage (currentPage st) i) as [n|] eqn:Hfind.
  - destruct (cloneAndTranslate_spec translations language n st) as (Hg & Hlt & Hcopy).
    destruct (Hcopy (findOnPage_in _ _ _ Hfind)) as (copy & Hin & Hid & _ & _ & _ & Hret).
    unfold bind. destruct (cloneAndTranslate translations language n st) as [[c|e] s1] eqn:Hrun;
      [|discriminate].
    cbn [fst snd] in *. rewrite (Hret c eq_refl) in *. clear Hret.
    intros Hloop.
    pose proof (cloneLoop_grows translations language rest (clones ++ [id copy]) s1) as Hg2.
    rewrite Hloop in Hg2. cbn [snd] in Hg2.
    destruct (IH _ _ Hloop) as (new & -> & Hlen & Hnd & Hrange & Hall).
    exists (id copy :: new). split; [by rewrite <- app_assoc|].
    split; [cbn [length]; lia|]. split; [|split].
    + apply NoDup_cons. split; [|done]. intros Hmem. apply list_elem_of_In in Hmem.
      apply Hrange in Hmem as [Hr _]. lia.
    + intros j [<-|Hj].
      * pose proof Hg2 as (_ & _ & Hn2 & _). split; [lia|].
        apply (grows_ids s1 st'); [done|]. by apply in_map.
      * destruct (Hrange j Hj) as [Hr Hp]. split; [lia|done].
    + intros Hsel. cbn [length]. f_equal. apply Hall. intros j Hj.
      apply (grows_ids st s1); [done|]. apply Hsel. by right.
  - intros Hloop. destruct (IH _ _ Hloop) as (new & -> & Hlen & Hnd & Hrange & Hall).
    exists new. split; [done|]. split; [cbn [length]; lia|]. split; [done|].
    split; [done|]. intros Hsel. exfalso.
    apply (findOnPage_some (currentPage st) i); [|done]. apply Hsel. by left.
Qed.

Lemma apply_outcome st translations language :
  selection st <> [] ->
  let st' := step st (ApplyTranslationMsg translations language) in
  let st1 := emit (Notify ("Creating " +:+ Js.toUpperCase language +:+ " copy...") false) st in
  let r := cloneLoop translations language (selection st) [] st1 in
  match fst r with
  | Returned clones =>
      In (PostMessage ApplyComplete) (newEvents st st')
      /\ selection st' = clones /\ currentPage st' = currentPage (snd r)
      /\ nextId st' = nextId (snd r) /\ otherPages st' = otherPages (snd r)
  | Thrown e =>
      ~ In (PostMessage ApplyComplete) (newEvents st st')
      /\ selection st' = selection (snd r) /\ currentPage st' = currentPage (snd r)
      /\ nextId st' = nextId (snd r) /\ otherPages st' = otherPages (snd r)
  end.
Proof.
  intros Hsel st' st1 r.
  destruct (handleApplyTranslation_cases translations language st Hsel)
    as [(clones & st2 & Hloop & Hrun)|(e & st2 & Hloop & Hrun)];
    fold st1 in Hloop; unfold r; rewrite Hloop; cbn [fst snd];
    pose proof (cloneLoop_outbox translations language (selection st) [] st1) as Hout;
    rewrite Hloop in Hout; cbn [snd] in Hout;
    unfold st', step, onmessage; rewrite Hrun; cbn [snd].
  - split; [|done].
    erewrite newEvents_app.
    2:{ cbn [emit outbox withSelection]. rewrite Hout. unfold st1. cbn [emit outbox].
        rewrite <- !app_assoc. reflexivity. }
    cbn [app]. right. right. by left.
  - split; [|done].
    erewrite newEvents_app.
    2:{ cbn [emit outbox withSelection]. rewrite Hout. unfold st1. cbn [emit outbox].
        rewrite <- !app_assoc. reflexivity. }
    cbn [app]. intros [H|[H|[H|[]]]]; discriminate.
Qed.

Lemma apply_grows st translations language :
  let st' := step st (ApplyTranslationMsg translations language) in
  otherPages st' = otherPages st
  /\ nextId st <= nextId st'
  /\ (forall m0, In m0 (pageNodes (currentPage st)) ->
        exists m, In m (pageNodes (currentPage st'))
                  /\ id m = id m0 /\ type m = type m0 /\ fontName m = fontName m0)
  /\ (forall m, In m (pageNodes (currentPage st')) ->
        (exists m0, In m0 (pageNodes (currentPage st))
                    /\ id m0 = id m /\ type m0 = type m /\ fontName m0 = fontName m)
        \/ nextId st <= id m < nextId st')
  /\ (~ In (PostMessage ApplyComplete) (newEvents st st') -> selection st' = selection st).
Proof.
  intros st'. destruct (selection st) as [|i sel] eqn:Hsel.
  { unfold st', step, onmessage. rewrite applyWithoutSelection_run by done. cbn [snd].
    destruct (grows_refl st) as (_ & _ & H3 & H4 & H5).
    split; [done|]. split; [done|]. split; [exact H4|]. split; [exact H5|]. by intros _. }
  assert (Hne : selection st <> []) by (by rewrite Hsel).
  pose proof (apply_outcome st translations language Hne) as Hout. cbv zeta in Hout.
  pose proof (cloneLoop_grows translations language (selection st) []
                (emit (Notify ("Creating " +:+ Js.toUpperCase language +:+ " copy...") false) st))
    as (G1 & G2 & G3 & G4 & G5).
  fold st' in Hout. rewrite <- Hsel.
  destruct (fst (cloneLoop _ _ _ _ _)) as [clones|e].
  - destruct Hout as (Hc & Hs & Hp & Hn & Ho). rewrite Hp, Hn, Ho.
    split; [exact G2|]. split; [exact G3|]. split; [exact G4|]. split; [exact G5|]. done.
  - destruct Hout as (Hc & Hs & Hp & Hn & Ho). rewrite Hp, Hn, Ho, Hs.
    split; [exact G2|]. split; [exact G3|]. split; [exact G4|]. split; [exact G5|].
    intros _. exact G1.
Qed.

Lemma apply_selection st translations language :
  let st' := step st (ApplyTranslationMsg translations language) in
  In (PostMessage ApplyComplete) (newEvents st st') ->
  length (selection st') <= length (selection st)
  /\ NoDup (selection st')
  /\ (forall i, In i (selection st') ->
        nextId st <= i < nextId st' /\ In i (map id (pageNodes (currentPage st'))))
  /\ ((forall i, In i (selection st) -> In i (map id (pageNodes (currentPage st)))) ->
      length (selection st') = length (selection st)).
Proof.
  intros st' Hcomplete. destruct (selection st) as [|i sel] eqn:Hsel.
  { exfalso. revert Hcomplete. unfold st', step, onmessage.
    rewrite applyWithoutSelection_run by done. cbn [snd].
    erewrite newEvents_app by reflexivity. intros [H|[]]. discriminate. }
  assert (Hne : selection st <> []) by (by rewrite Hsel).
  pose proof (apply_outcome st translations language Hne) as Hout. cbv zeta in Hout.
  fold st' in Hout. rewrite <- Hsel.
  destruct (cloneLoop translations language (selection st) []
              (emit (Notify ("Creating " +:+ Js.toUpperCase language +:+ " copy...") false) st))
    as [[clones|e] st2] eqn:Hloop; cbn [fst snd] in Hout.
  - destruct Hout as (_ & Hs & Hp & Hn & _).
    destruct (cloneLoop_result _ _ _ _ _ _ _ Hloop) as (new & Hnew & H1 & H2 & H3 & H4).
    cbn [app] in Hnew. subst new. rewrite Hs, Hp, Hn.
    split; [exact H1|]. split; [exact H2|]. split; [exact H3|exact H4].
  - by destruct Hout as [Hout _].
Qed.

(** X18 (the selection loop of [handleApplyTranslation]).  When apply
    answers [apply-complete], the new selection consists of distinct
    fresh identifiers, each of a node now on the page, at most one per
    selected node; when every selected identifier is on the page there is
    exactly one per selected node. *)
Theorem apply_selects_copies st translations language :
  let st' := step st (ApplyTranslationMsg translations language) in
  In (PostMessage ApplyComplete) (newEvents st st') ->
  length (selection st') <= length (selection st)
  /\ NoDup (selection st')
  /\ (forall i, In i (selection st') ->
        nextId st <= i < nextId st' /\ In i (map id (pageNodes (currentPage st'))))
  /\ ((forall i, In i (selection st) -> In i (map id (pageNodes (currentPage st)))) ->
      length (selection st') = length (selection st)).
Proof. apply apply_selection. Qed.

Lemma apply_selects_copies_witness :
  length (selection (step Demo.scannedOnce (ApplyTranslationMsg Demo.french "fr")))
    <= length (selection Demo.scannedOnce)
  /\ NoDup (selection (step Demo.scannedOnce (ApplyTranslationMsg Demo.french "fr")))
  /\ (forall i, In i (selection (step Demo.scannedOnce (ApplyTranslationMsg Demo.french "fr"))) ->
        nextId Demo.scannedOnce <= i
          < nextId (step Demo.scannedOnce (ApplyTranslationMsg Demo.french "fr"))
        /\ In i (map id (pageNodes (currentPage
                  (step Demo.scannedOnce (ApplyTranslationMsg Demo.french "fr"))))))
  /\ ((forall i, In i (selection Demo.scannedOnce) ->
         In i (map id (pageNodes (currentPage Demo.scannedOnce)))) ->
      length (selection (step Demo.scannedOnce (ApplyTranslationMsg Demo.french "fr")))
      = length (selection Demo.scannedOnce)).
Proof.
  apply (apply_selects_copies Demo.scannedOnce Demo.french "fr").
  vm_compute. right. right. left. reflexivity.
Defined.

(** X19 (one iteration of the selection loop: [clone], rename,
    [appendChild], translation of the text leaves).  The copy of a node of
    the page gets the first fresh identifier, the name of the original
    followed by the upper-cased language in parentheses, the type of the
    original and a subtree of the same shape; it is on the page afterwards
    even when translating its leaves fails, and the iteration leaves the
    selection alone.  The language is one whose upper case stays within
    the code units of the model (no micro sign, no y with diaeresis), so
    that [Js.toUpperCase] is the upper case the host computes. *)
Theorem copy_is_placed st translations language n :
  Js.upperInRange language = true ->
  In n (pageNodes (currentPage st)) ->
  let r := cloneAndTranslate translations language n st in
  exists copy,
    In copy (pageNodes (currentPage (snd r)))
    /\ id copy = nextId st
    /\ name copy = name n +:+ " (" +:+ Js.toUpperCase language +:+ ")"
    /\ type copy = type n
    /\ map kind (nodes copy) = map kind (nodes n)
    /\ (forall c, fst r = Returned c -> c = copy)
    /\ nextId st < nextId (snd r)
    /\ selection (snd r) = selection st.
Proof.
  intros _ Hn r.
  destruct (cloneAndTranslate_spec translations language n st) as (Hg & Hlt & Hcopy).
  destruct (Hcopy Hn) as (copy & H1 & H2 & H3 & H4 & H5 & H6).
  exists copy. destruct Hg as (Hs & _). by repeat split.
Qed.

Lemma copy_is_placed_witness :
  (exists copy,
     In copy (pageNodes (currentPage
                (snd (cloneAndTranslate Demo.french "fr" Demo.button Demo.scannedOnce))))
     /\ id copy = 6
     /\ name copy = "Submit Button (FR)")
  /\ Js.toUpperCase (String (ascii_of_nat 223) (String (ascii_of_nat 252) "x"))
     = String "S" (String "S" (String (ascii_of_nat 220) "X")).
Proof.
  split; [|vm_compute; reflexivity].
  destruct (copy_is_placed Demo.scannedOnce Demo.french "fr" Demo.button)
    as (copy & H1 & H2 & H3 & _).
  - vm_compute. reflexivity.
  - vm_compute. right. left. reflexivity.
  - exists copy. split; [exact H1|]. split; [exact H2|].
    etransitivity; [exact H3|]. vm_compute. reflexivity.
Defined.

(** X20 ([handleApplyTranslation]).  Apply never removes or retypes a
    node: every node of the page is still there with its identifier, type
    and font, every other node of the page afterwards has a fresh
    identifier, other pages are untouched, and unless it answers
    [apply-complete] the selection is what it was. *)
Theorem apply_only_adds st translations language :
  let st' := step st (ApplyTranslationMsg translations language) in
  otherPages st' = otherPages st
  /\ nextId st <= nextId st'
  /\ (forall m0, In m0 (pageNodes (currentPage st)) ->
        exists m, In m (pageNodes (currentPage st'))
                  /\ id m = id m0 /\ type m = type m0 /\ fontName m = fontName m0)
  /\ (forall m, In m (pageNodes (currentPage st')) ->
        (exists m0, In m0 (pageNodes (currentPage st))
                    /\ id m0 = id m /\ type m0 = type m /\ fontName m0 = fontName m)
        \/ nextId st <= id m < nextId st')
  /\ (~ In (PostMessage ApplyComplete) (newEvents st st') -> selection st' = selection st).
Proof. apply apply_grows. Qed.

Lemma apply_only_adds_witness :
  selection (step Demo.withoutFonts (ApplyTranslationMsg Demo.french "fr"))
  = selection Demo.withoutFonts
  /\ length (pageNodes (currentPage
       (step Demo.withoutFonts (ApplyTranslationMsg Demo.french "fr")))) = 7.
Proof.
  split.
  - apply (apply_only_adds Demo.withoutFonts Demo.french "fr").
    vm_compute. intros [H|[H|[H|[]]]]; discriminate.
  - vm_compute. reflexivity.
Defined.

End PlacedCopies.

(* ===================================================================== *)
(** ** Scanning after a clean-up, full coverage, and the font map *)
(* ===================================================================== *)

Section MoreScan.

Lemma storedTranslations_none st i :
  (forall lang, In lang languages -> translationOf st i lang = "") ->
  storedTranslations st i = [].
Proof.
  intros H. destruct (storedTranslations st i) as [|[lang text] l] eqn:E; [done|].
  assert (Hin : In (lang, text) (storedTranslations st i)) by (rewrite E; by left).
  apply in_storedTranslations in Hin as (Hl & -> & Hne). by rewrite H in Hne.
Qed.

Lemma manualFlags_none st i :
  (forall lang, In lang languages -> manualOverrideOf st i lang = "") ->
  manualFlags st i = [].
Proof.
  intros H. destruct (manualFlags st i) as [|lang l] eqn:E; [done|].
  assert (Hin : In lang (manualFlags st i)) by (rewrite E; by left).
  apply in_manualFlags in Hin as (Hl & Ht). rewrite H in Ht; [discriminate|done].
Qed.

Lemma cleared_translation lang : In lang languages -> clearedKey ("translation-" +:+ lang).
Proof. intros H. right. right. exists lang. split; [done|by left]. Qed.

Lemma cleared_manual lang : In lang languages -> clearedKey ("isManual-" +:+ lang).
Proof. intros H. right. right. exists lang. split; [done|by right]. Qed.

(** X21 ([handleClearStorage], then [scanSelection]).  A scan right after
    a clean-up reports no translation and no manual flag for any node, and
    stores the current text of each recorded node as its [originalText]:
    whatever a preview had left on screen becomes the new original. *)
Theorem scan_after_clear st data r :
  let st1 := step st ClearStorage in
  In (PostMessage (ScanResults data)) (newEvents st1 (step st1 Scan)) ->
  In r data ->
  r_translations r = [] /\ r_manualFlags r = []
  /\ r_text r = characters st (r_id r)
  /\ originalTextOf (step st1 Scan) (r_id r) = characters st (r_id r).
Proof.
  intros st1 Hpost Hr. apply scan_posted in Hpost. subst data.
  apply in_map_iff in Hr as (node & <- & Hn).
  pose proof Hn as Hrec. apply in_recorded in Hn as [Hn _].
  apply scanTargets_sound in Hn as (Hpage & _).
  destruct (clear_keeps st) as [(Hp & _) Hc]. fold st1 in Hp, Hc. rewrite Hp in Hpage.
  destruct (clearStorage_spec st node Hpage) as (_ & Hclr & _).
  change (snd (handleClearStorage st)) with st1 in Hclr.
  cbn [scanRecord r_id r_text r_translations r_manualFlags].
  split; [|split; [|split]].
  - apply storedTranslations_none. intros lang Hl. by apply Hclr, cleared_translation.
  - apply manualFlags_none. intros lang Hl. by apply Hclr, cleared_manual.
  - unfold characters. by rewrite Hc.
  - rewrite (scan_original st1 node Hrec).
    assert (Ho : originalTextOf st1 (id node) = "") by (apply Hclr; by left).
    rewrite Ho. cbn [Js.truthy]. unfold characters. by rewrite Hc.
Qed.

Lemma scan_after_clear_witness :
  r_translations
    (scanRecord (step (step Demo.scannedOnce (UpdateManualTranslation 3 "fr" "Envoyer"))
                   ClearStorage) Demo.submit) = []
  /\ r_manualFlags
       (scanRecord (step (step Demo.scannedOnce (UpdateManualTranslation 3 "fr" "Envoyer"))
                      ClearStorage) Demo.submit) = [].
Proof.
  destruct (scan_after_clear
              (step Demo.scannedOnce (UpdateManualTranslation 3 "fr" "Envoyer"))
              (map (scanRecord (step (step Demo.scannedOnce
                                        (UpdateManualTranslation 3 "fr" "Envoyer"))
                                  ClearStorage))
                 (recorded (step (step Demo.scannedOnce
                                    (UpdateManualTranslation 3 "fr" "Envoyer"))
                              ClearStorage)))
              (scanRecord (step (step Demo.scannedOnce (UpdateManualTranslation 3 "fr" "Envoyer"))
                             ClearStorage) Demo.submit))
    as (H1 & H2 & _).
  - vm_compute. right. left. reflexivity.
  - vm_compute. left. reflexivity.
  - split; [exact H1|exact H2].
Defined.

(** X22 ([traverse] and the choice of roots in [scanSelection]).  With
    nothing selected and no hidden node on the page, a scan collects
    exactly the text nodes of the page, in document order. *)
Theorem scan_collects_all_text st :
  selection st = [] ->
  (forall m, In m (pageNodes (currentPage st)) -> visible m = true) ->
  scanTargets st = List.filter (fun m => isText (type m)) (pageNodes (currentPage st)).
Proof.
  intros Hsel Hvis. unfold scanTargets, pageNodes. rewrite Hsel.
  apply flat_map_filter. intros c Hc. apply traverse_complete.
  intros m Hm. apply Hvis. by eapply in_pageNodes_child.
Qed.

Lemma scan_collects_all_text_witness :
  scanTargets (mkFigma (mkPage 0 "Page 1" [Demo.button; Demo.welcome]) [] []
                 Demo.texts ∅ [Demo.inter] 6 [])
  = [Demo.submit; Demo.welcome].
Proof.
  etransitivity.
  - apply scan_collects_all_text.
    + reflexivity.
    + intros m Hm. vm_compute in Hm.
      destruct Hm as [<-|[<-|[<-|[]]]]; reflexivity.
  - vm_compute. reflexivity.
Defined.

End MoreScan.

Section FontMap.

Lemma mapSet_keys key font m :
  map fst (mapSet key font m)
  = if existsb (fun k => String.eqb k key) (map fst m) then map fst m
    else map fst m ++ [key].
Proof.
  induction m as [|[k f] m IH]; [done|].
  cbn [mapSet map fst existsb]. destruct (String.eqb k key); [done|].
  cbn [map fst orb]. rewrite IH. by destruct (existsb _ _).
Qed.

Lemma mapSet_in key font m k f :
  In (k, f) (mapSet key font m) -> (k = key /\ f = font) \/ In (k, f) m.
Proof.
  induction m as [|[k0 f0] m IH]; cbn [mapSet].
  - intros [[= <- <-]|[]]. by left.
  - destruct (String.eqb k0 key) eqn:E.
    + apply String.eqb_eq in E. subst k0. intros [[= <- <-]|H]; [by left|right; by right].
    + intros [H|H]; [right; by left|].
      destruct (IH H) as [G|G]; [by left|right; by right].
Qed.

Lemma mapSet_NoDup key font m : NoDup (map fst m) -> NoDup (map fst (mapSet key font m)).
Proof.
  intros H. rewrite mapSet_keys.
  destruct (existsb _ _) eqn:E; [done|].
  apply NoDup_app. split; [done|]. split; [|apply NoDup_singleton].
  intros k Hk Hk'. apply list_elem_of_In in Hk. apply list_elem_of_In in Hk'.
  destruct Hk' as [<-|[]].
  assert (Ht : existsb (fun k0 => String.eqb k0 key) (map fst m) = true).
  { apply existsb_exists. exists key. split; [done|]. apply String.eqb_refl. }
  congruence.
Qed.

Lemma mapSet_has key font m : In key (map fst (mapSet key font m)).
Proof.
  rewrite mapSet_keys. destruct (existsb _ _) eqn:E.
  - apply existsb_exists in E as (k & Hk & E). apply String.eqb_eq in E. by subst.
  - apply in_or_app. right. by left.
Qed.

Lemma mapSet_keeps key font m k : In k (map fst m) -> In k (map fst (mapSet key font m)).
Proof.
  intros H. rewrite mapSet_keys. destruct (existsb _ _); [done|].
  apply in_or_app. by left.
Qed.

Lemma collectFonts_snoc l x :
  collectFonts (l ++ [x])
  = match fontName x with
    | Some font =>
        if Js.truthy (family font)
        then mapSet (family font +:+ "_" +:+ style font) font (collectFonts l)
        else collectFonts l
    | None => collectFonts l
    end.
Proof. unfold collectFonts. by rewrite fold_left_app. Qed.

(** X23 (the font map of [scanSelection]).  The map of fonts to preload
    holds each key [family_style] once; every font in it is the font of a
    collected node, has a non-empty family and sits under its own key;
    nodes with mixed fonts contribute nothing; and the key of every
    collected node with a single font is present. *)
Theorem collectFonts_spec textNodes :
  NoDup (map fst (collectFonts textNodes))
  /\ (forall key font, In (key, font) (collectFonts textNodes) ->
        key = family font +:+ "_" +:+ style font /\ family font <> ""
        /\ exists node, In node textNodes /\ fontName node = Some font)
  /\ (forall node font, In node textNodes -> fontName node = Some font ->
        family font <> "" ->
        In (family font +:+ "_" +:+ style font) (map fst (collectFonts textNodes))).
Proof.
  induction textNodes as [|x l (IH1 & IH2 & IH3)] using rev_ind.
  { split; [constructor|]. split; [intros ? ? []|intros ? ? []]. }
  rewrite collectFonts_snoc.
  assert (Hold : forall key font, In (key, font) (collectFonts l) ->
            key = family font +:+ "_" +:+ style font /\ family font <> ""
            /\ exists node, In node (l ++ [x]) /\ fontName node = Some font).
  { intros key font Hin. destruct (IH2 key font Hin) as (H1 & H2 & node & Hn & Hf).
    split; [done|]. split; [done|]. exists node. split; [|done]. apply in_or_app. by left. }
  destruct (fontName x) as [fx|] eqn:Hfx.
  - destruct (Js.truthy (family fx)) eqn:Ht.
    + split; [by apply mapSet_NoDup|]. split.
      * intros key font Hin. apply mapSet_in in Hin as [[-> ->]|Hin]; [|by apply Hold].
        split; [done|]. split; [by apply truthy_spec|].
        exists x. split; [|done]. apply in_or_app. right. by left.
      * intros node font Hn Hf Hfam. apply in_app_or in Hn as [Hn|[<-|[]]].
        -- apply mapSet_keeps. by eapply IH3.
        -- rewrite Hfx in Hf. injection Hf as <-. apply mapSet_has.
    + split; [done|]. split; [exact Hold|].
      intros node font Hn Hf Hfam. apply in_app_or in Hn as [Hn|[<-|[]]].
      * by eapply IH3.
      * rewrite Hfx in Hf. injection Hf as <-. apply truthy_false in Ht. congruence.
  - split; [done|]. split; [exact Hold|].
    intros node font Hn Hf Hfam. apply in_app_or in Hn as [Hn|[<-|[]]].
    + by eapply IH3.
    + congruence.
Qed.

Lemma collectFonts_spec_witness :
  In ("Inter_Regular") (map fst (collectFonts [Demo.submit; Demo.hidden; Demo.welcome]))
  /\ collectFonts [Demo.submit; Demo.hidden; Demo.welcome] = [("Inter_Regular", Demo.inter)].
Proof.
  split.
  - apply (proj2 (proj2 (collectFonts_spec [Demo.submit; Demo.hidden; Demo.welcome]))
             Demo.welcome Demo.inter).
    + right. right. left. reflexivity.
    + reflexivity.
    + discriminate.
  - vm_compute. reflexivity.
Defined.

End FontMap.

(* ===================================================================== *)
(** ** A copy follows the node it was made from *)
(* ===================================================================== *)

Section Duplicates.

Lemma relabelList_ids cs k :
  k <= snd (relabelList cs k)
  /\ forall m, In m (flat_map nodes (fst (relabelList cs k))) ->
       k <= id m < snd (relabelList cs k).
Proof.
  revert k. induction cs as [|c r IH]; intros k; cbn [relabelList].
  - split; [done|]. intros m [].
  - destruct (relabel_ids c k) as (Hlt & _ & _ & _ & Hin).
    destruct (relabel c k) as [c' k1]. cbn [fst snd] in *.
    destruct (IH k1) as (Hle & Hin').
    destruct (relabelList r k1) as [r' k2]. cbn [fst snd flat_map] in *.
    split; [lia|]. intros m Hm. apply in_app_or in Hm as [Hm|Hm].
    + specialize (Hin m Hm). lia.
    + specialize (Hin' m Hm). lia.
Qed.

(** The identifiers of a copy are pairwise different. *)
Lemma relabel_NoDup n : forall k, NoDup (map id (nodes (fst (relabel n k)))).
Proof.
  induction n as [i ty nm v f cs IH] using SceneNode_forall_ind.
  intros k. rewrite relabel_unfold.
  assert (Hlist : forall k0, NoDup (map id (flat_map nodes (fst (relabelList cs k0))))).
  { clear k. induction IH as [|c r Hc _ IHr]; intros k0; cbn [relabelList].
    { constructor. }
    specialize (Hc k0). destruct (relabel_ids c k0) as (_ & _ & _ & _ & Hin).
    destruct (relabel c k0) as [c' k1]. cbn [fst snd] in *.
    specialize (IHr k1). destruct (relabelList_ids r k1) as (_ & Hin').
    destruct (relabelList r k1) as [r' k2]. cbn [fst snd flat_map] in *.
    rewrite map_app. apply NoDup_app. split; [done|]. split; [|done].
    intros x Hx Hx'. apply list_elem_of_In in Hx, Hx'.
    apply in_map_iff in Hx as (m & <- & Hm). apply in_map_iff in Hx' as (m' & E & Hm').
    specialize (Hin m Hm). specialize (Hin' m' Hm'). lia. }
  specialize (Hlist (S k)). destruct (relabelList_ids cs (S k)) as (_ & Hin).
  destruct (relabelList cs (S k)) as [cs' k']. cbn [fst snd nodes map id] in *.
  apply NoDup_cons. split.
  - destruct (hasChildren ty); [|by intros ?%elem_of_nil].
    intros Hx. apply list_elem_of_In in Hx. apply in_map_iff in Hx as (m & E & Hm).
    specialize (Hin m Hm). lia.
  - destruct (hasChildren ty); [done|constructor].
Qed.

Lemma copyNodeData_new st old new :
  chars (copyNodeData st (old, new)) !! new = chars st !! old
  /\ pdata (copyNodeData st (old, new)) !! new = pdata st !! old.
Proof.
  unfold copyNodeData. cbn [chars pdata withChars withPdata]. split.
  - destruct (chars st !! old) eqn:E; [by rewrite lookup_insert_eq|by rewrite lookup_delete_eq].
  - destruct (pdata st !! old) eqn:E; [by rewrite lookup_insert_eq|by rewrite lookup_delete_eq].
Qed.

Lemma copyNodeData_other st old new j :
  j <> new ->
  chars (copyNodeData st (old, new)) !! j = chars st !! j
  /\ pdata (copyNodeData st (old, new)) !! j = pdata st !! j.
Proof.
  intros Hj. unfold copyNodeData. cbn [chars pdata withChars withPdata]. split.
  - destruct (chars st !! old); [by rewrite lookup_insert_ne|by rewrite lookup_delete_ne].
  - destruct (pdata st !! old); [by rewrite lookup_insert_ne|by rewrite lookup_delete_ne].
Qed.

Lemma copyData_other pairs st j :
  ~ In j (map snd pairs) ->
  chars (fold_left copyNodeData pairs st) !! j = chars st !! j
  /\ pdata (fold_left copyNodeData pairs st) !! j = pdata st !! j.
Proof.
  revert st. induction pairs as [|[o n] pairs IH]; intros st Hj; cbn [fold_left]; [done|].
  cbn [map snd In] in Hj.
  destruct (IH (copyNodeData st (o, n))) as [H1 H2]; [tauto|].
  destruct (copyNodeData_other st o n j) as [G1 G2]; [intros ->; tauto|].
  split; congruence.
Qed.

(** [clone] gives every node of the copy the text and the plugin data of
    the node it copies. *)
Lemma copyData_pairs pairs st old new :
  NoDup (map snd pairs) ->
  (forall p q, In p pairs -> In q pairs -> fst p <> snd q) ->
  In (old, new) pairs ->
  chars (fold_left copyNodeData pairs st) !! new = chars st !! old
  /\ pdata (fold_left copyNodeData pairs st) !! new = pdata st !! old.
Proof.
  revert st. induction pairs as [|[o n] pairs IH]; intros st Hnd Hsep Hin; [destruct Hin|].
  cbn [fold_left]. cbn [map snd] in Hnd. apply NoDup_cons in Hnd as [Hn Hnd].
  destruct Hin as [[= -> ->]|Hin].
  - destruct (copyData_other pairs (copyNodeData st (old, new)) new) as [H1 H2].
    { intros H. apply Hn. by apply list_elem_of_In. }
    destruct (copyNodeData_new st old new) as [G1 G2]. split; congruence.
  - destruct (IH (copyNodeData st (o, n))) as [H1 H2]; [done| |done|].
    { intros p q Hp Hq. apply Hsep; by right. }
    destruct (copyNodeData_other st o n old) as [G1 G2].
    { apply (Hsep (old, new) (o, n)); [by right|by left]. }
    split; congruence.
Qed.

Lemma combine_map_in {A B C D} (f : A -> C) (g : B -> D) l1 l2 a b :
  In (a, b) (combine l1 l2) -> In (f a, g b) (combine (map f l1) (map g l2)).
Proof.
  revert l2. induction l1 as [|x l1 IH]; intros [|y l2]; cbn [combine map]; try done.
  intros [[= -> ->]|H]; [by left|right; by apply IH].
Qed.

Lemma combine_map_eq {A B} (f : A -> B) l1 l2 a b :
  map f l1 = map f l2 -> In (a, b) (combine l1 l2) -> f a = f b.
Proof.
  revert l2. induction l1 as [|x l1 IH]; intros [|y l2]; cbn [combine map]; try done.
  intros [= Hxy Hl] [[= -> ->]|H]; [done|by apply (IH l2)].
Qed.

Lemma Forall2_of_combine {A B} (P : A -> B -> Prop) l1 l2 :
  length l1 = length l2 ->
  (forall a b, In (a, b) (combine l1 l2) -> P a b) ->
  Forall2 P l1 l2.
Proof.
  revert l2. induction l1 as [|x l1 IH]; intros [|y l2]; cbn [length combine]; try done.
  intros [= Hlen] H. constructor; [apply H; by left|].
  apply IH; [done|]. intros a b Hab. apply H. by right.
Qed.

Lemma clone_copies n st copy st1 :
  clone n st = (Returned copy, st1) ->
  (forall m, In m (nodes n) -> id m < nextId st) ->
  length (nodes n) = length (nodes copy)
  /\ forall m m', In (m, m') (combine (nodes n) (nodes copy)) ->
       chars st1 !! id m' = chars st !! id m
       /\ pdata st1 !! id m' = pdata st !! id m
       /\ kind m' = kind m /\ nextId st <= id m'.
Proof.
  intros Hclone Hold. pose proof (clone_relabel n st copy st1 Hclone) as Hrel.
  pose proof (relabel_kinds n (nextId st)) as Hkinds. rewrite <- Hrel in Hkinds.
  pose proof (relabel_NoDup n (nextId st)) as Hnd. rewrite <- Hrel in Hnd.
  destruct (relabel_ids n (nextId st)) as (_ & _ & _ & _ & Hrange). rewrite <- Hrel in Hrange.
  split.
  { apply (f_equal (@length _)) in Hkinds. by rewrite !length_map in Hkinds. }
  intros m m' Hin.
  assert (Hst1 : st1 = fold_left copyNodeData
                         (combine (map id (nodes n)) (map id (nodes copy)))
                         (withNextId (snd (relabel n (nextId st))) st)).
  { unfold clone in Hclone. destruct (relabel n (nextId st)) as [c k'] eqn:E.
    cbn [fst snd] in *. subst c. by injection Hclone as <-. }
  destruct (copyData_pairs (combine (map id (nodes n)) (map id (nodes copy)))
              (withNextId (snd (relabel n (nextId st))) st) (id m) (id m')) as [H1 H2].
  - assert (Hsnd : forall (l1 l2 : list nat), NoDup l2 -> NoDup (map snd (combine l1 l2))).
    { induction l1 as [|a l1 IH]; intros [|b l2] Hl2; cbn [combine map snd];
        [constructor..|].
      apply NoDup_cons in Hl2 as [Hb Hl2]. apply NoDup_cons. split; [|by apply IH].
      intros Hmem. apply Hb. apply list_elem_of_In in Hmem. apply list_elem_of_In.
      apply in_map_iff in Hmem as ([a' b'] & E & Hab). cbn in E. subst b'.
      by apply in_combine_r in Hab. }
    by apply Hsnd.
  - intros [o1 n1] [o2 n2] Hp Hq. cbn [fst snd].
    apply in_combine_l in Hp. apply in_combine_r in Hq.
    apply in_map_iff in Hp as (a & <- & Ha). apply in_map_iff in Hq as (b & <- & Hb).
    specialize (Hold a Ha). specialize (Hrange b Hb). lia.
  - by apply combine_map_in.
  - rewrite Hst1. split; [exact H1|]. split; [exact H2|]. split.
    + symmetry. by apply (combine_map_eq kind (nodes n) (nodes copy)).
    + apply in_combine_r in Hin. specialize (Hrange m' Hin). lia.
Qed.

Lemma nodes_rename_ids nm n : map id (nodes (rename nm n)) = map id (nodes n).
Proof. by destruct n. Qed.

Lemma rename_combine nm c (l : list SceneNode) m m' :
  In (m, m') (combine l (nodes (rename nm c))) ->
  exists m0, In (m, m0) (combine l (nodes c)) /\ id m0 = id m' /\ kind m0 = kind m'.
Proof.
  destruct c as [i ty nm' v f cs]. unfold rename. cbn [nodes id type visible fontName children].
  destruct l as [|x l]; [intros []|]. cbn [combine].
  intros [[= -> <-]|H].
  - exists (mk i ty nm' v f cs). split; [by left|done].
  - exists m'. split; [by right|done].
Qed.

Lemma getPluginData_copied st st' i i' k :
  pdata st' !! i' = pdata st !! i -> getPluginData st' i' k = getPluginData st i k.
Proof. intros H. unfold getPluginData. by rewrite H. Qed.

Lemma characters_copied st st' i i' :
  chars st' !! i' = chars st !! i -> characters st' i' = characters st i.
Proof. intros H. unfold characters. by rewrite H. Qed.

(** Translating the leaves writes the text and the translation of the
    language, nothing else. *)
Lemma translateLeaf_otherKeys translations language leaf st i k :
  k <> "translation-" +:+ language ->
  getPluginData (snd (translateLeaf translations language leaf st)) i k
  = getPluginData st i k.
Proof.
  intros Hk. rewrite translateLeaf_run. destruct (Js.truthy _); [|done].
  rewrite matchLoop_run. destruct (find _ translations); [|done].
  destruct (canLoad st (fontName leaf)); [|done]. cbn [snd].
  rewrite getPluginData_set_ne by (right; congruence). done.
Qed.

Lemma translateLeaves_otherKeys translations language leaves st i k :
  k <> "translation-" +:+ language ->
  getPluginData (snd (forEach (translateLeaf translations language) leaves st)) i k
  = getPluginData st i k.
Proof.
  intros Hk.
  apply (respects_forEach (fun a b => getPluginData b i k = getPluginData a i k));
    [done|congruence|].
  intros leaf _ s. by apply translateLeaf_otherKeys.
Qed.

(** A leaf without a key, or whose key no item matches, is left alone. *)
Lemma translateLeaves_untouched st0 b translations language leaves st j :
  b <= nextId st0 ->
  (forall t, In t translations -> t_id t < b) ->
  (forall leaf, In leaf leaves -> b <= id leaf) ->
  keepsBelow b st0 st ->
  (if Js.truthy (nodeKeyOf st j)
   then find (itemMatchesb st0 (nodeKeyOf st j)) translations else None) = None ->
  chars (snd (forEach (translateLeaf translations language) leaves st)) !! j = chars st !! j
  /\ pdata (snd (forEach (translateLeaf translations language) leaves st)) !! j
     = pdata st !! j.
Proof.
  intros Hb Hitems. revert st.
  induction leaves as [|leaf rest IH]; intros st Hleaves Hk Hnone; [done|].
  cbn [forEach]. unfold bind.
  pose proof (translateLeaf_keepsBelow b translations language leaf
                (Hleaves leaf (or_introl eq_refl)) st) as Hk1.
  assert (Hsame : chars (snd (translateLeaf translations language leaf st)) !! j = chars st !! j
                  /\ pdata (snd (translateLeaf translations language leaf st)) !! j
                     = pdata st !! j).
  { destruct (decide (id leaf = j)) as [E|E].
    - rewrite translateLeaf_run. rewrite E.
      destruct (Js.truthy (nodeKeyOf st j)); [|done].
      rewrite matchLoop_run.
      rewrite (find_ext (itemMatchesb st (nodeKeyOf st j))
                 (itemMatchesb st0 (nodeKeyOf st j))), Hnone; [done|].
      intros t Ht. eapply itemMatchesb_stable; eauto.
    - destruct (translateLeaf_page translations language leaf st) as (_ & _ & _ & H).
      by apply H. }
  destruct (translateLeaf translations language leaf st) as [[[]|e] st1];
    cbn [fst snd] in *; [|exact Hsame].
  destruct Hsame as [Hc Hp].
  destruct (IH st1) as [G1 G2].
  - intros l Hl. apply Hleaves. by right.
  - eapply keepsBelow_trans; eauto.
  - unfold nodeKeyOf in *. by rewrite (getPluginData_lookup st st1 j "nodeKey" Hp).
  - split; congruence.
Qed.

Lemma copy_follows st translations language n copy st' :
  freshIds st ->
  (forall t, In t translations -> t_id t < nextId st) ->
  In n (pageNodes (currentPage st)) ->
  cloneAndTranslate translations language n st = (Returned copy, st') ->
  length (nodes n) = length (nodes copy)
  /\ forall m m', In (m, m') (combine (nodes n) (nodes copy)) ->
       type m' = type m /\ nextId st <= id m'
       /\ nodeKeyOf st' (id m') = nodeKeyOf st (id m)
       /\ originalTextOf st' (id m') = originalTextOf st (id m)
       /\ (isText (type m) = true ->
           match (if Js.truthy (nodeKeyOf st (id m))
                  then find (itemMatchesb st (nodeKeyOf st (id m))) translations
                  else None) with
           | Some t =>
               characters st' (id m') = translatedText t
               /\ translationOf st' (id m') language = translatedText t
           | None => characters st' (id m') = characters st (id m)
           end).
Proof.
  intros Hfresh Hitems Hn Hrun.
  assert (Hold : forall m, In m (nodes n) -> id m < nextId st).
  { intros m Hm. apply Hfresh, in_allIds_pageNode. by eapply pageNodes_trans. }
  unfold cloneAndTranslate in Hrun.
  destruct (clone_spec n st) as (copy0 & st1 & Hclone & Hlt & Hin & _).
  pose proof (clone_keepsBelow (nextId st) n st) as Hk. rewrite Hclone in Hk. cbn [snd] in Hk.
  destruct (clone_copies n st copy0 st1 Hclone Hold) as (Hlen & Hdata).
  rewrite (bind_run _ _ _ _ _ Hclone) in Hrun.
  set (c := rename (copyName (name n) language) copy0) in *.
  set (st2 := withPage (appendToParentOnPage (id n) c (currentPage st1)) st1).
  change (bind (modify (fun st => withPage (appendToParentOnPage (id n) c (currentPage st)) st))
            (fun _ => bind (forEach (translateLeaf translations language) (cloneTextNodes c))
                        (fun _ => ret c)) st1)
    with (bind (forEach (translateLeaf translations language) (cloneTextNodes c))
            (fun _ => ret c) st2) in Hrun.
  assert (Hc : forall m, In m (nodes c) -> nextId st <= id m).
  { intros m Hm. apply rename_nodes_ids in Hm as (m0 & Hm0 & <- & _).
    apply Hin in Hm0. lia. }
  assert (Hk2 : keepsBelow (nextId st) st st2).
  { eapply keepsBelow_trans; [exact Hk|]. by apply append_keepsBelow. }
  assert (Hleaves : forall leaf, In leaf (cloneTextNodes c) -> nextId st <= id leaf).
  { intros leaf Hl. apply Hc. by apply cloneTextNodes_nodes in Hl as [? _]. }
  destruct (translateLeaves_spec st (nextId st) translations language (cloneTextNodes c) st2
              (Nat.le_refl _) Hitems Hleaves Hk2) as (_ & _ & _ & _ & Hdone).
  pose proof (fun j => translateLeaves_untouched st (nextId st) translations language
                         (cloneTextNodes c) st2 j (Nat.le_refl _) Hitems Hleaves Hk2) as Hunt.
  pose proof (fun i k => translateLeaves_otherKeys translations language
                           (cloneTextNodes c) st2 i k) as Hkeys.
  unfold bind, ret in Hrun.
  destruct (forEach (translateLeaf translations language) (cloneTextNodes c) st2)
    as [[[]|e] st3]; [|discriminate].
  injection Hrun as <- <-. cbn [fst snd] in *. specialize (Hdone eq_refl).
  split.
  { unfold c.
    rewrite <- (length_map id (nodes (rename _ copy0))), nodes_rename_ids, length_map.
    exact Hlen. }
  intros m m' Hpair.
  assert (Hm' : In m' (nodes c)) by (by apply in_combine_r in Hpair).
  apply rename_combine in Hpair as (m0 & Hpair & Hid & Hkind).
  destruct (Hdata m m0 Hpair) as (Hch & Hpd & Hkd & Hge).
  rewrite Hid in Hch, Hpd.
  assert (Hty : type m' = type m).
  { unfold kind in *. congruence. }
  assert (Hkey : nodeKeyOf st3 (id m') = nodeKeyOf st (id m)).
  { unfold nodeKeyOf. rewrite Hkeys by (intros E; symmetry in E; by apply nodeKey_not_translation in E).
    change (getPluginData st2 (id m') "nodeKey") with (getPluginData st1 (id m') "nodeKey").
    by apply getPluginData_copied. }
  split; [done|]. split; [by apply Hc|]. split; [done|]. split.
  { unfold originalTextOf.
    rewrite Hkeys by (intros E; symmetry in E; by apply translation_key_not_original in E).
    change (getPluginData st2 (id m') "originalText")
      with (getPluginData st1 (id m') "originalText").
    by apply getPluginData_copied. }
  intros Htext.
  assert (Hleaf : In m' (cloneTextNodes c)).
  { apply nodes_cloneTextNodes; [done|]. by rewrite Hty. }
  assert (Hkey2 : nodeKeyOf st2 (id m') = nodeKeyOf st (id m)).
  { unfold nodeKeyOf.
    change (getPluginData st2 (id m') "nodeKey") with (getPluginData st1 (id m') "nodeKey").
    by apply getPluginData_copied. }
  destruct (Js.truthy (nodeKeyOf st (id m))) eqn:Htruthy.
  - destruct (find (itemMatchesb st (nodeKeyOf st (id m))) translations) as [t|] eqn:Hfind.
    + apply (Hdone m' Hleaf).
      * rewrite Hkey. by apply truthy_spec.
      * by rewrite Hkey.
    + destruct (Hunt (id m')) as [G1 _]; [by rewrite Hkey2, Htruthy|].
      unfold characters. rewrite G1.
      change (chars st2 !! id m') with (chars st1 !! id m'). by rewrite Hch.
  - destruct (Hunt (id m')) as [G1 _]; [by rewrite Hkey2, Htruthy|].
    unfold characters. rewrite G1.
    change (chars st2 !! id m') with (chars st1 !! id m'). by rewrite Hch.
Qed.

End Duplicates.

Section DuplicateProperties.

Lemma freshIds_emit e st : freshIds st -> freshIds (emit e st).
Proof. intros H. exact H. Qed.

(** Apply with one selected node, when it completes. *)
Lemma apply_single st translations language i n :
  selection st = [i] -> findOnPage (currentPage st) i = Some n ->
  In (PostMessage ApplyComplete)
     (newEvents st (step st (ApplyTranslationMsg translations language))) ->
  exists copy s',
    cloneAndTranslate translations language n
      (emit (Notify ("Creating " +:+ Js.toUpperCase language +:+ " copy...") false) st)
    = (Returned copy, s')
    /\ selection (step st (ApplyTranslationMsg translations language)) = [id copy]
    /\ currentPage (step st (ApplyTranslationMsg translations language)) = currentPage s'
    /\ pdata (step st (ApplyTranslationMsg translations language)) = pdata s'
    /\ chars (step st (ApplyTranslationMsg translations language)) = chars s'
    /\ fonts (step st (ApplyTranslationMsg translations language)) = fonts s'.
Proof.
  intros Hsel Hfind Hcomplete.
  assert (Hne : selection st <> []) by (by rewrite Hsel).
  destruct (handleApplyTranslation_cases translations language st Hne)
    as [(clones & st2 & Hloop & Hrun)|(e & st2 & Hloop & Hrun)].
  - rewrite Hsel in Hloop. cbn [cloneLoop] in Hloop.
    unfold bind at 1, get at 1 in Hloop.
    change (currentPage (emit _ st)) with (currentPage st) in Hloop.
    rewrite Hfind in Hloop. unfold bind in Hloop.
    destruct (cloneAndTranslate translations language n _) as [[copy|e] s'] eqn:Hct;
      [|discriminate].
    cbn [app] in Hloop. unfold ret in Hloop. injection Hloop as <- <-.
    exists copy, s'. split; [done|].
    unfold step, onmessage. by rewrite Hrun.
  - exfalso.
    pose proof (apply_outcome st translations language Hne) as Hout. cbv zeta in Hout.
    rewrite Hloop in Hout. cbn [fst] in Hout. by destruct Hout as [Hout _].
Qed.

(** X24 (one iteration of the selection loop of [handleApplyTranslation]).
    Node by node, in document order, the copy of a selected node follows
    the original: each node of the copy has the type, the [nodeKey] and the
    [originalText] of the node it was copied from, and each text leaf
    shows the first translation item that matches the key of that node, or
    still its text when that node was never scanned or no item matches. *)
Theorem copy_follows_original st translations language n copy st' :
  freshIds st ->
  (forall t, In t translations -> t_id t < nextId st) ->
  In n (pageNodes (currentPage st)) ->
  cloneAndTranslate translations language n st = (Returned copy, st') ->
  Forall2 (follows st translations language st') (nodes n) (nodes copy).
Proof.
  intros Hfresh Hitems Hn Hrun.
  destruct (copy_follows st translations language n copy st' Hfresh Hitems Hn Hrun)
    as [Hlen Hpairs].
  apply Forall2_of_combine; [done|]. intros m m' Hin. by apply Hpairs.
Qed.

Lemma copy_follows_original_witness :
  exists copy st',
    cloneAndTranslate Demo.french "fr" Demo.button Demo.scannedOnce = (Returned copy, st')
    /\ Forall2 (follows Demo.scannedOnce Demo.french "fr" st') (nodes Demo.button) (nodes copy).
Proof.
  destruct (cloneAndTranslate Demo.french "fr" Demo.button Demo.scannedOnce)
    as [[copy|e] st'] eqn:E.
  - exists copy, st'. split; [reflexivity|].
    apply (copy_follows_original Demo.scannedOnce Demo.french "fr" Demo.button copy st').
    + apply demo_freshIds.
    + apply demo_items.
    + vm_compute. right. left. reflexivity.
    + exact E.
  - vm_compute in E. discriminate.
Defined.

(** X25 ([handleApplyTranslation], then [handleRevertPreview]).  A copy
    carries the [originalText] of the nodes it was made from, and a revert
    restores every text node of the page that has one.  So after an apply
    of one selected node that completes and a revert that returns, each
    text leaf of the translated copy shows the original text of the leaf
    it was copied from again, wherever one was stored. *)
Theorem revert_undoes_copy st translations language i n :
  freshIds st ->
  (forall t, In t translations -> t_id t < nextId st) ->
  selection st = [i] -> findOnPage (currentPage st) i = Some n ->
  let st1 := step st (ApplyTranslationMsg translations language) in
  let st2 := step st1 RevertPreview in
  In (PostMessage ApplyComplete) (newEvents st st1) ->
  fst (onmessage RevertPreview st1) = Returned tt ->
  exists copy,
    In copy (pageNodes (currentPage st1)) /\ selection st1 = [id copy]
    /\ Forall2 (fun m m' =>
                  isText (type m) = true -> originalTextOf st (id m) <> "" ->
                  characters st2 (id m') = originalTextOf st (id m))
         (nodes n) (nodes copy).
Proof.
  intros Hfresh Hitems Hsel Hfind st1 st2 Hcomplete Hret.
  destruct (apply_single st translations language i n Hsel Hfind Hcomplete)
    as (copy & s' & Hct & Hs1 & Hp1 & Hd1 & Hc1 & Hf1). fold st1 in Hs1, Hp1, Hd1, Hc1, Hf1.
  set (st0 := emit (Notify ("Creating " +:+ Js.toUpperCase language +:+ " copy...") false) st)
    in *.
  assert (Hn : In n (pageNodes (currentPage st0))) by (by apply findOnPage_in in Hfind).
  destruct (copy_follows st0 translations language n copy s'
              (freshIds_emit _ st Hfresh) Hitems Hn Hct) as [Hlen Hpairs].
  destruct (cloneAndTranslate_spec translations language n st0) as (_ & _ & Hplaced).
  destruct (Hplaced Hn) as (copy' & Hin & _ & _ & _ & _ & Hsame).
  rewrite Hct in Hin, Hsame. cbn [fst snd] in Hin, Hsame.
  rewrite (Hsame copy eq_refl) in *. clear Hsame.
  exists copy'. split; [by rewrite Hp1|]. split; [done|].
  apply Forall2_of_combine; [done|]. intros m m' Hpair Htext Horig.
  destruct (Hpairs m m' Hpair) as (Hty & _ & _ & Ho & _).
  change (originalTextOf st0 (id m)) with (originalTextOf st (id m)) in Ho.
  assert (Ho1 : originalTextOf st1 (id m') = originalTextOf st (id m)).
  { rewrite <- Ho. unfold originalTextOf. by apply getPluginData_ext. }
  apply revert_returns_iff in Hret.
  unfold st2, characters. rewrite step_revert_chars.
  rewrite (revertChars_restores st1 (revertible st1) (chars st1) m' Hret).
  - cbn [default]. exact Ho1.
  - apply revertible_iff. split; [|split].
    + rewrite Hp1. eapply pageNodes_trans; [exact Hin|]. by apply in_combine_r in Hpair.
    + by rewrite Hty.
    + congruence.
  - change (originalTextOf st1 (id m') <> ""). congruence.
Qed.

Lemma revert_undoes_copy_witness :
  characters (step Demo.scannedOnce (ApplyTranslationMsg Demo.french "fr")) 7 = "Envoyer"
  /\ exists copy,
       In copy (pageNodes (currentPage
                  (step Demo.scannedOnce (ApplyTranslationMsg Demo.french "fr"))))
       /\ selection (step Demo.scannedOnce (ApplyTranslationMsg Demo.french "fr")) = [id copy]
       /\ Forall2 (fun m m' =>
                     isText (type m) = true -> originalTextOf Demo.scannedOnce (id m) <> "" ->
                     characters
                       (step (step Demo.scannedOnce (ApplyTranslationMsg Demo.french "fr"))
                          RevertPreview) (id m')
                     = originalTextOf Demo.scannedOnce (id m))
            (nodes Demo.button) (nodes copy).
Proof.
  split; [vm_compute; reflexivity|].
  apply (revert_undoes_copy Demo.scannedOnce Demo.french "fr" 2 Demo.button).
  - apply demo_freshIds.
  - apply demo_items.
  - reflexivity.
  - vm_compute. reflexivity.
  - vm_compute. right. right. left. reflexivity.
  - vm_compute. reflexivity.
Defined.

End DuplicateProperties.

(* ===================================================================== *)
(** ** The shape of a semantic key *)
(* ===================================================================== *)

Section Keys.

Lemma allChars_impl (f g : ascii -> bool) s :
  (forall c, f c = true -> g c = true) ->
  Js.allChars f s = true -> Js.allChars g s = true.
Proof.
  intros Hfg. induction s as [|c s IH]; [done|]. cbn [Js.allChars].
  intros H. apply andb_prop in H as [Hc Hs]. by rewrite (Hfg c Hc), IH.
Qed.

Lemma lowerChar_not_capital c : Js.between 65 90 (Js.lowerChar c) = false.
Proof. destruct c as [[] [] [] [] [] [] [] []]; vm_compute; reflexivity. Qed.

Lemma slugChar_keyChar c : slugChar c = true -> keyChar c = true.
Proof. destruct c as [[] [] [] [] [] [] [] []]; vm_compute; congruence. Qed.

Lemma replaceSpaces_keyChars b s :
  Js.allChars keyChar
    (Js.replaceRunsFrom Js.isSpace "."%char b (Js.mapChars Js.lowerChar s)) = true.
Proof.
  revert b. induction s as [|c s IH]; intros b; [done|].
  cbn [Js.mapChars Js.replaceRunsFrom].
  destruct (Js.isSpace (Js.lowerChar c)) eqn:Hsp.
  - destruct b; [apply IH|]. cbn [Js.allChars]. by rewrite IH.
  - cbn [Js.allChars]. rewrite IH. unfold keyChar.
    by rewrite Hsp, lowerChar_not_capital.
Qed.

Lemma dotted_keyChars s : Js.allChars keyChar (dotted s) = true.
Proof. apply replaceSpaces_keyChars. Qed.

Lemma context_keyChars page node : Js.allChars keyChar (getContext page node) = true.
Proof.
  pose proof (classify_label
                (match nearestBoundary (ancestors page (id node)) with
                 | Some p => Js.toLowerCase (name p)
                 | None => "global"
                 end)) as H.
  unfold getContext. cbv zeta.
  destruct H as [<-|[<-|[<-|[<-|[<-|[<-|[]]]]]]]; vm_compute; reflexivity.
Qed.

Lemma keyFor_keyChars st node : Js.allChars keyChar (keyFor st node) = true.
Proof.
  unfold keyFor, getScreenName. rewrite !allChars_append.
  rewrite dotted_keyChars, context_keyChars.
  rewrite (allChars_impl slugChar keyChar _ slugChar_keyChar (slugify_slugChars _)).
  done.
Qed.

(** X26 ([scanSelection] with [slugify], [getContext] and
    [getScreenName]).  The key of every record a scan posts contains no
    white space and no upper-case ASCII letter, and it is the [nodeKey] the
    scan has stored on the node. *)
Theorem scan_key_shape st data r :
  In (PostMessage (ScanResults data)) (newEvents st (step st Scan)) ->
  In r data ->
  Js.allChars keyChar (r_key r) = true
  /\ nodeKeyOf (step st Scan) (r_id r) = r_key r.
Proof.
  intros Hpost Hr. apply scan_posted in Hpost. subst data.
  apply in_map_iff in Hr as (node & <- & Hn).
  cbn [scanRecord r_key r_id]. split; [apply keyFor_keyChars|].
  destruct (scan_state st) as (_ & _ & Hkey & _). by apply Hkey.
Qed.

Lemma scan_key_shape_witness :
  Js.allChars keyChar (r_key (scanRecord Demo.fresh Demo.welcome)) = true
  /\ nodeKeyOf (step Demo.fresh Scan) (r_id (scanRecord Demo.fresh Demo.welcome))
     = r_key (scanRecord Demo.fresh Demo.welcome)
  /\ r_key (scanRecord Demo.fresh Demo.welcome) = "home.screen.text.welcome.back.user".
Proof.
  destruct (scan_key_shape Demo.fresh (map (scanRecord Demo.fresh) (recorded Demo.fresh))
              (scanRecord Demo.fresh Demo.welcome)) as [H1 H2].
  - vm_compute. right. left. reflexivity.
  - vm_compute. right. left. reflexivity.
  - split; [exact H1|]. split; [exact H2|]. vm_compute. reflexivity.
Defined.

End Keys.
